(** * tube-rag: hybrid retrieval and the MongoDB vector store

    A shallow embedding of

      - [packages/retrieval/src/embeddings.ts]     (EmbeddingService)
      - [packages/retrieval/src/hybrid-search.ts]  (HybridSearchService)
      - [packages/vector-store/src/types.ts]       (VectorData, QueryResult, ...)
      - [packages/vector-store/src/mongodb-vector-store.ts] (MongoDBVectorStore)

    Modelling conventions.

      - A JavaScript [number] is an exact rational ([Q]).  Rounding, NaN and
        the infinities of IEEE-754 doubles are outside the model.  No function
        below compares two numbers for equality; the only tests are [>=] and
        the sign of a difference.
      - A value of type [any] is a [JsValue]; a plain object is the list of its
        own properties in property order.
      - Objects that the code mutates ([SearchResult]s) live in a heap and are
        passed around by address, so aliasing is visible.
      - An [async] method is a computation in a state-and-exception monad.  The
        two legs of [search] are started together and joined before the fusion
        ([Promise.all]); they share no state and neither reads what the other
        returns, so what [search] returns does not depend on how their
        completions interleave.  The legs are written here one after the
        other, vector leg first.  The order in which calls and console lines
        of different legs follow each other is therefore not the program's,
        and no statement below speaks of it: calls and lines are compared
        within a leg, or as a collection.
      - Code outside the repository (the OpenAI client, the MongoDB driver, the
        lexical search service, the vector store behind the interface) is a
        collaborator: a function that returns a value or throws.
      - The MongoDB collection is the list of its documents.  The driver
        writes [undefined] as [null], rejects an empty bulk write, and may
        fail part-way through an ordered one; statements about [upsert] are
        made for a batch that is not empty on a deployment that takes the
        write.  [new Date()] is a reading of a clock. *)

From Stdlib Require Import QArith ZArith Lia Sorting.Sorted.
From stdpp Require Import list strings.

Set Default Proof Using "Type".
Local Open Scope string_scope.
Local Open Scope list_scope.

(* ===================================================================== *)
(** ** JavaScript values and plain objects                                *)
(* ===================================================================== *)

#[warnings="-register-all"]
Inductive JsValue : Type :=
| JUndefined
| JNull
| JBool (b : bool)
| JNum (n : Q)
| JStr (s : string)
| JObj (props : list (string * JsValue)).

(** A plain object: own properties, in property order, keys unique. *)
Definition JsObject : Type := list (string * JsValue).

(** ToBoolean, as used by [||], [!] and [&&]. *)
Definition truthy (v : JsValue) : bool :=
  match v with
  | JUndefined | JNull => false
  | JBool b => b
  | JNum n => negb (Qeq_bool n 0)
  | JStr s => negb (String.eqb s "")
  | JObj _ => true
  end.

(** [a || b] *)
Definition js_or (a b : JsValue) : JsValue := if truthy a then a else b.

(** [o[k]] on a plain object: [undefined] when the property is absent. *)
Fixpoint obj_get (o : JsObject) (k : string) : JsValue :=
  match o with
  | [] => JUndefined
  | (k', v) :: o' => if String.eqb k k' then v else obj_get o' k
  end.

(** [o[k] = v]: an existing property keeps its place, a new one goes last. *)
Fixpoint obj_set (o : JsObject) (k : string) (v : JsValue) : JsObject :=
  match o with
  | [] => [(k, v)]
  | (k', v') :: o' =>
      if String.eqb k k' then (k, v) :: o' else (k', v') :: obj_set o' k v
  end.

(** [{ ...a, ...b }]: the properties of [b] are assigned onto a copy of [a]. *)
Definition obj_spread (a b : JsObject) : JsObject :=
  fold_left (fun acc kv => obj_set acc (fst kv) (snd kv)) b a.

(** [v.k] for an arbitrary value that is neither [undefined] nor [null]:
    primitives have no own property of the names used here. *)
Definition get_prop (v : JsValue) (k : string) : JsValue :=
  match v with
  | JObj o => obj_get o k
  | _ => JUndefined
  end.

(* ===================================================================== *)
(** ** Completions and the state-and-exception monad                      *)
(* ===================================================================== *)

Inductive JsError : Type :=
| TypeError (msg : string)
| BackendError (msg : string).

Inductive Completion (A : Type) : Type :=
| Normal (a : A)
| Throw (e : JsError).
Arguments Normal {A} a.
Arguments Throw {A} e.

Definition M (S A : Type) : Type := S -> Completion A * S.

Definition ret {S A} (a : A) : M S A := fun s => (Normal a, s).

Definition throw {S A} (e : JsError) : M S A := fun s => (Throw e, s).

Definition bind {S A B} (m : M S A) (k : A -> M S B) : M S B :=
  fun s =>
    match m s with
    | (Normal a, s') => k a s'
    | (Throw e, s') => (Throw e, s')
    end.

(** [try { m } catch (error) { h error }]: effects of [m] before the throw
    are kept. *)
Definition try_catch {S A} (m : M S A) (h : JsError -> M S A) : M S A :=
  fun s =>
    match m s with
    | (Normal a, s') => (Normal a, s')
    | (Throw e, s') => h e s'
    end.

(** The result of an external call. *)
Definition lift {S A} (c : Completion A) : M S A := fun s => (c, s).

Declare Scope monad_scope.
Delimit Scope monad_scope with monad.
Notation "x <- m ;; k" := (bind m (fun x => k))
  (at level 100, m at next level, right associativity) : monad_scope.
Notation "m ;;; k" := (bind m (fun _ => k))
  (at level 100, right associativity) : monad_scope.
Local Open Scope monad_scope.

(** [for (const x of xs) acc = f(acc, x)] *)
Fixpoint forEach {S A B} (f : B -> A -> M S B) (xs : list A) (acc : B) : M S B :=
  match xs with
  | [] => ret acc
  | x :: xs' => acc' <- f acc x ;; forEach f xs' acc'
  end.

(** [xs.map(f)] for an effectful [f]. *)
Fixpoint mapM {S A B} (f : A -> M S B) (xs : list A) : M S (list B) :=
  match xs with
  | [] => ret []
  | x :: xs' => y <- f x ;; ys <- mapM f xs' ;; ret (y :: ys)
  end.

(* ===================================================================== *)
(** ** Retrieval data model (retrieval/src/types.ts, hybrid-search.ts)    *)
(* ===================================================================== *)

(** Modelled from the spec: the declaration of [SearchResult]
    (retrieval/src/types.ts) is not among the sources; the fields are those
    of the specification's data model, which are also the ones the object
    literal of [performVectorSearch] sets.  Optional fields are [JUndefined]
    when absent. *)
Record SearchResult : Type := mkSearchResult {
  sr_id : string;
  sr_content : JsValue;
  sr_score : Q;
  sr_videoId : JsValue;
  sr_videoTitle : JsValue;
  sr_timestamp : JsValue;
  sr_url : JsValue;
  sr_playlistId : JsValue;
  sr_publishedAt : JsValue
}.

(** [{ ...result, score: s }] *)
Definition with_score (result : SearchResult) (s : Q) : SearchResult :=
  {| sr_id := sr_id result;
     sr_content := sr_content result;
     sr_score := s;
     sr_videoId := sr_videoId result;
     sr_videoTitle := sr_videoTitle result;
     sr_timestamp := sr_timestamp result;
     sr_url := sr_url result;
     sr_playlistId := sr_playlistId result;
     sr_publishedAt := sr_publishedAt result |}.

(** [QueryResult] of the vector store interface. *)
Record QueryResult : Type := mkQueryResult {
  qr_id : string;
  qr_score : Q;
  qr_metadata : JsObject
}.

(** Modelled from the spec: [RetrievalFilters] (retrieval/src/types.ts) is
    not among the sources; it is a set of metadata predicates, handed to the
    vector store as a [Record<string, any>] and passed through unread by
    [search]. *)
Definition Filters : Type := JsObject.

(** The [options] argument of [search]. *)
Record FusionOptions : Type := mkFusionOptions {
  vectorWeight : Q;
  textWeight : Q;
  minScore : Q
}.

(** The default values of the parameters [topK] and [options] of [search]. *)
Definition default_topK : Z := 10.

Definition default_options : FusionOptions :=
  {| vectorWeight := 7 # 10; textWeight := 3 # 10; minScore := 1 # 2 |}.

(** Addresses of heap-allocated [SearchResult] objects. *)
Abbreviation addr := nat (only parsing).

(** Modelled from the spec: [HybridSearchResult] (retrieval/src/types.ts),
    with the three fields of the object [search] returns.  An array holds
    references. *)
Record HybridSearchResult : Type := mkHybridSearchResult {
  vectorResults : list addr;
  textResults : list addr;
  combinedResults : list addr
}.

(** Input of [openai.embeddings.create]. *)
Inductive EmbeddingInput : Type :=
| OneText (text : string)
| ManyTexts (texts : list string).

Record EmbeddingRequest : Type := mkEmbeddingRequest {
  er_model : string;
  er_input : EmbeddingInput;
  er_encoding_format : string
}.

(** Calls that leave the process.  Within a leg they are recorded in
    dispatch order; the order between the calls of different legs carries no
    meaning. *)
Inductive IoCall : Type :=
| IoEmbeddingsCreate (req : EmbeddingRequest)
| IoVectorQuery (vector : list Q) (k : Z) (filters : option Filters)
| IoSearchText (query : string) (k : Z) (filters : option Filters).

(** A line written with [console.error]. *)
Record LogLine : Type := mkLogLine { log_msg : string; log_error : JsError }.

(** The state a [search] call runs in. *)
Record World : Type := mkWorld {
  heap : list SearchResult;
  io : list IoCall;
  console : list LogLine
}.

(** The collaborators held by the services: the OpenAI client of
    [EmbeddingService], the [VectorStore] behind the interface, and the
    [TextSearchService] (retrieval/src/text-search.ts, not among the
    sources).  Each call returns a value or throws. *)
Record Collaborators : Type := mkCollaborators {
  embeddings_create : EmbeddingRequest -> Completion (list (list Q));
  vectorStore_query :
    list Q -> Z -> option Filters -> Completion (list QueryResult);
  textSearch_searchText :
    string -> Z -> option Filters -> Completion (list SearchResult)
}.

(** *** Primitive effects on the world *)

(** A fresh object; its address is the next free one. *)
Definition alloc (o : SearchResult) : M World addr :=
  fun w => (Normal (length (heap w)),
            {| heap := heap w ++ [o]; io := io w; console := console w |}).

(** Reading through a reference; a dangling one is a [TypeError]. *)
Definition read (a : addr) : M World SearchResult :=
  fun w => match heap w !! a with
           | Some o => (Normal o, w)
           | None => (Throw (TypeError "Cannot read properties of undefined"), w)
           end.

(** [existing.score = s] *)
Definition write_score (a : addr) (s : Q) : M World unit :=
  fun w => match heap w !! a with
           | Some o =>
               (Normal tt,
                {| heap := <[a := with_score o s]> (heap w);
                   io := io w; console := console w |})
           | None => (Throw (TypeError "Cannot set properties of undefined"), w)
           end.

Definition dispatch (c : IoCall) : M World unit :=
  fun w => (Normal tt,
            {| heap := heap w; io := io w ++ [c]; console := console w |}).

Definition console_error (msg : string) (e : JsError) : M World unit :=
  fun w => (Normal tt,
            {| heap := heap w; io := io w;
               console := console w ++ [mkLogLine msg e] |}).

(* ===================================================================== *)
(** ** [Map<string, V>]                                                   *)
(* ===================================================================== *)

(** Entries in insertion order, keys unique. *)
Definition JsMap (V : Type) : Type := list (string * V).

(** [Map.prototype.get] *)
Fixpoint map_get {V} (m : JsMap V) (k : string) : option V :=
  match m with
  | [] => None
  | (k', a) :: m' => if String.eqb k k' then Some a else map_get m' k
  end.

(** [Map.prototype.set]: an existing key keeps its position. *)
Fixpoint map_set {V} (m : JsMap V) (k : string) (a : V) : JsMap V :=
  match m with
  | [] => [(k, a)]
  | (k', a') :: m' =>
      if String.eqb k k' then (k, a) :: m' else (k', a') :: map_set m' k a
  end.

(** [Array.from(m.values())] *)
Definition map_values {V} (m : JsMap V) : list V := map snd m.

(* ===================================================================== *)
(** ** EmbeddingService (embeddings.ts)                                   *)
(* ===================================================================== *)

Section Services.

Variable env : Collaborators.

(** The [model] field, set by the constructor (default
    ['text-embedding-3-small']). *)
Variable model : string.

(** [response.data[0].embedding]: indexing an empty [data] gives [undefined],
    whose property read throws. *)
Definition first_embedding (data : list (list Q)) : Completion (list Q) :=
  match data with
  | e :: _ => Normal e
  | [] => Throw (TypeError "Cannot read properties of undefined")
  end.

Definition generateEmbedding (text : string) : M World (list Q) :=
  try_catch
    (let req := {| er_model := model; er_input := OneText text;
                   er_encoding_format := "float" |} in
     dispatch (IoEmbeddingsCreate req) ;;;
     data <- lift (embeddings_create env req) ;;
     lift (first_embedding data))
    (fun error =>
       console_error "Error generating embedding:" error ;;;
       throw error).

Definition generateEmbeddings (texts : list string) : M World (list (list Q)) :=
  try_catch
    (let req := {| er_model := model; er_input := ManyTexts texts;
                   er_encoding_format := "float" |} in
     dispatch (IoEmbeddingsCreate req) ;;;
     lift (embeddings_create env req))
    (fun error =>
       console_error "Error generating embeddings:" error ;;;
       throw error).

(* ===================================================================== *)
(** ** HybridSearchService (hybrid-search.ts)                             *)
(* ===================================================================== *)

(** The object literal built by the callback of [results.map] in
    [performVectorSearch]. *)
Definition of_query_result (result : QueryResult) : SearchResult :=
  {| sr_id := qr_id result;
     sr_content := js_or (obj_get (qr_metadata result) "content") (JStr "");
     sr_score := qr_score result;
     sr_videoId := obj_get (qr_metadata result) "videoId";
     sr_videoTitle := obj_get (qr_metadata result) "title";
     sr_timestamp := obj_get (qr_metadata result) "startTime";
     sr_url := obj_get (qr_metadata result) "url";
     sr_playlistId := obj_get (qr_metadata result) "playlistId";
     sr_publishedAt := obj_get (qr_metadata result) "publishedAt" |}.

Definition performVectorSearch
    (query : string) (topK : Z) (filters : option Filters)
  : M World (list addr) :=
  try_catch
    (queryEmbedding <- generateEmbedding query ;;
     dispatch (IoVectorQuery queryEmbedding topK filters) ;;;
     results <- lift (vectorStore_query env queryEmbedding topK filters) ;;
     mapM (fun result => alloc (of_query_result result)) results)
    (fun error =>
       console_error "Error performing vector search:" error ;;;
       ret []).

(** The objects of the array returned by [searchText] are created by the
    lexical search service; they enter the heap when the call returns. *)
Definition performTextSearch
    (query : string) (topK : Z) (filters : option Filters)
  : M World (list addr) :=
  try_catch
    (dispatch (IoSearchText query topK filters) ;;;
     results <- lift (textSearch_searchText env query topK filters) ;;
     mapM alloc results)
    (fun error =>
       console_error "Error performing text search:" error ;;;
       ret []).

(** [Map<string, SearchResult>]; the values are references. *)
Definition ResultMap : Type := JsMap addr.

(** [result.score >= minScore] *)
Definition passes (minScore : Q) (result : SearchResult) : bool :=
  Qle_bool minScore (sr_score result).

(** Body of the first [forEach] of [combineResults]. *)
Definition add_vector_result (vectorWeight minScore : Q)
    (resultMap : ResultMap) (r : addr) : M World ResultMap :=
  result <- read r ;;
  if passes minScore result then
    fresh <- alloc (with_score result (sr_score result * vectorWeight)) ;;
    ret (map_set resultMap (sr_id result) fresh)
  else ret resultMap.

(** Body of the second [forEach] of [combineResults]. *)
Definition add_text_result (textWeight minScore : Q)
    (resultMap : ResultMap) (r : addr) : M World ResultMap :=
  result <- read r ;;
  if passes minScore result then
    match map_get resultMap (sr_id result) with
    | Some existing =>
        e <- read existing ;;
        write_score existing (sr_score e + sr_score result * textWeight) ;;;
        ret resultMap
    | None =>
        fresh <- alloc (with_score result (sr_score result * textWeight)) ;;
        ret (map_set resultMap (sr_id result) fresh)
    end
  else ret resultMap.

(** The comparator [(a, b) => b.score - a.score]. *)
Definition by_score_desc (a b : SearchResult) : Q := sr_score b - sr_score a.

(** [v > 0] *)
Definition positive (v : Q) : bool := negb (Qle_bool v 0).

(** [Array.prototype.sort] is a stable sort: [a] stays before [b] unless
    [cmp a b > 0].  For a comparator that is consistent (as [by_score_desc]
    is on rationals) every stable sort returns the same array; it is written
    here as an insertion sort.  The array holds references, the comparator
    reads the objects. *)
Fixpoint insert_by {A} (cmp : A -> A -> Q) (x : A) (sorted : list A) : list A :=
  match sorted with
  | [] => [x]
  | y :: rest =>
      if positive (cmp x y) then y :: insert_by cmp x rest
      else x :: y :: rest
  end.

Fixpoint sort_by {A} (cmp : A -> A -> Q) (xs : list A) : list A :=
  match xs with
  | [] => []
  | x :: rest => insert_by cmp x (sort_by cmp rest)
  end.

Definition array_sort (cmp : SearchResult -> SearchResult -> Q)
    (arr : list addr) : M World (list addr) :=
  objs <- mapM read arr ;;
  ret (map fst (sort_by (fun p q => cmp (snd p) (snd q)) (zip arr objs))).

Definition combineResults
    (vectorResults textResults : list addr)
    (vectorWeight textWeight minScore : Q) : M World (list addr) :=
  resultMap <- forEach (add_vector_result vectorWeight minScore)
                 vectorResults [] ;;
  resultMap <- forEach (add_text_result textWeight minScore)
                 textResults resultMap ;;
  array_sort by_score_desc (map_values resultMap).

(** [arr.slice(0, end)] for an integer [end]: a negative [end] counts from
    the end of the array. *)
Definition slice0 {A} (arr : list A) (e : Z) : list A :=
  let len := Z.of_nat (length arr) in
  let final := if (e <? 0)%Z then Z.max (len + e) 0 else Z.min e len in
  take (Z.to_nat final) arr.

(** [search]: the two legs are joined ([Promise.all]) before the fusion;
    neither reads what the other writes.  Their effects are recorded leg by
    leg; see the conventions at the head of the file. *)
Definition search
    (query : string) (topK : Z) (filters : option Filters)
    (options : FusionOptions) : M World HybridSearchResult :=
  vectorResults <- performVectorSearch query topK filters ;;
  textResults <- performTextSearch query topK filters ;;
  combined <- combineResults vectorResults textResults
                (vectorWeight options) (textWeight options)
                (minScore options) ;;
  ret {| vectorResults := vectorResults;
         textResults := textResults;
         combinedResults := slice0 combined topK |}.

End Services.

(* ===================================================================== *)
(** ** Vector store data model (vector-store/src/types.ts)                *)
(* ===================================================================== *)

Record VectorData : Type := mkVectorData {
  vd_id : string;
  vd_values : list Q;
  vd_metadata : JsObject
}.

Record VectorStoreStats : Type := mkVectorStoreStats {
  totalVectors : Z;
  dimensions : Z;
  indexSize : JsValue
}.

Inductive SimilarityMetric : Type := euclidean | cosine | dotProduct.

Record MongoVectorStoreConfig : Type := mkMongoVectorStoreConfig {
  connectionString : string;
  databaseName : string;
  collectionName : string;
  indexName : string;
  cfg_dimensions : Z;
  similarityMetric : SimilarityMetric
}.

(** [MongoVectorDocument]; a [Date] is its time value in milliseconds. *)
Record MongoVectorDocument : Type := mkMongoVectorDocument {
  doc_id : string;
  doc_content : JsValue;
  doc_embedding : list Q;
  doc_metadata : JsObject;
  doc_createdAt : Z;
  doc_updatedAt : Z
}.

(* ===================================================================== *)
(** ** The MongoDB driver, as far as the store uses it                    *)
(* ===================================================================== *)

(** The driver and the database are outside the repository.  The collection
    is kept here as the list of its documents, and the three calls the store
    makes ([bulkWrite] of [replaceOne] upserts, [deleteMany] by [_id],
    [countDocuments]) act on that list as the driver documents them.  Nothing
    in the driver looks at the length of an array it stores.  The order of
    the list stands for nothing a caller can observe: documents are looked up
    by [_id] and counted. *)

(** What the driver writes for a value.  BSON has no [undefined]: with the
    driver's default options a property that holds [undefined] is written as
    [null], at any depth, and is [null] when the document is read back. *)
Fixpoint bson_value (v : JsValue) : JsValue :=
  match v with
  | JUndefined => JNull
  | JObj props =>
      JObj ((fix bson_props (l : list (string * JsValue)) :=
               match l with
               | [] => []
               | (k, x) :: l' => (k, bson_value x) :: bson_props l'
               end) props)
  | _ => v
  end.

Definition bson_object (o : JsObject) : JsObject :=
  map (fun kv => (fst kv, bson_value (snd kv))) o.

(** A document as it is stored. *)
Definition bson_document (d : MongoVectorDocument) : MongoVectorDocument :=
  {| doc_id := doc_id d;
     doc_content := bson_value (doc_content d);
     doc_embedding := doc_embedding d;
     doc_metadata := bson_object (doc_metadata d);
     doc_createdAt := doc_createdAt d;
     doc_updatedAt := doc_updatedAt d |}.

(** An element of the [operations] array given to [bulkWrite]. *)
Record ReplaceOne : Type := mkReplaceOne {
  op_filter_id : string;
  op_replacement : MongoVectorDocument;
  op_upsert : bool
}.

(** Of the result of [bulkWrite], the two counts that [upsert] logs;
    [modifiedCount] counts the documents that were matched and replaced. *)
Record BulkWriteResult : Type := mkBulkWriteResult {
  upsertedCount : Z;
  modifiedCount : Z
}.

(** A line written with [console.log] or [console.error]. *)
Inductive StoreLog : Type :=
| LogInfo (msg : string) (n : Z)
| LogError (msg : string) (e : JsError).

(** The collection behind the store.  [_id] is unique among [documents].
    A call on an unreachable deployment throws.  [write_fault] is how a bulk
    write goes wrong on a deployment that is reachable: with [Some n] the
    write fails at its operation number [n] (counted from 0), after the
    operations before it have been applied. *)
Record Mongo : Type := mkMongo {
  documents : list MongoVectorDocument;
  reachable : bool;
  write_fault : option nat;
  db_indexSize : JsValue;
  store_console : list StoreLog
}.

Definition set_documents (db : Mongo) (docs : list MongoVectorDocument) : Mongo :=
  {| documents := docs; reachable := reachable db;
     write_fault := write_fault db;
     db_indexSize := db_indexSize db; store_console := store_console db |}.

Definition store_log (l : StoreLog) : M Mongo unit :=
  fun db => (Normal tt,
             {| documents := documents db; reachable := reachable db;
                write_fault := write_fault db;
                db_indexSize := db_indexSize db;
                store_console := store_console db ++ [l] |}).

Definition has_id (i : string) (d : MongoVectorDocument) : bool :=
  String.eqb (doc_id d) i.

(** One [replaceOne] with [filter: { _id }]: the matching document is
    replaced, whole, by the replacement as the driver writes it; without a
    match an upsert inserts it. *)
Fixpoint replace_one (docs : list MongoVectorDocument) (op : ReplaceOne)
  : list MongoVectorDocument * BulkWriteResult :=
  match docs with
  | [] =>
      if op_upsert op
      then ([bson_document (op_replacement op)], mkBulkWriteResult 1 0)
      else ([], mkBulkWriteResult 0 0)
  | d :: rest =>
      if has_id (op_filter_id op) d
      then (bson_document (op_replacement op) :: rest, mkBulkWriteResult 0 1)
      else let '(rest', r) := replace_one rest op in (d :: rest', r)
  end.

Definition add_counts (a b : BulkWriteResult) : BulkWriteResult :=
  mkBulkWriteResult (upsertedCount a + upsertedCount b)
                    (modifiedCount a + modifiedCount b).

(** The operations of an ordered bulk write, applied one after the other. *)
Definition apply_operations (operations : list ReplaceOne)
    (docs : list MongoVectorDocument)
  : list MongoVectorDocument * BulkWriteResult :=
  fold_left
    (fun acc op =>
       let '(docs', r') := replace_one (fst acc) op in
       (docs', add_counts (snd acc) r'))
    operations (docs, mkBulkWriteResult 0 0).

(** [collection.bulkWrite(operations)] (ordered, the default).  The driver
    rejects an empty batch.  A write that fails at one of its operations
    stops there and raises; what the operations before it wrote stays. *)
Definition bulkWrite (operations : list ReplaceOne) : M Mongo BulkWriteResult :=
  fun db =>
    if negb (reachable db) then (Throw (BackendError "bulkWrite"), db)
    else
      match operations with
      | [] =>
          (Throw (BackendError "Invalid BulkOperation, Batch cannot be empty"),
           db)
      | _ =>
          let failing :=
            match write_fault db with
            | Some n => if (n <? length operations)%nat then Some n else None
            | None => None
            end in
          match failing with
          | Some n =>
              (Throw (BackendError "BulkWriteError"),
               set_documents db
                 (fst (apply_operations (take n operations) (documents db))))
          | None =>
              let '(docs, r) := apply_operations operations (documents db) in
              (Normal r, set_documents db docs)
          end
      end.

Definition id_in (ids : list string) (d : MongoVectorDocument) : bool :=
  existsb (String.eqb (doc_id d)) ids.

(** [collection.deleteMany({ _id: { $in: ids } })]; the value is
    [deletedCount]. *)
Definition deleteMany_id_in (ids : list string) : M Mongo Z :=
  fun db =>
    if reachable db then
      let kept := List.filter (fun d => negb (id_in ids d)) (documents db) in
      (Normal (Z.of_nat (length (documents db)) - Z.of_nat (length kept))%Z,
       set_documents db kept)
    else (Throw (BackendError "deleteMany"), db).

(** [collection.countDocuments()] *)
Definition countDocuments : M Mongo Z :=
  fun db =>
    if reachable db then (Normal (Z.of_nat (length (documents db))), db)
    else (Throw (BackendError "countDocuments"), db).

(** [db.stats()], of which only [indexSize] is read. *)
Definition db_stats : M Mongo JsValue :=
  fun db =>
    if reachable db then (Normal (db_indexSize db), db)
    else (Throw (BackendError "stats"), db).

(* ===================================================================== *)
(** ** MongoDBVectorStore (mongodb-vector-store.ts)                       *)
(* ===================================================================== *)

(** The object built by the callback of the first [map] of [upsert];
    [createdAt] and [updatedAt] are the two readings of [new Date()] it
    makes. *)
Definition to_document (createdAt updatedAt : Z) (vector : VectorData)
  : MongoVectorDocument :=
  let md := vd_metadata vector in
  {| doc_id := vd_id vector;
     doc_content := js_or (obj_get md "content") (JStr "");
     doc_embedding := vd_values vector;
     doc_metadata :=
       obj_spread
         [("videoId", obj_get md "videoId");
          ("playlistId", obj_get md "playlistId");
          ("title", obj_get md "title");
          ("publishedAt", obj_get md "publishedAt");
          ("startTime", obj_get md "startTime");
          ("url", obj_get md "url")]
         md;
     doc_createdAt := createdAt;
     doc_updatedAt := updatedAt |}.

(** The first [map] of [upsert].  [clock n] is the reading number [n] of
    [new Date()] during the call: the record at index [i] reads the clock for
    [createdAt] (reading [2 i]) and again for [updatedAt] (reading
    [2 i + 1]). *)
Fixpoint to_documents (clock : nat -> Z) (n : nat) (vectors : list VectorData)
  : list MongoVectorDocument :=
  match vectors with
  | [] => []
  | vector :: rest =>
      to_document (clock n) (clock (S n)) vector
      :: to_documents clock (S (S n)) rest
  end.

(** The operation built by the second [map] of [upsert]. *)
Definition to_operation (doc : MongoVectorDocument) : ReplaceOne :=
  {| op_filter_id := doc_id doc; op_replacement := doc; op_upsert := true |}.

(** [upsert]; [config] is the field [this.config], which the method does
    not read. *)
Definition upsert (config : MongoVectorStoreConfig) (clock : nat -> Z)
    (vectors : list VectorData) : M Mongo unit :=
  let documents := to_documents clock 0 vectors in
  let operations := map to_operation documents in
  try_catch
    (result <- bulkWrite operations ;;
     store_log (LogInfo "Upserted documents"
                  (upsertedCount result + modifiedCount result)))
    (fun error =>
       store_log (LogError "Error upserting vectors:" error) ;;;
       throw error).

(** [target[k] = v] where [target] was read from a property; modules are
    strict code, so assigning on a primitive throws. *)
Definition set_prop (target : JsValue) (k : string) (v : JsValue)
  : Completion JsValue :=
  match target with
  | JObj o => Normal (JObj (obj_set o k v))
  | JUndefined | JNull =>
      Throw (TypeError "Cannot set properties of undefined")
  | _ => Throw (TypeError "Cannot create property")
  end.

Definition is_undefined (v : JsValue) : bool :=
  match v with JUndefined => true | _ => false end.

(** Body of the [for ... of Object.entries(filters)] loop. *)
Definition filter_entry (filterQuery : JsObject) (entry : string * JsValue)
  : Completion JsObject :=
  let '(key, value) := entry in
  if String.eqb key "videoId" || String.eqb key "playlistId" then
    Normal (obj_set filterQuery ("metadata." ++ key) (JObj [("$eq", value)]))
  else if String.eqb key "publishedAfter" || String.eqb key "publishedBefore" then
    let dateField := "metadata.publishedAt" in
    let filterQuery :=
      if negb (truthy (obj_get filterQuery dateField))
      then obj_set filterQuery dateField (JObj [])
      else filterQuery in
    match set_prop (obj_get filterQuery dateField)
            (if String.eqb key "publishedAfter" then "$gte" else "$lte")
            value with
    | Normal range => Normal (obj_set filterQuery dateField range)
    | Throw e => Throw e
    end
  else if String.eqb key "startTimeRange" then
    match value with
    | JUndefined | JNull =>
        Throw (TypeError "Cannot destructure property 'min'")
    | _ =>
        let min := get_prop value "min" in
        let max := get_prop value "max" in
        let range := [] in
        let range :=
          if negb (is_undefined min) then obj_set range "$gte" min else range in
        let range :=
          if negb (is_undefined max) then obj_set range "$lte" max else range in
        Normal (obj_set filterQuery "metadata.startTime" (JObj range))
    end
  else
    Normal (obj_set filterQuery ("metadata." ++ key) (JObj [("$eq", value)])).

(** [filters] is given as [Object.entries(filters)]. *)
Fixpoint filter_entries (entries : list (string * JsValue))
    (filterQuery : JsObject) : Completion JsObject :=
  match entries with
  | [] => Normal filterQuery
  | entry :: rest =>
      match filter_entry filterQuery entry with
      | Normal filterQuery' => filter_entries rest filterQuery'
      | Throw e => Throw e
      end
  end.

Definition buildFilterQuery (filters : Filters) : Completion JsObject :=
  filter_entries filters [].

(** The [$vectorSearch] stage built by [query]. *)
Record VectorSearchStage : Type := mkVectorSearchStage {
  vs_index : string;
  vs_path : string;
  vs_queryVector : list Q;
  vs_numCandidates : Z;
  vs_limit : Z;
  vs_filter : option JsObject
}.

Definition vectorSearchStage (config : MongoVectorStoreConfig)
    (vector : list Q) (k : Z) (filters : option Filters)
  : Completion VectorSearchStage :=
  let stage f :=
    {| vs_index := indexName config;
       vs_path := "embedding";
       vs_queryVector := vector;
       vs_numCandidates := Z.max (k * 10) 100;
       vs_limit := k;
       vs_filter := f |} in
  match filters with
  | Some fs =>
      match buildFilterQuery fs with
      | Normal q => Normal (stage (Some q))
      | Throw e => Throw e
      end
  | None => Normal (stage None)
  end.

Definition delete (ids : list string) : M Mongo unit :=
  try_catch
    (deletedCount <- deleteMany_id_in ids ;;
     store_log (LogInfo "Deleted documents" deletedCount))
    (fun error =>
       store_log (LogError "Error deleting vectors:" error) ;;;
       throw error).

Definition getStats (config : MongoVectorStoreConfig) : M Mongo VectorStoreStats :=
  try_catch
    (total <- countDocuments ;;
     size <- db_stats ;;
     ret {| totalVectors := total;
            dimensions := cfg_dimensions config;
            indexSize := size |})
    (fun error =>
       store_log (LogError "Error getting stats:" error) ;;;
       throw error).

(* ===================================================================== *)
(** ** Fusion on values                                                  *)
(* ===================================================================== *)

(** [combineResults] with the references read through: the map holds the
    objects themselves.  [combineResults_values] below relates the two. *)
Definition fuse_vector (vectorWeight minScore : Q)
    (m : JsMap SearchResult) (v : SearchResult) : JsMap SearchResult :=
  if passes minScore v
  then map_set m (sr_id v) (with_score v (sr_score v * vectorWeight))
  else m.

Definition fuse_text (textWeight minScore : Q)
    (m : JsMap SearchResult) (t : SearchResult) : JsMap SearchResult :=
  if passes minScore t then
    match map_get m (sr_id t) with
    | Some e =>
        map_set m (sr_id t) (with_score e (sr_score e + sr_score t * textWeight))
    | None => map_set m (sr_id t) (with_score t (sr_score t * textWeight))
    end
  else m.

Definition fused_map (vs ts : list SearchResult) (o : FusionOptions)
  : JsMap SearchResult :=
  fold_left (fuse_text (textWeight o) (minScore o)) ts
    (fold_left (fuse_vector (vectorWeight o) (minScore o)) vs []).

Definition fused (vs ts : list SearchResult) (o : FusionOptions)
  : list SearchResult :=
  sort_by by_score_desc (map_values (fused_map vs ts o)).

(** The results of a leg that carry the id [k] and pass the gate. *)
Definition gated (minScore : Q) (k : string) (leg : list SearchResult)
  : list SearchResult :=
  List.filter (fun r => String.eqb (sr_id r) k && passes minScore r) leg.

(** What the fusion map holds under one id, followed through one leg:
    a vector-leg result replaces the entry, a text-leg result adds to the
    score of the entry or starts one. *)
Definition vector_entry (vectorWeight : Q)
    (cur : option SearchResult) (v : SearchResult) : option SearchResult :=
  Some (with_score v (sr_score v * vectorWeight)).

Definition text_entry (textWeight : Q)
    (cur : option SearchResult) (t : SearchResult) : option SearchResult :=
  match cur with
  | Some e => Some (with_score e (sr_score e + sr_score t * textWeight))
  | None => Some (with_score t (sr_score t * textWeight))
  end.

(** Each key of the fusion map is the id of the object stored under it. *)
Definition keyed_by_id (m : JsMap SearchResult) : Prop :=
  Forall (fun kv => sr_id (snd kv) = fst kv) m.

(** Every field but [score]. *)
Definition same_fields_but_score (a b : SearchResult) : Prop :=
  sr_id a = sr_id b /\ sr_content a = sr_content b /\
  sr_videoId a = sr_videoId b /\ sr_videoTitle a = sr_videoTitle b /\
  sr_timestamp a = sr_timestamp b /\ sr_url a = sr_url b /\
  sr_playlistId a = sr_playlistId b /\ sr_publishedAt a = sr_publishedAt b.

(** Descending by score. *)
Definition score_ge (a b : SearchResult) : Prop := (sr_score b <= sr_score a)%Q.

(* ===================================================================== *)
(** ** References and the objects behind them                            *)
(* ===================================================================== *)

(** The array [arr] refers to the objects [os] of the heap [h]. *)
Definition refs (h : list SearchResult) (arr : list addr)
    (os : list SearchResult) : Prop :=
  Forall2 (fun a o => h !! a = Some o) arr os.

(** The map of references [m] reads as the map of objects [pm]: same keys in
    the same order, each reference allocated at or after [base], no object
    referred to twice. *)
Definition map_refs (base : nat) (h : list SearchResult)
    (m : ResultMap) (pm : JsMap SearchResult) : Prop :=
  Forall2 (fun ka kv => fst ka = fst kv /\ h !! snd ka = Some (snd kv)
                        /\ (base <= snd ka)%nat) m pm
  /\ NoDup (map snd m).

(** Nothing was dispatched or logged between the two worlds. *)
Definition same_log (w w' : World) : Prop :=
  io w' = io w /\ console w' = console w.

(** The objects behind an array of references; [None] if one dangles. *)
Fixpoint objects (h : list SearchResult) (arr : list addr)
  : option (list SearchResult) :=
  match arr with
  | [] => Some []
  | a :: arr' =>
      match h !! a, objects h arr' with
      | Some o, Some os => Some (o :: os)
      | _, _ => None
      end
  end.

(* ===================================================================== *)
(** ** Observing a result of [search]                                    *)
(* ===================================================================== *)

(** A [HybridSearchResult] as the caller reads it. *)
Record SearchView : Type := mkSearchView {
  view_vector : list SearchResult;
  view_text : list SearchResult;
  view_combined : list SearchResult
}.

Definition view (w : World) (r : HybridSearchResult) : option SearchView :=
  match objects (heap w) (vectorResults r),
        objects (heap w) (textResults r),
        objects (heap w) (combinedResults r) with
  | Some vs, Some ts, Some cs => Some (mkSearchView vs ts cs)
  | _, _, _ => None
  end.

(** What the collaborators hand to each leg. *)
Definition embedding_request (model query : string) : EmbeddingRequest :=
  {| er_model := model; er_input := OneText query;
     er_encoding_format := "float" |}.

Definition query_embedding (env : Collaborators) (model query : string)
  : Completion (list Q) :=
  match embeddings_create env (embedding_request model query) with
  | Normal data => first_embedding data
  | Throw e => Throw e
  end.

Definition vector_leg (env : Collaborators) (model query : string)
    (topK : Z) (filters : option Filters) : Completion (list SearchResult) :=
  match query_embedding env model query with
  | Normal e =>
      match vectorStore_query env e topK filters with
      | Normal results => Normal (map of_query_result results)
      | Throw err => Throw err
      end
  | Throw err => Throw err
  end.

Definition text_leg (env : Collaborators) (query : string)
    (topK : Z) (filters : option Filters) : Completion (list SearchResult) :=
  textSearch_searchText env query topK filters.

Definition or_empty {A} (c : Completion (list A)) : list A :=
  match c with Normal l => l | Throw _ => [] end.

Definition raises {A} (c : Completion A) : Prop :=
  match c with Normal _ => False | Throw _ => True end.

(** The calls dispatched by the vector leg. *)
Definition vector_io (env : Collaborators) (model query : string)
    (topK : Z) (filters : option Filters) : list IoCall :=
  IoEmbeddingsCreate (embedding_request model query)
  :: match query_embedding env model query with
     | Normal e => [IoVectorQuery e topK filters]
     | Throw _ => []
     end.

(** The calls a [search] dispatches. *)
Definition search_io (env : Collaborators) (model query : string)
    (topK : Z) (filters : option Filters) : list IoCall :=
  vector_io env model query topK filters ++ [IoSearchText query topK filters].

(** What the caller of [search] reads, computed from what the collaborators
    return. *)
Definition search_view (env : Collaborators) (model query : string)
    (topK : Z) (filters : option Filters) (o : FusionOptions) : SearchView :=
  let vs := or_empty (vector_leg env model query topK filters) in
  let ts := or_empty (text_leg env query topK filters) in
  {| view_vector := vs;
     view_text := ts;
     view_combined := slice0 (fused vs ts o) topK |}.

(** The collaborators with every result of native score below [minScore]
    removed from what the two backends return. *)
Definition without_low_scores (minScore : Q) (env : Collaborators)
  : Collaborators :=
  {| embeddings_create := embeddings_create env;
     vectorStore_query := fun e k f =>
       match vectorStore_query env e k f with
       | Normal rs =>
           Normal (List.filter (fun r => Qle_bool minScore (qr_score r)) rs)
       | Throw err => Throw err
       end;
     textSearch_searchText := fun q k f =>
       match textSearch_searchText env q k f with
       | Normal rs => Normal (List.filter (passes minScore) rs)
       | Throw err => Throw err
       end |}.

(** The collaborators with a lexical search that finds nothing. *)
Definition with_empty_text (env : Collaborators) : Collaborators :=
  {| embeddings_create := embeddings_create env;
     vectorStore_query := vectorStore_query env;
     textSearch_searchText := fun _ _ _ => Normal [] |}.

(** The collaborators with a vector store that finds nothing. *)
Definition with_empty_vector (env : Collaborators) : Collaborators :=
  {| embeddings_create := embeddings_create env;
     vectorStore_query := fun _ _ _ => Normal [];
     textSearch_searchText := textSearch_searchText env |}.

(* ===================================================================== *)
(** ** Concrete runs of [search]                                         *)
(* ===================================================================== *)

Definition plain (i : string) (s : Q) : SearchResult :=
  {| sr_id := i; sr_content := JStr ""; sr_score := s;
     sr_videoId := JUndefined; sr_videoTitle := JUndefined;
     sr_timestamp := JUndefined; sr_url := JUndefined;
     sr_playlistId := JUndefined; sr_publishedAt := JUndefined |}.

Definition hit (i : string) (s : Q) : QueryResult :=
  {| qr_id := i; qr_score := s; qr_metadata := [] |}.

Definition empty_world : World := {| heap := []; io := []; console := [] |}.

Definition embedding_model : string := "text-embedding-3-small".

(** The example of the specification: the vector leg returns a (0.9) and
    b (0.6), the text leg returns b (0.8) and c (0.7). *)
Definition env_example : Collaborators :=
  {| embeddings_create := fun _ => Normal [[1%Q; 0%Q]];
     vectorStore_query := fun _ _ _ => Normal [hit "a" (9 # 10); hit "b" (6 # 10)];
     textSearch_searchText :=
       fun _ _ _ => Normal [plain "b" (8 # 10); plain "c" (7 # 10)] |}.

(** A lexical search that returns the id "a" twice. *)
Definition env_twice : Collaborators :=
  {| embeddings_create := fun _ => Normal [[1%Q; 0%Q]];
     vectorStore_query := fun _ _ _ => Normal [hit "a" 1];
     textSearch_searchText := fun _ _ _ => Normal [plain "a" 1; plain "a" 1] |}.

(** A lexical search that is down. *)
Definition env_text_down : Collaborators :=
  {| embeddings_create := fun _ => Normal [[1%Q; 0%Q]];
     vectorStore_query := fun _ _ _ => Normal [hit "a" (9 # 10); hit "b" (6 # 10)];
     textSearch_searchText := fun _ _ _ => Throw (BackendError "text index") |}.

(** A vector store that is down. *)
Definition env_vector_down : Collaborators :=
  {| embeddings_create := fun _ => Normal [[1%Q; 0%Q]];
     vectorStore_query := fun _ _ _ => Throw (BackendError "vector index");
     textSearch_searchText :=
       fun _ _ _ => Normal [plain "b" (8 # 10); plain "c" (7 # 10)] |}.

(** Both legs return the id "a", with different fields. *)
Definition env_fields : Collaborators :=
  {| embeddings_create := fun _ => Normal [[1%Q; 0%Q]];
     vectorStore_query := fun _ _ _ =>
       Normal [ {| qr_id := "a"; qr_score := 1;
                   qr_metadata := [("content", JStr "from the vector index");
                                   ("videoId", JStr "v1")] |} ];
     textSearch_searchText := fun _ _ _ =>
       Normal [ {| sr_id := "a"; sr_content := JStr "from the text index";
                   sr_score := 1; sr_videoId := JStr "v2";
                   sr_videoTitle := JUndefined; sr_timestamp := JUndefined;
                   sr_url := JUndefined; sr_playlistId := JUndefined;
                   sr_publishedAt := JUndefined |} ] |}.

(** The run of [search] on the example, with [topK = 2]. *)
Definition example_run : Completion HybridSearchResult * World :=
  search env_example embedding_model "database indexing" 2 None
    default_options empty_world.

Definition example_result : HybridSearchResult :=
  {| vectorResults := [0; 1]%nat; textResults := [2; 3]%nat;
     combinedResults := [5; 4]%nat |}.

Definition example_view : SearchView :=
  {| view_vector := [of_query_result (hit "a" (9 # 10));
                     of_query_result (hit "b" (6 # 10))];
     view_text := [plain "b" (8 # 10); plain "c" (7 # 10)];
     view_combined :=
       [plain "b" ((6 # 10) * (7 # 10) + (8 # 10) * (3 # 10));
        plain "a" ((9 # 10) * (7 # 10))] |}.

(** The example, with [topK = 10]: nothing is cut off. *)
Definition example_run_all : Completion HybridSearchResult * World :=
  search env_example embedding_model "database indexing" 10 None
    default_options empty_world.

(** An empty query with [topK = 0]. *)
Definition empty_query_run : Completion HybridSearchResult * World :=
  search env_example embedding_model "" 0 None default_options empty_world.

Definition fields_run : Completion HybridSearchResult * World :=
  search env_fields embedding_model "q" 10 None default_options empty_world.

(* ===================================================================== *)
(** ** Filter documents read as sets of predicates                       *)
(* ===================================================================== *)

(** An atomic predicate: field path, operator, operand. *)
Definition Predicate : Type := string * string * JsValue.

(** The name of a query operator. *)
Definition is_operator (k : string) : bool := String.prefix "$" k.

(** The predicates of a filter document.  MongoDB conjoins the fields of a
    filter document.  A field whose value is an object that begins with an
    operator is the conjunction of the operators of that object; any other
    value, the empty object [{}] included, is an equality with that value. *)
Definition field_predicates (field : string * JsValue) : list Predicate :=
  match snd field with
  | JObj ((k, x) :: ops) =>
      if is_operator k
      then map (fun op => (fst field, fst op, snd op)) ((k, x) :: ops)
      else [(fst field, "$eq", snd field)]
  | v => [(fst field, "$eq", v)]
  end.

Definition query_predicates (q : JsObject) : list Predicate :=
  flat_map field_predicates q.

(** The translation as the specification words it, one filter key at a
    time. *)
Definition spec_entry_predicates (entry : string * JsValue) : list Predicate :=
  let '(key, value) := entry in
  if String.eqb key "videoId" then [("metadata.videoId", "$eq", value)]
  else if String.eqb key "playlistId" then [("metadata.playlistId", "$eq", value)]
  else if String.eqb key "publishedAfter" then
    [("metadata.publishedAt", "$gte", value)]
  else if String.eqb key "publishedBefore" then
    [("metadata.publishedAt", "$lte", value)]
  else if String.eqb key "startTimeRange" then
    (if is_undefined (get_prop value "min") then []
     else [("metadata.startTime", "$gte", get_prop value "min")])
    ++ (if is_undefined (get_prop value "max") then []
        else [("metadata.startTime", "$lte", get_prop value "max")])
  else [(("metadata." ++ key)%string, "$eq", value)].

Definition spec_predicates (filters : Filters) : list Predicate :=
  flat_map spec_entry_predicates filters.

(** A document matches a filter when every predicate holds of it;
    [holds] is the database's reading of one predicate. *)
Definition matches {D} (holds : Predicate -> D -> bool)
    (ps : list Predicate) (d : D) : bool :=
  forallb (fun p => holds p d) ps.

Definition keys (o : JsObject) : list string := map fst o.

(** The field of the filter document that a filter key is written to. *)
Definition target_field (key : string) : string :=
  if String.eqb key "publishedAfter" || String.eqb key "publishedBefore"
  then "metadata.publishedAt"
  else if String.eqb key "startTimeRange" then "metadata.startTime"
  else "metadata." ++ key.

(** [buildFilterQuery] translates [filters] as the specification words
    it. *)
Definition translated (filters : Filters) : Prop :=
  exists q,
    buildFilterQuery filters = Normal q
    /\ forall p, In p (query_predicates q) <-> In p (spec_predicates filters).

(** [startTimeRange] with [min] or [max] defined. *)
Definition has_bound (range : JsValue) : bool :=
  negb (is_undefined (get_prop range "min"))
  || negb (is_undefined (get_prop range "max")).

(** The key [a] is listed before the key [b]. *)
Definition listed_before (a b : string) (filters : Filters) : Prop :=
  exists l1 va l2, filters = l1 ++ (a, va) :: l2 /\ In b (keys l2).

(** No equality on [publishedAt] is written over a bound of the date
    range. *)
Definition date_bounds_kept (filters : Filters) : Prop :=
  ~ listed_before "publishedAfter" "publishedAt" filters
  /\ ~ listed_before "publishedBefore" "publishedAt" filters.

(** [startTimeRange], when given, can be destructured, and what is written
    for it says what the specification says: a range with a bound stands
    alone on [metadata.startTime]; a range without a bound leaves the empty
    object there, which is no predicate of the specification unless a later
    [startTime] replaces it or [startTime] asks for the empty object
    itself. *)
Definition start_time_kept (filters : Filters) : Prop :=
  forall range, In ("startTimeRange", range) filters ->
    range <> JUndefined /\ range <> JNull
    /\ if has_bound range then ~ In "startTime" (keys filters)
       else listed_before "startTimeRange" "startTime" filters
            \/ In ("startTime", JObj []) filters.

(** The filter objects that [buildFilterQuery] translates as specified. *)
Definition translatable (filters : Filters) : Prop :=
  date_bounds_kept filters /\ start_time_kept filters.

(** No filter key other than the range keys themselves addresses the field
    a range key writes. *)
Definition no_field_clash (filters : Filters) : Prop :=
  ~ (In "publishedAt" (keys filters) /\
     (In "publishedAfter" (keys filters) \/ In "publishedBefore" (keys filters)))
  /\ ~ (In "startTime" (keys filters) /\ In "startTimeRange" (keys filters)).

(** [startTimeRange], when given, is not [undefined] or [null]. *)
Definition range_destructurable (filters : Filters) : Prop :=
  forall v, In ("startTimeRange", v) filters -> v <> JUndefined /\ v <> JNull.

(* ===================================================================== *)
(** ** Reading the collection                                            *)
(* ===================================================================== *)

(** [collection.findOne({ _id: i })] *)
Definition find_doc (docs : list MongoVectorDocument) (i : string)
  : option MongoVectorDocument :=
  List.find (has_id i) docs.

(** The documents a [deleteMany] over [ids] removes. *)
Definition selected (ids : list string) (docs : list MongoVectorDocument)
  : list MongoVectorDocument :=
  List.filter (id_in ids) docs.

(** The ids of [ids] that are in the collection, with their repetitions. *)
Definition existing_ids (ids : list string) (docs : list MongoVectorDocument)
  : list string :=
  List.filter (fun i => existsb (has_id i) docs) ids.

(** The documents of a batch, in order, as [bulkWrite] applies them. *)
Definition write_all (docs : list MongoVectorDocument)
    (batch : list MongoVectorDocument) : list MongoVectorDocument :=
  fold_left (fun ds d => fst (replace_one ds (to_operation d))) batch docs.

(* ===================================================================== *)
(** ** Concrete inputs for the store                                     *)
(* ===================================================================== *)

(** An index configured for three dimensions. *)
Definition config3 : MongoVectorStoreConfig :=
  {| connectionString := "mongodb://localhost";
     databaseName := "tube-rag";
     collectionName := "embeddings";
     indexName := "vector_index";
     cfg_dimensions := 3;
     similarityMetric := cosine |}.

(** A record with two values. *)
Definition short_record : VectorData :=
  {| vd_id := "chunk-1"; vd_values := [1 # 2; 1 # 4];
     vd_metadata := [("videoId", JStr "v1")] |}.

Definition empty_db : Mongo :=
  {| documents := []; reachable := true; write_fault := None;
     db_indexSize := JNum 0; store_console := [] |}.

(** A collection that holds [short_record], as stored. *)
Definition one_doc_db : Mongo :=
  {| documents := [bson_document (to_document 0 0 short_record)];
     reachable := true; write_fault := None;
     db_indexSize := JNum 0; store_console := [] |}.

(** A clock that advances by one millisecond at each reading. *)
Definition ticking (start : Z) (n : nat) : Z := (start + Z.of_nat n)%Z.

(** A date range together with an equality on the same field. *)
Definition clashing_filters : Filters :=
  [("publishedAfter", JStr "2024-01-01"); ("publishedAt", JStr "2024-06-01")].

(** The same two keys in the other order. *)
Definition equality_then_bound : Filters :=
  [("publishedAt", JStr "2024-06-01"); ("publishedAfter", JStr "2024-01-01")].

(** The filters of the retrieval layer, all at once. *)
Definition all_filters : Filters :=
  [("videoId", JStr "v1");
   ("publishedAfter", JStr "2024-01-01");
   ("publishedBefore", JStr "2024-12-31");
   ("startTimeRange", JObj [("min", JNum 10)]);
   ("channel", JStr "c1")].

(* ===================================================================== *)
(** ** The rest of the two services                                       *)
(* ===================================================================== *)



(** A document as the [$project] stage of [query] hands it back:
    [_id], [content], [metadata] and the search score. *)
Record ProjectedResult : Type := mkProjectedResult {
  pr_id : string;
  pr_content : JsValue;
  pr_metadata : JsObject;
  pr_score : Q
}.

(** [{ _id: 1, content: 1, metadata: 1, score: { $meta: 'vectorSearchScore' } }]
    applied to a stored document that the search scored [score]. *)
Definition project (d : MongoVectorDocument) (score : Q) : ProjectedResult :=
  {| pr_id := doc_id d; pr_content := doc_content d;
     pr_metadata := doc_metadata d; pr_score := score |}.

(** The object literal built by the callback of [results.map] in [query]. *)
Definition to_query_result (result : ProjectedResult) : QueryResult :=
  {| qr_id := pr_id result;
     qr_score := pr_score result;
     qr_metadata := obj_set (pr_metadata result) "content" (pr_content result) |}.

(** [collection.aggregate(pipeline).toArray()] for the two-stage pipeline of
    [query]; [engine] is the vector search of the deployment. *)
Definition aggregate
    (engine : VectorSearchStage -> list MongoVectorDocument
              -> Completion (list ProjectedResult))
    (stage : VectorSearchStage) : M Mongo (list ProjectedResult) :=
  fun db =>
    if reachable db then (engine stage (documents db), db)
    else (Throw (BackendError "aggregate"), db).

(** [query]: the pipeline is built before the [try]. *)
Definition query
    (engine : VectorSearchStage -> list MongoVectorDocument
              -> Completion (list ProjectedResult))
    (config : MongoVectorStoreConfig)
    (vector : list Q) (k : Z) (filters : option Filters)
  : M Mongo (list QueryResult) :=
  stage <- lift (vectorSearchStage config vector k filters) ;;
  try_catch
    (results <- aggregate engine stage ;;
     ret (map to_query_result results))
    (fun error =>
       store_log (LogError "Error querying vectors:" error) ;;;
       throw error).

(* ===================================================================== *)
(** ** Notions used by the further properties                             *)
(* ===================================================================== *)

(** A leg result as it enters the fusion map. *)
Definition weighted (weight : Q) (r : SearchResult) : SearchResult :=
  with_score r (sr_score r * weight).

(** The results whose score equals [s]. *)
Definition with_score_of (s : Q) (l : list SearchResult) : list SearchResult :=
  List.filter (fun x => Qeq_bool (sr_score x) s) l.

(** The ids of a batch that are not stored yet, each once, in the order in
    which they first occur. *)
Fixpoint new_ids (stored ids : list string) : list string :=
  match ids with
  | [] => []
  | i :: rest =>
      if existsb (String.eqb i) stored then new_ids stored rest
      else i :: new_ids (i :: stored) rest
  end.

(** The operators [buildFilterQuery] writes. *)
Definition filter_operators : list string := ["$eq"; "$gte"; "$lte"].

(** A filter document as [buildFilterQuery] shapes it: each field is a path
    under [metadata] and holds an object of comparison operators. *)
Definition metadata_filter (q : JsObject) : Prop :=
  Forall (fun f =>
            String.prefix "metadata." (fst f) = true
            /\ exists ops, snd f = JObj ops
                 /\ Forall (fun op => In (fst op) filter_operators) ops) q.

(** [startTimeRange] is given as [undefined] or [null]. *)
Definition range_missing (filters : Filters) : Prop :=
  exists v, In ("startTimeRange", v) filters /\ (v = JUndefined \/ v = JNull).

(** What MongoDB reads in an object that holds operators only: its
    operators, or, when it is empty, an equality with the empty object. *)
Definition readings (ops : JsObject) : list (string * JsValue) :=
  match ops with
  | [] => [("$eq", JObj [])]
  | _ => ops
  end.

(** The filter documents the loop of [buildFilterQuery] builds: distinct
    fields, each an object of distinct comparison operators, empty at most on
    [metadata.startTime]. *)
Definition filter_document (q : JsObject) : Prop :=
  NoDup (keys q)
  /\ Forall (fun f =>
               exists ops, snd f = JObj ops
                 /\ NoDup (keys ops)
                 /\ Forall (fun op => In (fst op) filter_operators) ops
                 /\ (ops = [] -> fst f = "metadata.startTime")) q.

(** The predicates one pass of the loop writes: those of the specification,
    except for a [startTimeRange] without a bound. *)
Definition code_entry_predicates (entry : string * JsValue) : list Predicate :=
  if String.eqb (fst entry) "startTimeRange" && negb (has_bound (snd entry))
  then [("metadata.startTime", "$eq", JObj [])]
  else spec_entry_predicates entry.

(** The predicates one pass of the loop removes: a date bound replaces the
    bound of its kind, any other key replaces the whole field it is written
    to. *)
Definition overwrites (key : string) (p : Predicate) : Prop :=
  if String.eqb key "publishedAfter"
  then fst (fst p) = "metadata.publishedAt" /\ snd (fst p) = "$gte"
  else if String.eqb key "publishedBefore"
  then fst (fst p) = "metadata.publishedAt" /\ snd (fst p) = "$lte"
  else fst (fst p) = target_field key.

(** The error of destructuring [undefined] or [null]. *)
Definition destructure_error :=
  TypeError "Cannot destructure property 'min'".

(** *** More concrete inputs *)

(** An embedding client that is down. *)
Definition env_embedding_down : Collaborators :=
  {| embeddings_create := fun _ => Throw (BackendError "openai");
     vectorStore_query := fun _ _ _ => Normal [hit "a" (9 # 10)];
     textSearch_searchText := fun _ _ _ => Normal [plain "b" (8 # 10)] |}.

(** Two results with equal weighted scores in each leg. *)
Definition env_ties : Collaborators :=
  {| embeddings_create := fun _ => Normal [[1%Q; 0%Q]];
     vectorStore_query := fun _ _ _ => Normal [hit "a" (6 # 10); hit "b" (6 # 10)];
     textSearch_searchText :=
       fun _ _ _ => Normal [plain "c" (14 # 10); plain "d" (1 # 10)] |}.

(** A second record, and a record that replaces [short_record]. *)
Definition other_record : VectorData :=
  {| vd_id := "chunk-2"; vd_values := [1%Q; 0%Q; 0%Q];
     vd_metadata := [("videoId", JStr "v2"); ("content", JStr "hello");
                     ("speaker", JStr "ann")] |}.

Definition replacing_record : VectorData :=
  {| vd_id := "chunk-1"; vd_values := [0%Q; 1%Q; 0%Q];
     vd_metadata := [("videoId", JStr "v9")] |}.

(** An engine that returns every stored document with score 1. *)
Definition scan_engine (stage : VectorSearchStage)
    (docs : list MongoVectorDocument) : Completion (list ProjectedResult) :=
  Normal (map (fun d => project d 1) docs).

(** An engine that fails. *)
Definition failing_engine (stage : VectorSearchStage)
    (docs : list MongoVectorDocument) : Completion (list ProjectedResult) :=
  Throw (BackendError "vectorSearch").

(** The lines the vector leg writes with [console.error]: a failed embedding
    is reported by [generateEmbedding] and again by [performVectorSearch], a
    failed vector query once. *)
Definition vector_log (env : Collaborators) (model query : string)
    (topK : Z) (filters : option Filters) : list LogLine :=
  match query_embedding env model query with
  | Throw e =>
      [mkLogLine "Error generating embedding:" e;
       mkLogLine "Error performing vector search:" e]
  | Normal emb =>
      match vectorStore_query env emb topK filters with
      | Throw e => [mkLogLine "Error performing vector search:" e]
      | Normal _ => []
      end
  end.

(** The line the text leg writes. *)
Definition text_log (env : Collaborators) (query : string)
    (topK : Z) (filters : option Filters) : list LogLine :=
  match textSearch_searchText env query topK filters with
  | Throw e => [mkLogLine "Error performing text search:" e]
  | Normal _ => []
  end.

(** The metadata fields that [upsert] always writes. *)
Definition well_known_fields : list string :=
  ["videoId"; "playlistId"; "title"; "publishedAt"; "startTime"; "url"].

(** The [SearchResult] that a stored record comes back as: its fields as
    the driver wrote them. *)
Definition result_of_record (v : VectorData) (score : Q) : SearchResult :=
  let md := vd_metadata v in
  {| sr_id := vd_id v;
     sr_content := js_or (bson_value (obj_get md "content")) (JStr "");
     sr_score := score;
     sr_videoId := bson_value (obj_get md "videoId");
     sr_videoTitle := bson_value (obj_get md "title");
     sr_timestamp := bson_value (obj_get md "startTime");
     sr_url := bson_value (obj_get md "url");
     sr_playlistId := bson_value (obj_get md "playlistId");
     sr_publishedAt := bson_value (obj_get md "publishedAt") |}.

(* ===================================================================== *)
(** * Properties                                                          *)
(* ===================================================================== *)

(** ** Strings *)

Lemma eqb_eq_true (a b : string) : String.eqb a b = true <-> a = b.
Proof. apply String.eqb_eq. Qed.

Lemma eqb_eq_false (a b : string) : String.eqb a b = false <-> a <> b.
Proof. apply String.eqb_neq. Qed.

Ltac case_eqb a b :=
  let E := fresh "E" in
  destruct (String.eqb a b) eqn:E;
  [apply eqb_eq_true in E | apply eqb_eq_false in E].

(** ** [Map] *)

Section MapFacts.

Context {V : Type}.
Implicit Types (m : JsMap V) (k : string) (v : V).

Lemma map_get_set_eq m k v : map_get (map_set m k v) k = Some v.
Proof.
  induction m as [|[k' v'] m IH]; simpl.
  - by rewrite String.eqb_refl.
  - case_eqb k k'; simpl.
    + by rewrite String.eqb_refl.
    + apply eqb_eq_false in E. by rewrite E.
Qed.

Lemma map_get_set_ne m k k' v :
  k <> k' -> map_get (map_set m k v) k' = map_get m k'.
Proof.
  intros Hne. induction m as [|[k0 v0] m IH]; simpl.
  - assert (String.eqb k' k = false) as -> by (apply eqb_eq_false; congruence).
    done.
  - case_eqb k k0; simpl.
    + subst k0.
      assert (String.eqb k' k = false) as -> by (apply eqb_eq_false; congruence).
      done.
    + by rewrite IH.
Qed.

Lemma map_get_In m k v : map_get m k = Some v -> In (k, v) m.
Proof.
  induction m as [|[k' v'] m IH]; simpl; [done|].
  case_eqb k k'.
  - intros [= ->]. subst. by left.
  - intros H. right. by apply IH.
Qed.

Lemma map_get_None m k : map_get m k = None <-> ~ In k (map fst m).
Proof.
  induction m as [|[k' v'] m IH]; simpl.
  - tauto.
  - case_eqb k k'.
    + split; [done|]. intros H. exfalso. apply H. by left.
    + rewrite IH. split; [|tauto]. intros H [H'|H']; [congruence|tauto].
Qed.

Lemma In_map_get m k v :
  NoDup (map fst m) -> In (k, v) m -> map_get m k = Some v.
Proof.
  induction m as [|[k' v'] m IH]; simpl; [done|].
  intros Hnd [Hin|Hin].
  - injection Hin as -> ->. by rewrite String.eqb_refl.
  - apply NoDup_cons in Hnd as [Hk Hnd].
    case_eqb k k'.
    + subst k'. exfalso. apply Hk. apply list_elem_of_In.
      change k with (fst (k, v)). by apply in_map.
    + by apply IH.
Qed.

Lemma map_set_keys m k v :
  map fst (map_set m k v)
  = match map_get m k with
    | Some _ => map fst m
    | None => map fst m ++ [k]
    end.
Proof.
  induction m as [|[k' v'] m IH]; simpl; [done|].
  case_eqb k k'; simpl.
  - by subst.
  - rewrite IH. by destruct (map_get m k).
Qed.

Lemma map_set_NoDup m k v :
  NoDup (map fst m) -> NoDup (map fst (map_set m k v)).
Proof.
  intros Hnd. rewrite map_set_keys.
  destruct (map_get m k) eqn:E; [done|].
  apply map_get_None in E.
  apply NoDup_app. split_and!; [done| |apply NoDup_singleton].
  intros x Hx Hx'. apply list_elem_of_In in Hx.
  apply list_elem_of_singleton in Hx'. by subst.
Qed.

Lemma map_set_In m k v k' v' :
  In (k', v') (map_set m k v) -> (k' = k /\ v' = v) \/ In (k', v') m.
Proof.
  induction m as [|[k0 v0] m IH]; simpl.
  - intros [[= <- <-]|[]]. by left.
  - case_eqb k k0; simpl.
    + intros [[= <- <-]|H]; [by left|]. right. by right.
    + intros [H|H]; [right; by left|].
      destruct (IH H) as [?|?]; [by left|right; by right].
Qed.

End MapFacts.

(** ** [Array.prototype.sort] *)

Lemma positive_spec (v : Q) : positive v = true <-> (0 < v)%Q.
Proof.
  unfold positive. rewrite negb_true_iff, <- not_true_iff_false, Qle_bool_iff.
  split; [apply Qnot_le_lt | apply Qlt_not_le].
Qed.

Section SortFacts.

Context {A : Type} (cmp : A -> A -> Q).

Lemma insert_by_Permutation x (l : list A) : insert_by cmp x l ≡ₚ x :: l.
Proof.
  induction l as [|y l IH]; simpl; [done|].
  destruct (positive (cmp x y)); [|done].
  rewrite IH. apply Permutation_swap.
Qed.

Lemma sort_by_Permutation (l : list A) : sort_by cmp l ≡ₚ l.
Proof.
  induction l as [|x l IH]; simpl; [done|].
  by rewrite insert_by_Permutation, IH.
Qed.

Lemma sort_by_In x (l : list A) : In x (sort_by cmp l) <-> In x l.
Proof.
  rewrite <- !list_elem_of_In. by rewrite sort_by_Permutation.
Qed.

Lemma sort_by_length (l : list A) : length (sort_by cmp l) = length l.
Proof. by rewrite sort_by_Permutation. Qed.

(** Sorting an array of pairs by a comparator on one component sorts that
    component. *)
Lemma insert_by_map {B} (f : B -> A) x (l : list B) :
  map f (insert_by (fun p q => cmp (f p) (f q)) x l)
  = insert_by cmp (f x) (map f l).
Proof.
  induction l as [|y l IH]; simpl; [done|].
  destruct (positive (cmp (f x) (f y))); simpl; [by rewrite IH|done].
Qed.

Lemma sort_by_map {B} (f : B -> A) (l : list B) :
  map f (sort_by (fun p q => cmp (f p) (f q)) l) = sort_by cmp (map f l).
Proof.
  induction l as [|x l IH]; simpl; [done|].
  by rewrite insert_by_map, IH.
Qed.

End SortFacts.

Lemma score_ge_trans a b c : score_ge a b -> score_ge b c -> score_ge a c.
Proof. unfold score_ge. intros H1 H2. by apply Qle_trans with (sr_score b). Qed.

Lemma by_score_desc_positive a b :
  positive (by_score_desc a b) = true <-> (sr_score a < sr_score b)%Q.
Proof.
  rewrite positive_spec. unfold by_score_desc.
  rewrite (Qlt_minus_iff (sr_score a) (sr_score b)). reflexivity.
Qed.

Lemma insert_by_score_sorted x l :
  StronglySorted score_ge l ->
  StronglySorted score_ge (insert_by by_score_desc x l).
Proof.
  induction 1 as [|y l Hl IH Hy]; simpl.
  - repeat constructor.
  - destruct (positive (by_score_desc x y)) eqn:E.
    + apply by_score_desc_positive in E.
      constructor; [done|].
      apply Forall_forall. intros z Hz.
      apply list_elem_of_In in Hz.
      apply (Permutation_in _ (insert_by_Permutation by_score_desc x l)) in Hz.
      destruct Hz as [<-|Hz].
      * unfold score_ge. by apply Qlt_le_weak.
      * rewrite Forall_forall in Hy. apply Hy. by apply list_elem_of_In.
    + assert (score_ge x y) as Hxy.
      { unfold score_ge. apply Qnot_lt_le. intros Hlt.
        apply by_score_desc_positive in Hlt. congruence. }
      constructor; [by constructor|].
      constructor; [done|].
      eapply Forall_impl; [exact Hy|]. intros z Hz.
      by apply score_ge_trans with y.
Qed.

Lemma sort_by_score_sorted l :
  StronglySorted score_ge (sort_by by_score_desc l).
Proof.
  induction l as [|x l IH]; simpl; [constructor|].
  by apply insert_by_score_sorted.
Qed.

(** ** [slice(0, end)] *)

Lemma slice0_take {A} (l : list A) (e : Z) :
  exists n, slice0 l e = take n l.
Proof. unfold slice0. eauto. Qed.

Lemma slice0_In {A} (l : list A) e x : In x (slice0 l e) -> In x l.
Proof.
  destruct (slice0_take l e) as [n ->]. rewrite <- !list_elem_of_In.
  apply subseteq_take.
Qed.

Lemma slice0_length {A} (l : list A) (e : Z) :
  (0 <= e)%Z -> (Z.of_nat (length (slice0 l e)) <= e)%Z.
Proof.
  intros He. unfold slice0.
  assert ((e <? 0)%Z = false) as -> by lia.
  rewrite length_take. lia.
Qed.

Lemma slice0_all {A} (l : list A) (e : Z) :
  (Z.of_nat (length l) <= e)%Z -> slice0 l e = l.
Proof.
  intros He. unfold slice0.
  assert ((e <? 0)%Z = false) as -> by lia.
  apply take_ge. lia.
Qed.

Lemma StronglySorted_take_keep {A} (R : A -> A -> Prop) n (l : list A) :
  StronglySorted R l -> StronglySorted R (take n l).
Proof.
  intros H. revert n. induction H as [|x l Hl IH Hx]; intros [|n]; simpl;
    try constructor.
  - apply IH.
  - apply Forall_take. exact Hx.
Qed.

Lemma slice0_sorted {A} (R : A -> A -> Prop) (l : list A) e :
  StronglySorted R l -> StronglySorted R (slice0 l e).
Proof.
  destruct (slice0_take l e) as [n ->]. apply StronglySorted_take_keep.
Qed.

(** ** Fusion on values *)

Section FusionFacts.

Context (vw tw ms : Q).

Lemma gated_cons k r leg :
  gated ms k (r :: leg)
  = if String.eqb (sr_id r) k && passes ms r then r :: gated ms k leg
    else gated ms k leg.
Proof. reflexivity. Qed.

Lemma gated_In k r leg :
  In r (gated ms k leg) <-> In r leg /\ sr_id r = k /\ passes ms r = true.
Proof.
  unfold gated. rewrite filter_In, andb_true_iff, eqb_eq_true. tauto.
Qed.

Lemma get_fold_vector k vs m :
  map_get (fold_left (fuse_vector vw ms) vs m) k
  = fold_left (vector_entry vw) (gated ms k vs) (map_get m k).
Proof.
  revert m. induction vs as [|v vs IH]; intros m; [done|].
  rewrite gated_cons. cbn [fold_left]. rewrite IH. unfold fuse_vector.
  destruct (passes ms v); rewrite ?andb_false_r; [|done].
  rewrite andb_true_r. case_eqb (sr_id v) k; simpl.
  - subst k. by rewrite map_get_set_eq.
  - by rewrite map_get_set_ne.
Qed.

Lemma get_fold_text k ts m :
  map_get (fold_left (fuse_text tw ms) ts m) k
  = fold_left (text_entry tw) (gated ms k ts) (map_get m k).
Proof.
  revert m. induction ts as [|t ts IH]; intros m; [done|].
  rewrite gated_cons. cbn [fold_left]. rewrite IH. unfold fuse_text.
  destruct (passes ms t); rewrite ?andb_false_r; [|done].
  rewrite andb_true_r. case_eqb (sr_id t) k; simpl.
  - subst k. unfold text_entry.
    destruct (map_get m (sr_id t)); by rewrite map_get_set_eq.
  - destruct (map_get m (sr_id t)); by rewrite map_get_set_ne.
Qed.

Lemma keyed_by_id_set m r s :
  keyed_by_id m -> keyed_by_id (map_set m (sr_id r) (with_score r s)).
Proof.
  unfold keyed_by_id. intros H. apply Forall_forall. intros [k c] Hin.
  apply list_elem_of_In, map_set_In in Hin as [[-> ->]|Hin]; [done|].
  rewrite Forall_forall in H. by apply (H (k, c)), list_elem_of_In.
Qed.

Lemma fuse_vector_inv m v :
  keyed_by_id m /\ NoDup (map fst m) ->
  keyed_by_id (fuse_vector vw ms m v) /\ NoDup (map fst (fuse_vector vw ms m v)).
Proof.
  intros [Hk Hn]. unfold fuse_vector. destruct (passes ms v); [|done].
  split; [by apply keyed_by_id_set | by apply map_set_NoDup].
Qed.

Lemma fuse_text_inv m t :
  keyed_by_id m /\ NoDup (map fst m) ->
  keyed_by_id (fuse_text tw ms m t) /\ NoDup (map fst (fuse_text tw ms m t)).
Proof.
  intros [Hk Hn]. unfold fuse_text. destruct (passes ms t); [|done].
  destruct (map_get m (sr_id t)) as [e|] eqn:E.
  - split; [|by apply map_set_NoDup].
    assert (sr_id e = sr_id t) as <-.
    { apply map_get_In in E. unfold keyed_by_id in Hk.
      rewrite Forall_forall in Hk.
      by apply (Hk (sr_id t, e)), list_elem_of_In. }
    by apply keyed_by_id_set.
  - split; [by apply keyed_by_id_set | by apply map_set_NoDup].
Qed.

Lemma fold_inv {A} (f : JsMap SearchResult -> A -> JsMap SearchResult)
    (P : JsMap SearchResult -> Prop) l m :
  (forall m x, P m -> P (f m x)) -> P m -> P (fold_left f l m).
Proof.
  intros Hf. revert m. induction l as [|x l IH]; simpl; intros m Hm; [done|].
  apply IH. by apply Hf.
Qed.

Lemma fold_vector_filter vs m :
  fold_left (fuse_vector vw ms) (List.filter (passes ms) vs) m
  = fold_left (fuse_vector vw ms) vs m.
Proof.
  revert m. induction vs as [|v vs IH]; intros m; simpl; [done|].
  destruct (passes ms v) eqn:E; simpl; [done|].
  rewrite IH. unfold fuse_vector at 3. by rewrite E.
Qed.

Lemma fold_text_filter ts m :
  fold_left (fuse_text tw ms) (List.filter (passes ms) ts) m
  = fold_left (fuse_text tw ms) ts m.
Proof.
  revert m. induction ts as [|t ts IH]; intros m; simpl; [done|].
  destruct (passes ms t) eqn:E; simpl; [done|].
  rewrite IH. unfold fuse_text at 3. by rewrite E.
Qed.

Lemma fold_vector_entry_last l cur :
  fold_left (vector_entry vw) l cur
  = match last l with
    | Some v => Some (with_score v (sr_score v * vw))
    | None => cur
    end.
Proof.
  revert cur. induction l as [|v l IH]; intros cur; simpl; [done|].
  rewrite IH. destruct l as [|v' l]; [done|].
  change (last (v :: v' :: l)) with (last (v' :: l)).
  destruct (last (v' :: l)) eqn:E; [done|].
  by apply last_None in E.
Qed.

Lemma fold_text_entry_Some l e :
  exists s, fold_left (text_entry tw) l (Some e) = Some (with_score e s).
Proof.
  revert e. induction l as [|t l IH]; intros e; simpl.
  - exists (sr_score e). by destruct e.
  - destruct (IH (with_score e (sr_score e + sr_score t * tw))) as [s ->].
    by exists s.
Qed.

Lemma fold_text_entry_nonempty l cur :
  l <> [] -> is_Some (fold_left (text_entry tw) l cur).
Proof.
  destruct l as [|t l]; [done|]. intros _. simpl.
  destruct cur as [e|]; simpl.
  - destruct (fold_text_entry_Some l (with_score e (sr_score e + sr_score t * tw)))
      as [s ->]. eauto.
  - destruct (fold_text_entry_Some l (with_score t (sr_score t * tw)))
      as [s ->]. eauto.
Qed.

End FusionFacts.

Lemma fused_map_inv vs ts o :
  keyed_by_id (fused_map vs ts o) /\ NoDup (map fst (fused_map vs ts o)).
Proof.
  unfold fused_map.
  apply (fold_inv _ (fun m => keyed_by_id m /\ NoDup (map fst m))).
  { intros m x. apply fuse_text_inv. }
  apply (fold_inv _ (fun m => keyed_by_id m /\ NoDup (map fst m))).
  { intros m x. apply fuse_vector_inv. }
  split; constructor.
Qed.

(** The entry stored under [k] after fusion. *)
Lemma fused_map_get vs ts o k :
  map_get (fused_map vs ts o) k
  = fold_left (text_entry (textWeight o)) (gated (minScore o) k ts)
      (fold_left (vector_entry (vectorWeight o)) (gated (minScore o) k vs) None).
Proof. unfold fused_map. by rewrite get_fold_text, get_fold_vector. Qed.

Lemma fused_In vs ts o c :
  In c (fused vs ts o) <-> map_get (fused_map vs ts o) (sr_id c) = Some c.
Proof.
  unfold fused, map_values. rewrite sort_by_In.
  destruct (fused_map_inv vs ts o) as [Hk Hn]. split.
  - intros Hin. apply in_map_iff in Hin as [[k c'] [Hc Hin]]. simpl in Hc. subst c'.
    unfold keyed_by_id in Hk. rewrite Forall_forall in Hk.
    pose proof (Hk (k, c) (proj2 (list_elem_of_In _ _) Hin)) as Hid. simpl in Hid.
    rewrite Hid. by apply In_map_get.
  - intros Hget. apply map_get_In in Hget.
    change c with (snd (sr_id c, c)). by apply in_map.
Qed.

Lemma fused_filter vs ts o :
  fused (List.filter (passes (minScore o)) vs)
        (List.filter (passes (minScore o)) ts) o
  = fused vs ts o.
Proof.
  unfold fused, fused_map. by rewrite fold_text_filter, fold_vector_filter.
Qed.

Lemma fused_sorted vs ts o : StronglySorted score_ge (fused vs ts o).
Proof. apply sort_by_score_sorted. Qed.

Lemma fused_length vs ts o :
  (length (fused vs ts o) <= length vs + length ts)%nat.
Proof.
  unfold fused, map_values. rewrite sort_by_length, length_map.
  unfold fused_map.
  assert (forall ts m, (length (fold_left (fuse_text (textWeight o) (minScore o)) ts m)
                        <= length m + length ts)%nat) as Ht.
  { clear. induction ts as [|t ts IH]; intros m; simpl; [lia|].
    etransitivity; [apply IH|].
    assert (length (fuse_text (textWeight o) (minScore o) m t) <= S (length m))%nat;
      [|lia].
    unfold fuse_text. destruct (passes _ t); [|lia].
    assert (forall k v, length (map_set m k v) <= S (length m))%nat as Hs.
    { intros k v. rewrite <- (length_map fst (map_set m k v)), map_set_keys.
      destruct (map_get m k); rewrite ?length_app, length_map; simpl; lia. }
    destruct (map_get m (sr_id t)); apply Hs. }
  assert (forall vs m, (length (fold_left (fuse_vector (vectorWeight o) (minScore o)) vs m)
                        <= length m + length vs)%nat) as Hv.
  { clear. induction vs as [|v vs IH]; intros m; simpl; [lia|].
    etransitivity; [apply IH|].
    assert (length (fuse_vector (vectorWeight o) (minScore o) m v) <= S (length m))%nat;
      [|lia].
    unfold fuse_vector. destruct (passes _ v); [|lia].
    rewrite <- (length_map fst (map_set m _ _)), map_set_keys.
    destruct (map_get m _); rewrite ?length_app, length_map; simpl; lia. }
  etransitivity; [apply Ht|]. specialize (Hv vs []). simpl in Hv. lia.
Qed.

(** ** The heap: [combineResults] computes the fusion on values *)

Lemma objects_refs h arr os : objects h arr = Some os <-> refs h arr os.
Proof.
  unfold refs. revert os. induction arr as [|a arr IH]; intros os; simpl.
  - split.
    + intros [= <-]. constructor.
    + intros H. by inversion H.
  - destruct (h !! a) as [o|] eqn:Ea.
    + destruct (objects h arr) as [os'|] eqn:Eo.
      * split.
        -- intros [= <-]. constructor; [done|]. by apply IH.
        -- intros H. inversion H as [|? o' ? os'' Ho Hos]; subst.
           apply IH in Hos. congruence.
      * split; [done|]. intros H. inversion H as [|? o' ? os'' Ho Hos]; subst.
        apply IH in Hos. congruence.
    + split; [done|]. intros H. inversion H; congruence.
Qed.

Lemma refs_prefix h h' arr os :
  refs h arr os -> h `prefix_of` h' -> refs h' arr os.
Proof.
  unfold refs. intros H Hp. eapply Forall2_impl; [exact H|].
  intros a o Ha. simpl in Ha. by eapply prefix_lookup_Some.
Qed.

Lemma refs_slice0 h arr os e :
  refs h arr os -> refs h (slice0 arr e) (slice0 os e).
Proof.
  unfold refs. intros H. unfold slice0.
  rewrite <- (Forall2_length _ _ _ H). by apply Forall2_take.
Qed.

Section MapRefs.

Context (base : nat).
Implicit Types (h : list SearchResult) (m : ResultMap) (pm : JsMap SearchResult).
Implicit Types (a : addr) (e o : SearchResult).

Lemma map_refs_nil h : map_refs base h [] [].
Proof. split; constructor. Qed.

Lemma map_refs_mono h h' m pm :
  map_refs base h m pm -> h `prefix_of` h' -> map_refs base h' m pm.
Proof.
  intros [H Hn] Hp. split; [|done].
  eapply Forall2_impl; [exact H|].
  intros ka kv (Hk & Hl & Hb). split_and!; [done| |done].
  by eapply prefix_lookup_Some.
Qed.

Lemma map_set_values_In {V} (m : JsMap V) k v x :
  In x (map snd (map_set m k v)) -> x = v \/ In x (map snd m).
Proof.
  intros H. apply in_map_iff in H as [[k' v'] [Hx H]]. simpl in Hx. subst v'.
  apply map_set_In in H as [[_ ->]|H]; [by left|].
  right. change x with (snd (k', x)). by apply in_map.
Qed.

Lemma map_set_values_NoDup {V} (m : JsMap V) k v :
  ~ In v (map snd m) -> NoDup (map snd m) -> NoDup (map snd (map_set m k v)).
Proof.
  induction m as [|[k' v'] m IH]; simpl; intros Hv Hn.
  - apply NoDup_singleton.
  - apply NoDup_cons in Hn as [Hv' Hn]. case_eqb k k'; simpl.
    + apply NoDup_cons. split; [|done].
      rewrite list_elem_of_In. tauto.
    + apply NoDup_cons. split.
      * rewrite list_elem_of_In. intros Hin.
        apply map_set_values_In in Hin as [->|Hin]; [tauto|].
        apply Hv'. by apply list_elem_of_In.
      * apply IH; [tauto|done].
Qed.

Lemma map_refs_bound h m pm a :
  map_refs base h m pm -> In a (map snd m) -> (base <= a < length h)%nat.
Proof.
  intros [H _]. induction H as [|ka kv m pm (Hk & Hl & Hb) H IH]; simpl; [done|].
  intros [<-|Hin]; [|by apply IH].
  split; [done|]. by eapply lookup_lt_Some.
Qed.

Lemma map_refs_set_fresh h m pm k a o :
  map_refs base h m pm -> ~ In a (map snd m) -> h !! a = Some o ->
  (base <= a)%nat ->
  map_refs base h (map_set m k a) (map_set pm k o).
Proof.
  intros [H Hn] Ha Hl Hb. split; [|by apply map_set_values_NoDup].
  clear Ha Hn.
  induction H as [|[k1 a1] [k2 o2] m pm (Hk & Hl1 & Hb1) H IH]; simpl in *.
  - by repeat constructor.
  - subst k2. case_eqb k k1.
    + constructor; [|done]. by split_and!.
    + constructor; [|done]. by split_and!.
Qed.

Lemma map_refs_get h m pm k :
  map_refs base h m pm ->
  match map_get m k with
  | Some a => exists e, map_get pm k = Some e /\ h !! a = Some e
  | None => map_get pm k = None
  end.
Proof.
  intros [H _].
  induction H as [|[k1 a1] [k2 o2] m pm (Hk & Hl1 & Hb1) H IH]; simpl in *; [done|].
  subst k2. case_eqb k k1; [|done]. eauto.
Qed.

Lemma Forall2_insert_other h m pm a e :
  ~ In a (map snd m) ->
  Forall2 (fun ka kv => fst ka = fst kv /\ h !! snd ka = Some (snd kv)
                        /\ (base <= snd ka)%nat) m pm ->
  Forall2 (fun ka kv => fst ka = fst kv /\ <[a:=e]> h !! snd ka = Some (snd kv)
                        /\ (base <= snd ka)%nat) m pm.
Proof.
  intros Ha H.
  induction H as [|[k1 a1] [k2 o2] m pm (Hk & Hl1 & Hb1) H IH]; simpl in *;
    constructor.
  - split_and!; [done| |done]. simpl.
    rewrite list_lookup_insert_ne; [done|]. intros ->. tauto.
  - apply IH. tauto.
Qed.

Lemma map_refs_update h m pm k a e :
  map_refs base h m pm -> map_get m k = Some a ->
  map_refs base (<[a:=e]> h) m (map_set pm k e).
Proof.
  intros [H Hn] Hg. split; [|done].
  induction H as [|[k1 a1] [k2 o2] m pm (Hk & Hl1 & Hb1) H IH]; simpl in *; [done|].
  subst k2. apply NoDup_cons in Hn as [Ha1 Hn].
  rewrite list_elem_of_In in Ha1.
  case_eqb k k1.
  - injection Hg as ->. subst k1. constructor.
    + split_and!; [done| |done]. simpl.
      apply list_lookup_insert_eq. by eapply lookup_lt_Some.
    + by apply Forall2_insert_other.
  - constructor.
    + split_and!; [done| |done]. simpl.
      rewrite list_lookup_insert_ne; [done|]. intros ->.
      apply Ha1. apply map_get_In in Hg.
      change a1 with (snd (k, a1)). by apply in_map.
    + by apply IH.
Qed.

Lemma map_refs_values h m pm :
  map_refs base h m pm -> refs h (map_values m) (map_values pm).
Proof.
  intros [H _]. unfold refs, map_values.
  induction H as [|ka kv m pm (Hk & Hl & Hb) H IH]; simpl; constructor; done.
Qed.

End MapRefs.

Section CombineSpec.

Context (h0 : list SearchResult).
Implicit Types (w : World) (m : ResultMap) (pm : JsMap SearchResult).

Lemma same_log_refl w : same_log w w.
Proof. by split. Qed.

Lemma same_log_trans w1 w2 w3 :
  same_log w1 w2 -> same_log w2 w3 -> same_log w1 w3.
Proof. intros [? ?] [? ?]. split; congruence. Qed.

Lemma add_vector_result_values vw ms w m pm r v :
  h0 `prefix_of` heap w ->
  map_refs (length h0) (heap w) m pm ->
  h0 !! r = Some v ->
  exists m' w',
    add_vector_result vw ms m r w = (Normal m', w')
    /\ h0 `prefix_of` heap w' /\ heap w `prefix_of` heap w' /\ same_log w w'
    /\ map_refs (length h0) (heap w') m' (fuse_vector vw ms pm v).
Proof.
  intros Hp Hm Hr.
  pose proof (prefix_lookup_Some _ _ _ _ Hr Hp) as Hr'.
  unfold add_vector_result, fuse_vector, bind, read. cbv beta. rewrite Hr'.
  destruct (passes ms v).
  - unfold alloc, ret. simpl. eexists _, _. split; [reflexivity|]. simpl.
    split_and!.
    + etransitivity; [exact Hp|]. by apply prefix_app_r.
    + by apply prefix_app_r.
    + by split.
    + apply map_refs_set_fresh.
      * eapply map_refs_mono; [exact Hm|]. by apply prefix_app_r.
      * intros Hin. eapply map_refs_bound in Hin; [|exact Hm]. lia.
      * by apply list_lookup_middle.
      * by apply prefix_length.
  - unfold ret. eexists _, _. split; [reflexivity|].
    split_and!; [done|done|by split|done].
Qed.

Lemma add_text_result_values tw ms w m pm r t :
  h0 `prefix_of` heap w ->
  map_refs (length h0) (heap w) m pm ->
  h0 !! r = Some t ->
  exists m' w',
    add_text_result tw ms m r w = (Normal m', w')
    /\ h0 `prefix_of` heap w' /\ length (heap w) <= length (heap w')
    /\ same_log w w'
    /\ map_refs (length h0) (heap w') m' (fuse_text tw ms pm t).
Proof.
  intros Hp Hm Hr.
  pose proof (prefix_lookup_Some _ _ _ _ Hr Hp) as Hr'.
  unfold add_text_result, fuse_text, bind, read. cbv beta. rewrite Hr'.
  destruct (passes ms t).
  - pose proof (map_refs_get _ _ _ _ (sr_id t) Hm) as Hg.
    destruct (map_get m (sr_id t)) as [a|] eqn:Ea.
    + destruct Hg as (e & -> & Hae). rewrite Hae.
      unfold write_score. cbv beta. rewrite Hae. unfold ret. simpl.
      eexists _, _. split; [reflexivity|]. simpl.
      assert (length h0 <= a)%nat as Hb.
      { eapply map_refs_bound; [exact Hm|]. apply map_get_In in Ea.
        change a with (snd (sr_id t, a)). by apply in_map. }
      split_and!.
      * destruct Hp as [ext Hext]. rewrite Hext.
        rewrite insert_app_r_alt by done. by apply prefix_app_r.
      * by rewrite length_insert.
      * by split.
      * by apply map_refs_update.
    + rewrite Hg. unfold alloc, ret. simpl.
      eexists _, _. split; [reflexivity|]. simpl.
      split_and!.
      * etransitivity; [exact Hp|]. by apply prefix_app_r.
      * rewrite length_app. lia.
      * by split.
      * apply map_refs_set_fresh.
        -- eapply map_refs_mono; [exact Hm|]. by apply prefix_app_r.
        -- intros Hin. eapply map_refs_bound in Hin; [|exact Hm]. lia.
        -- by apply list_lookup_middle.
        -- by apply prefix_length.
  - unfold ret. eexists _, _. split; [reflexivity|].
    split_and!; [done|done|by split|done].
Qed.

Lemma forEach_values
    (step : ResultMap -> addr -> M World ResultMap)
    (pstep : JsMap SearchResult -> SearchResult -> JsMap SearchResult) :
  (forall w m pm r v,
      h0 `prefix_of` heap w -> map_refs (length h0) (heap w) m pm ->
      h0 !! r = Some v ->
      exists m' w', step m r w = (Normal m', w')
        /\ h0 `prefix_of` heap w' /\ length (heap w) <= length (heap w')
        /\ same_log w w'
        /\ map_refs (length h0) (heap w') m' (pstep pm v)) ->
  forall rs vs, refs h0 rs vs ->
  forall w m pm,
    h0 `prefix_of` heap w -> map_refs (length h0) (heap w) m pm ->
    exists m' w', forEach step rs m w = (Normal m', w')
      /\ h0 `prefix_of` heap w' /\ length (heap w) <= length (heap w')
      /\ same_log w w'
      /\ map_refs (length h0) (heap w') m' (fold_left pstep vs pm).
Proof.
  intros Hstep rs vs Hrefs.
  induction Hrefs as [|r v rs vs Hr Hrefs IH]; intros w m pm Hp Hm; simpl.
  - unfold ret. eexists _, _. split; [reflexivity|].
    split_and!; [done|done|apply same_log_refl|done].
  - destruct (Hstep w m pm r v Hp Hm Hr) as (m1 & w1 & E1 & Hp1 & Hl1 & Hs1 & Hm1).
    destruct (IH w1 m1 _ Hp1 Hm1) as (m2 & w2 & E2 & Hp2 & Hl2 & Hs2 & Hm2).
    unfold bind. rewrite E1, E2. eexists _, _. split; [reflexivity|].
    split_and!; [done|lia|by eapply same_log_trans|done].
Qed.

End CombineSpec.

Lemma mapM_read w arr os :
  refs (heap w) arr os -> mapM read arr w = (Normal os, w).
Proof.
  unfold refs. induction 1 as [|a o arr os Ha H IH]; simpl; [done|].
  unfold bind, read at 1. cbv beta. rewrite Ha, IH. done.
Qed.

Lemma refs_zip h (l : list (addr * SearchResult)) :
  Forall (fun p => h !! fst p = Some (snd p)) l ->
  refs h (map fst l) (map snd l).
Proof. unfold refs. induction 1; simpl; constructor; done. Qed.

Lemma array_sort_values cmp w arr os :
  refs (heap w) arr os ->
  array_sort cmp arr w = (Normal (map fst (sort_by (fun p q => cmp (snd p) (snd q))
                                      (zip arr os))), w)
  /\ refs (heap w)
       (map fst (sort_by (fun p q => cmp (snd p) (snd q)) (zip arr os)))
       (sort_by cmp os).
Proof.
  intros Hrefs. split.
  - unfold array_sort, bind. by rewrite (mapM_read _ _ _ Hrefs).
  - assert (sort_by cmp os
            = map snd (sort_by (fun p q => cmp (snd p) (snd q)) (zip arr os)))
      as ->.
    { rewrite (sort_by_map cmp snd).
      f_equal. symmetry. apply snd_zip.
      unfold refs in Hrefs. by rewrite (Forall2_length _ _ _ Hrefs). }
    apply refs_zip. apply Forall_forall. intros [a o] Hin.
    apply list_elem_of_In, sort_by_In in Hin. simpl.
    unfold refs in Hrefs. clear -Hrefs Hin.
    induction Hrefs as [|a' o' arr os Ha H IH]; simpl in *; [done|].
    destruct Hin as [[= -> ->]|Hin]; [done|by apply IH].
Qed.

(** [combineResults] returns references to fresh objects that read as the
    fusion of the objects behind its two arguments; the objects that existed
    before the call are as they were. *)
Lemma combineResults_values vr tr vs ts vw tw ms w :
  refs (heap w) vr vs -> refs (heap w) tr ts ->
  exists out w',
    combineResults vr tr vw tw ms w = (Normal out, w')
    /\ heap w `prefix_of` heap w' /\ same_log w w'
    /\ refs (heap w') out (fused vs ts (mkFusionOptions vw tw ms)).
Proof.
  intros Hv Ht. unfold combineResults.
  destruct (forEach_values (heap w) (add_vector_result vw ms) (fuse_vector vw ms))
    with (rs := vr) (vs := vs) (w := w) (m := @nil (string * addr))
         (pm := @nil (string * SearchResult))
    as (m1 & w1 & E1 & Hp1 & _ & Hs1 & Hm1); [|done|done|apply map_refs_nil|].
  { intros w0 m pm r v Hp Hm Hr.
    destruct (add_vector_result_values (heap w) vw ms w0 m pm r v Hp Hm Hr)
      as (m' & w' & E & Hp' & Hpp & Hs & Hm').
    exists m', w'. split_and!; try done. by apply prefix_length. }
  destruct (forEach_values (heap w) (add_text_result tw ms) (fuse_text tw ms))
    with (rs := tr) (vs := ts) (w := w1) (m := m1)
         (pm := fold_left (fuse_vector vw ms) vs [])
    as (m2 & w2 & E2 & Hp2 & _ & Hs2 & Hm2); [|done|done|done|].
  { intros w0 m pm r v Hp Hm Hr.
    by apply add_text_result_values. }
  apply map_refs_values in Hm2.
  destruct (array_sort_values by_score_desc w2 _ _ Hm2) as [E3 H3].
  unfold bind. rewrite E1, E2, E3. eexists _, _. split; [reflexivity|].
  split_and!; [done|by eapply same_log_trans|exact H3].
Qed.

(** ** The two legs and [search] *)

Lemma refs_fresh h os :
  refs (h ++ os) (seq (length h) (length os)) os.
Proof.
  unfold refs. revert h. induction os as [|o os IH]; intros h; simpl.
  - constructor.
  - constructor.
    + by apply list_lookup_middle.
    + specialize (IH (h ++ [o])).
      rewrite length_app, <- app_assoc in IH. simpl in IH.
      by rewrite Nat.add_1_r in IH.
Qed.

Lemma mapM_alloc {A} (f : A -> SearchResult) xs w :
  mapM (fun x => alloc (f x)) xs w
  = (Normal (seq (length (heap w)) (length xs)),
     {| heap := heap w ++ map f xs; io := io w; console := console w |}).
Proof.
  revert w. induction xs as [|x xs IH]; intros w; simpl.
  - unfold ret. rewrite app_nil_r. by destruct w.
  - unfold bind, alloc at 1. cbv beta. rewrite IH. unfold ret. simpl.
    rewrite length_app, <- app_assoc. simpl. by rewrite Nat.add_1_r.
Qed.

Section SearchSpec.

Context (env : Collaborators) (model : string).
Context (query : string) (topK : Z) (filters : option Filters).

Lemma performVectorSearch_values w :
  exists vr w',
    performVectorSearch env model query topK filters w = (Normal vr, w')
    /\ heap w' = heap w ++ or_empty (vector_leg env model query topK filters)
    /\ refs (heap w') vr (or_empty (vector_leg env model query topK filters))
    /\ io w' = io w ++ vector_io env model query topK filters.
Proof.
  unfold performVectorSearch, generateEmbedding, vector_leg, vector_io,
    query_embedding, embedding_request, try_catch, bind, dispatch, lift,
    console_error, throw, ret.
  cbv beta. simpl.
  destruct (embeddings_create env _) as [data|e]; simpl.
  - destruct data as [|emb data]; simpl.
    + eexists _, _. split; [reflexivity|]. simpl.
      rewrite app_nil_r. split_and!; [done|constructor|done].
    + destruct (vectorStore_query env emb topK filters) as [results|e]; simpl.
      * rewrite mapM_alloc. eexists _, _. split; [reflexivity|]. simpl.
        split_and!; [done| |by rewrite <- app_assoc].
        rewrite <- (length_map of_query_result). apply refs_fresh.
      * eexists _, _. split; [reflexivity|]. simpl.
        rewrite app_nil_r. split_and!; [done|constructor|by rewrite <- app_assoc].
  - eexists _, _. split; [reflexivity|]. simpl.
    rewrite app_nil_r. split_and!; [done|constructor|done].
Qed.

Lemma performTextSearch_values w :
  exists tr w',
    performTextSearch env query topK filters w = (Normal tr, w')
    /\ heap w' = heap w ++ or_empty (text_leg env query topK filters)
    /\ refs (heap w') tr (or_empty (text_leg env query topK filters))
    /\ io w' = io w ++ [IoSearchText query topK filters].
Proof.
  unfold performTextSearch, text_leg, try_catch, bind, dispatch, lift,
    console_error, ret.
  cbv beta. simpl.
  destruct (textSearch_searchText env query topK filters) as [results|e]; simpl.
  - rewrite (mapM_alloc (fun x => x)). eexists _, _. split; [reflexivity|]. simpl.
    rewrite map_id. split_and!; [done| |done]. apply refs_fresh.
  - eexists _, _. split; [reflexivity|]. simpl.
    rewrite app_nil_r. split_and!; [done|constructor|done].
Qed.

(** The steps of [search]. *)
Lemma search_steps (o : FusionOptions) w :
  let vs := or_empty (vector_leg env model query topK filters) in
  let ts := or_empty (text_leg env query topK filters) in
  exists vr w1 tr w2 out w3,
    performVectorSearch env model query topK filters w = (Normal vr, w1)
    /\ performTextSearch env query topK filters w1 = (Normal tr, w2)
    /\ combineResults vr tr (vectorWeight o) (textWeight o) (minScore o) w2
       = (Normal out, w3)
    /\ search env model query topK filters o w
       = (Normal {| vectorResults := vr; textResults := tr;
                    combinedResults := slice0 out topK |}, w3)
    /\ heap w2 = heap w ++ vs ++ ts
    /\ refs (heap w2) vr vs /\ refs (heap w2) tr ts
    /\ heap w2 `prefix_of` heap w3
    /\ refs (heap w3) out (fused vs ts o)
    /\ io w3 = io w ++ search_io env model query topK filters.
Proof.
  intros vs ts.
  destruct (performVectorSearch_values w) as (vr & w1 & E1 & Hh1 & Hr1 & Hio1).
  destruct (performTextSearch_values w1) as (tr & w2 & E2 & Hh2 & Hr2 & Hio2).
  fold vs in Hh1, Hr1. fold ts in Hh2, Hr2.
  assert (refs (heap w2) vr vs) as Hr1'.
  { eapply refs_prefix; [exact Hr1|]. rewrite Hh2. by apply prefix_app_r. }
  destruct (combineResults_values vr tr vs ts
              (vectorWeight o) (textWeight o) (minScore o) w2 Hr1' Hr2)
    as (out & w3 & E3 & Hp3 & [Hio3 Hc3] & Hr3).
  exists vr, w1, tr, w2, out, w3.
  split_and!.
  - done.
  - done.
  - done.
  - unfold search, bind. rewrite E1, E2, E3. done.
  - by rewrite Hh2, Hh1, <- app_assoc.
  - done.
  - done.
  - done.
  - by destruct o.
  - rewrite Hio3, Hio2, Hio1. unfold search_io. by rewrite app_assoc.
Qed.

(** [search] always returns, and what the caller reads is [search_view]. *)
Lemma search_values (o : FusionOptions) w :
  exists r w',
    search env model query topK filters o w = (Normal r, w')
    /\ view w' r = Some (search_view env model query topK filters o)
    /\ heap w `prefix_of` heap w'
    /\ io w' = io w ++ search_io env model query topK filters.
Proof.
  destruct (search_steps o w)
    as (vr & w1 & tr & w2 & out & w3 & E1 & E2 & E3 & E & Hh & Hv & Ht & Hp & Hc & Hio).
  eexists _, _. split; [exact E|]. split_and!.
  - unfold view, search_view. simpl.
    apply (refs_prefix _ _ _ _ Hv) in Hp as Hv'.
    apply (refs_prefix _ _ _ _ Ht) in Hp as Ht'.
    apply objects_refs in Hv', Ht'. rewrite Hv', Ht'.
    pose proof (refs_slice0 _ _ _ topK Hc) as Hc'.
    apply objects_refs in Hc'. by rewrite Hc'.
  - etransitivity; [|exact Hp]. rewrite Hh. by apply prefix_app_r.
  - done.
Qed.

End SearchSpec.

(* ===================================================================== *)
(** * HybridSearchService.search                                          *)
(* ===================================================================== *)

(** What the fused list holds for one id: the entry exists when some result
    with that id passes the gate in either leg; its fields other than the
    score come from the last such vector-leg result (or, without one, the
    first such text-leg result); its score is the weighted vector score plus
    one weighted term per such text-leg result. *)
Lemma fused_entry vs ts o c :
  In c (fused vs ts o) <->
  fold_left (text_entry (textWeight o)) (gated (minScore o) (sr_id c) ts)
    (fold_left (vector_entry (vectorWeight o)) (gated (minScore o) (sr_id c) vs)
       None)
  = Some c.
Proof. by rewrite fused_In, fused_map_get. Qed.

Lemma fold_text_entry_score tw l e :
  fold_left (text_entry tw) l (Some e)
  = Some (with_score e
            (fold_left (fun s t => (s + sr_score t * tw)%Q) l (sr_score e))).
Proof.
  revert e. induction l as [|t l IH]; intros e; simpl.
  - by destruct e.
  - by rewrite IH.
Qed.

Lemma view_of_search env model query topK filters o w r w' sv :
  search env model query topK filters o w = (Normal r, w') ->
  view w' r = Some sv ->
  sv = search_view env model query topK filters o.
Proof.
  intros E Hv.
  destruct (search_values env model query topK filters o w)
    as (r0 & w0 & E0 & Hv0 & _).
  congruence.
Qed.

(** C1, as amended.  When the id [k] passes the gate exactly once in the
    vector leg (result [v]) and exactly once in the text leg (result [t]),
    every entry of [combinedResults] with that id has the score
    [v.score * vectorWeight + t.score * textWeight]. *)
Theorem C1_overlap_accumulates
    env model query topK filters o w r w' sv k v t c :
  search env model query topK filters o w = (Normal r, w') ->
  view w' r = Some sv ->
  gated (minScore o) k (view_vector sv) = [v] ->
  gated (minScore o) k (view_text sv) = [t] ->
  In c (view_combined sv) -> sr_id c = k ->
  sr_score c = (sr_score v * vectorWeight o + sr_score t * textWeight o)%Q.
Proof.
  intros E Hview Hv Ht Hc Hk.
  rewrite (view_of_search _ _ _ _ _ _ _ _ _ _ E Hview) in Hv, Ht, Hc.
  unfold search_view in Hv, Ht, Hc. simpl in Hv, Ht, Hc.
  apply slice0_In, fused_entry in Hc. rewrite Hk, Hv, Ht in Hc.
  simpl in Hc. injection Hc as <-. reflexivity.
Qed.

(** C1, witness: the example of the specification, id "b". *)
Lemma C1_overlap_accumulates_witness :
  example_run = (Normal example_result, snd example_run)
  /\ view (snd example_run) example_result = Some example_view
  /\ gated (minScore default_options) "b" (view_vector example_view)
     = [of_query_result (hit "b" (6 # 10))]
  /\ gated (minScore default_options) "b" (view_text example_view)
     = [plain "b" (8 # 10)]
  /\ sr_score (plain "b" ((6 # 10) * (7 # 10) + (8 # 10) * (3 # 10)))
     = ((6 # 10) * (7 # 10) + (8 # 10) * (3 # 10))%Q.
Proof.
  assert (example_run = (Normal example_result, snd example_run)) as Hrun
    by (vm_compute; reflexivity).
  assert (view (snd example_run) example_result = Some example_view) as Hview
    by (vm_compute; reflexivity).
  split; [exact Hrun|]. split; [exact Hview|].
  split; [reflexivity|]. split; [reflexivity|].
  apply (C1_overlap_accumulates env_example embedding_model "database indexing"
           2 None default_options empty_world example_result (snd example_run)
           example_view "b" (of_query_result (hit "b" (6 # 10)))
           (plain "b" (8 # 10))
           (plain "b" ((6 # 10) * (7 # 10) + (8 # 10) * (3 # 10)))).
  - exact Hrun.
  - exact Hview.
  - reflexivity.
  - reflexivity.
  - left. reflexivity.
  - reflexivity.
Defined.

(** C1, counterexample to the claim as stated: the id "a" is in both legs
    with native scores 1 and 1, above [minScore]; the text leg lists it twice
    and its combined score is 0.7 + 0.3 + 0.3, not 0.7 + 0.3. *)
Lemma C1_counterexample :
  exists r w' sv v t c,
    search env_twice embedding_model "q" 10 None default_options empty_world
    = (Normal r, w')
    /\ view w' r = Some sv
    /\ In v (view_vector sv) /\ In t (view_text sv)
    /\ sr_id v = "a" /\ sr_id t = "a"
    /\ passes (minScore default_options) v = true
    /\ passes (minScore default_options) t = true
    /\ In c (view_combined sv) /\ sr_id c = "a"
    /\ ~ (sr_score c
          == sr_score v * vectorWeight default_options
             + sr_score t * textWeight default_options)%Q.
Proof.
  eexists _, _, _, (plain "a" 1), (plain "a" 1), _.
  split; [vm_compute; reflexivity|].
  split; [vm_compute; reflexivity|].
  split; [left; reflexivity|].
  split; [left; reflexivity|].
  split; [reflexivity|]. split; [reflexivity|].
  split; [reflexivity|]. split; [reflexivity|].
  split; [left; reflexivity|].
  split; [reflexivity|].
  vm_compute. discriminate.
Qed.

Lemma refs_nil_inv h arr : refs h arr [] -> arr = [].
Proof. unfold refs. apply Forall2_nil_inv_r. Qed.

Lemma vector_leg_filtered ms (rs : list QueryResult) :
  map of_query_result (List.filter (fun r => Qle_bool ms (qr_score r)) rs)
  = List.filter (passes ms) (map of_query_result rs).
Proof.
  induction rs as [|x rs IH]; simpl; [done|].
  unfold passes at 1. simpl.
  destruct (Qle_bool ms (qr_score x)); simpl; by rewrite IH.
Qed.

Lemma search_view_without_low_scores env model query topK filters o :
  view_combined
    (search_view (without_low_scores (minScore o) env) model query topK filters o)
  = view_combined (search_view env model query topK filters o).
Proof.
  unfold search_view. cbn [view_combined]. f_equal.
  assert (or_empty (vector_leg (without_low_scores (minScore o) env)
                      model query topK filters)
          = List.filter (passes (minScore o))
              (or_empty (vector_leg env model query topK filters))) as ->.
  { unfold vector_leg, query_embedding. simpl.
    destruct (embeddings_create env _) as [data|]; [|done].
    destruct (first_embedding data) as [e|]; [|done].
    destruct (vectorStore_query env e topK filters); [|done].
    simpl. apply vector_leg_filtered. }
  assert (or_empty (text_leg (without_low_scores (minScore o) env)
                      query topK filters)
          = List.filter (passes (minScore o))
              (or_empty (text_leg env query topK filters))) as ->.
  { unfold text_leg. simpl.
    by destruct (textSearch_searchText env query topK filters). }
  apply fused_filter.
Qed.

(** A result that passes the gate has an entry in the fused list. *)
Lemma fused_has_entry vs ts o x :
  In x vs \/ In x ts -> passes (minScore o) x = true ->
  exists c, In c (fused vs ts o) /\ sr_id c = sr_id x.
Proof.
  intros Hin Hp.
  assert (is_Some (map_get (fused_map vs ts o) (sr_id x))) as [c Hc].
  { rewrite fused_map_get. destruct Hin as [Hin|Hin].
    - assert (In x (gated (minScore o) (sr_id x) vs)) as Hg
        by (by apply gated_In).
      rewrite fold_vector_entry_last.
      destruct (last (gated (minScore o) (sr_id x) vs)) as [v|] eqn:El.
      + destruct (fold_text_entry_Some (textWeight o)
                    (gated (minScore o) (sr_id x) ts)
                    (with_score v (sr_score v * vectorWeight o))) as [s ->].
        eauto.
      + apply last_None in El. rewrite El in Hg. destruct Hg.
    - apply fold_text_entry_nonempty. intros E.
      assert (In x (gated (minScore o) (sr_id x) ts)) as Hg
        by (by apply gated_In).
      rewrite E in Hg. destruct Hg. }
  exists c. split.
  - unfold fused, map_values. apply sort_by_In.
    apply map_get_In in Hc. change c with (snd (sr_id x, c)). by apply in_map.
  - destruct (fused_map_inv vs ts o) as [Hk _].
    unfold keyed_by_id in Hk. rewrite Forall_forall in Hk.
    apply map_get_In in Hc. by apply (Hk (sr_id x, c)), list_elem_of_In.
Qed.

(** The fusion of the vector leg alone: one entry for each id that passes
    the gate, the last result with that id, with its weighted score. *)
Lemma fused_vector_alone vs o c :
  In c (fused vs [] o) <->
  exists v, last (gated (minScore o) (sr_id c) vs) = Some v
            /\ c = weighted (vectorWeight o) v.
Proof.
  rewrite fused_entry.
  change (gated (minScore o) (sr_id c) []) with (@nil SearchResult).
  cbn [fold_left]. rewrite fold_vector_entry_last. unfold weighted. split.
  - destruct (last _) as [v|]; [|done]. intros [= <-]. by exists v.
  - intros (v & -> & ->). cbn [sr_id with_score].
    destruct (last (gated (minScore o) (sr_id v) vs)) eqn:E; reflexivity.
Qed.

(** The fusion of the text leg alone: one entry for each id that passes the
    gate, with the fields of the first result with that id and the sum of
    the weighted scores of all of them. *)
Lemma fused_text_alone ts o c :
  In c (fused [] ts o) ->
  exists t rest,
    gated (minScore o) (sr_id c) ts = t :: rest
    /\ same_fields_but_score c t
    /\ sr_score c
       = fold_left (fun s x => (s + sr_score x * textWeight o)%Q) rest
           (sr_score t * textWeight o)%Q.
Proof.
  rewrite fused_entry.
  change (gated (minScore o) (sr_id c) []) with (@nil SearchResult).
  cbn [fold_left].
  destruct (gated (minScore o) (sr_id c) ts) as [|t rest]; [done|].
  cbn [fold_left text_entry]. rewrite fold_text_entry_score. intros [= <-].
  exists t, rest. split; [done|]. split; [|done].
  by repeat split.
Qed.

(** C2.  [search] never raises.  When the lexical search raises, the call
    returns with [textResults = []], with [vectorResults] what the vector leg
    produced, and with [combinedResults] the fusion of the vector leg alone:
    its entries are the vector results that pass the gate (for an id listed
    more than once, the last of them), each with its score times
    [vectorWeight], and each such result has its entry unless [topK] cuts it
    off.  When the vector leg raises (the embedding call or the vector
    query), the call returns with [vectorResults = []], with [textResults]
    what the lexical search returned, and with [combinedResults] the fusion
    of the text leg alone.  In both cases the call returns what it returns
    when the failing backend finds nothing. *)
Theorem C2_legs_fail_soft env model query topK filters o w :
  exists r w' sv,
    search env model query topK filters o w = (Normal r, w')
    /\ view w' r = Some sv
    /\ (raises (textSearch_searchText env query topK filters) ->
        textResults r = [] /\ view_text sv = []
        /\ view_vector sv = or_empty (vector_leg env model query topK filters)
        /\ view_combined sv = slice0 (fused (view_vector sv) [] o) topK
        /\ (forall c, In c (view_combined sv) ->
            exists v,
              last (gated (minScore o) (sr_id c) (view_vector sv)) = Some v
              /\ c = weighted (vectorWeight o) v)
        /\ (forall v, In v (view_vector sv) -> passes (minScore o) v = true ->
            (Z.of_nat (length (view_vector sv)) <= topK)%Z ->
            exists c, In c (view_combined sv) /\ sr_id c = sr_id v)
        /\ exists r0 w0,
             search (with_empty_text env) model query topK filters o w
             = (Normal r0, w0)
             /\ view w0 r0 = Some sv)
    /\ (raises (vector_leg env model query topK filters) ->
        vectorResults r = [] /\ view_vector sv = []
        /\ view_text sv = or_empty (text_leg env query topK filters)
        /\ view_combined sv = slice0 (fused [] (view_text sv) o) topK
        /\ (forall c, In c (view_combined sv) ->
            exists t rest,
              gated (minScore o) (sr_id c) (view_text sv) = t :: rest
              /\ same_fields_but_score c t
              /\ sr_score c
                 = fold_left (fun s x => (s + sr_score x * textWeight o)%Q)
                     rest (sr_score t * textWeight o)%Q)
        /\ (forall t, In t (view_text sv) -> passes (minScore o) t = true ->
            (Z.of_nat (length (view_text sv)) <= topK)%Z ->
            exists c, In c (view_combined sv) /\ sr_id c = sr_id t)
        /\ exists r0 w0,
             search (with_empty_vector env) model query topK filters o w
             = (Normal r0, w0)
             /\ view w0 r0 = Some sv).
Proof.
  destruct (search_steps env model query topK filters o w)
    as (vr & w1 & tr & w2 & out & w3 & E1 & E2 & E3 & E & Hh & Hv & Ht & Hp & Hc & Hio).
  destruct (search_values env model query topK filters o w)
    as (r & w' & Er & Hview & _).
  rewrite E in Er. injection Er as <- <-.
  eexists _, _, _. split; [exact E|]. split; [exact Hview|].
  cbn [search_view view_vector view_text view_combined textResults
       vectorResults].
  split.
  - intros Hraise.
    assert (or_empty (text_leg env query topK filters) = []) as Hempty.
    { unfold text_leg.
      by destruct (textSearch_searchText env query topK filters). }
    rewrite Hempty in Ht. rewrite Hempty.
    set (vs := or_empty (vector_leg env model query topK filters)).
    split_and!.
    + by apply refs_nil_inv in Ht.
    + done.
    + done.
    + done.
    + intros c Hin. by apply slice0_In, fused_vector_alone in Hin.
    + intros v Hin Hpass Hk.
      destruct (fused_has_entry vs [] o v (or_introl Hin) Hpass)
        as (c & Hcin & Hid).
      exists c. split; [|done]. rewrite slice0_all; [done|].
      pose proof (fused_length vs [] o). simpl in *. lia.
    + destruct (search_values (with_empty_text env) model query topK filters o w)
        as (r0 & w0 & E0 & Hview0 & _).
      exists r0, w0. split; [exact E0|]. rewrite Hview0. f_equal.
      unfold search_view. by rewrite Hempty.
  - intros Hraise.
    assert (or_empty (vector_leg env model query topK filters) = []) as Hempty.
    { by destruct (vector_leg env model query topK filters). }
    rewrite Hempty in Hv. rewrite Hempty.
    set (ts := or_empty (text_leg env query topK filters)).
    split_and!.
    + by apply refs_nil_inv in Hv.
    + done.
    + done.
    + done.
    + intros c Hin. by apply slice0_In, fused_text_alone in Hin.
    + intros t Hin Hpass Hk.
      destruct (fused_has_entry [] ts o t (or_intror Hin) Hpass)
        as (c & Hcin & Hid).
      exists c. split; [|done]. rewrite slice0_all; [done|].
      pose proof (fused_length [] ts o). simpl in *. lia.
    + destruct (search_values (with_empty_vector env) model query topK filters o w)
        as (r0 & w0 & E0 & Hview0 & _).
      exists r0, w0. split; [exact E0|]. rewrite Hview0. f_equal.
      unfold search_view. rewrite Hempty.
      replace (or_empty (vector_leg (with_empty_vector env) model query topK
                           filters))
        with (@nil SearchResult); [done|].
      unfold vector_leg, query_embedding. simpl.
      destruct (embeddings_create env _) as [data|]; [|done].
      by destruct (first_embedding data).
Qed.

(** C2, witness: with the lexical search down the two vector results come
    back weighted by 0.7; with the vector store down the two text results
    come back weighted by 0.3. *)
Lemma C2_legs_fail_soft_witness :
  (exists r w' sv,
     search env_text_down embedding_model "q" 10 None default_options
       empty_world = (Normal r, w')
     /\ view w' r = Some sv
     /\ textResults r = []
     /\ view_vector sv = [plain "a" (9 # 10); plain "b" (6 # 10)]
     /\ view_combined sv
        = [plain "a" ((9 # 10) * (7 # 10)); plain "b" ((6 # 10) * (7 # 10))])
  /\ (exists r w' sv,
        search env_vector_down embedding_model "q" 10 None default_options
          empty_world = (Normal r, w')
        /\ view w' r = Some sv
        /\ vectorResults r = []
        /\ view_text sv = [plain "b" (8 # 10); plain "c" (7 # 10)]
        /\ view_combined sv
           = [plain "b" ((8 # 10) * (3 # 10)); plain "c" ((7 # 10) * (3 # 10))]).
Proof.
  split.
  - destruct (C2_legs_fail_soft env_text_down embedding_model "q" 10 None
                default_options empty_world) as (r & w' & sv & E & Hview & Htext & _).
    destruct (Htext I) as (Ht & _ & Hvec & Hcomb & _).
    exists r, w', sv. split; [exact E|]. split; [exact Hview|].
    split; [exact Ht|]. rewrite Hcomb, Hvec. split; reflexivity.
  - destruct (C2_legs_fail_soft env_vector_down embedding_model "q" 10 None
                default_options empty_world) as (r & w' & sv & E & Hview & _ & Hvector).
    destruct (Hvector I) as (Hv & _ & Htxt & Hcomb & _).
    exists r, w', sv. split; [exact E|]. split; [exact Hview|].
    split; [exact Hv|]. rewrite Hcomb, Htxt. split; reflexivity.
Defined.

(** C3.  Removing from what the two backends return every result whose
    native score is below [minScore] leaves [combinedResults] as it is: such
    a result contributes nothing.  The gate reads the native score only: a
    result that passes it has an entry in the fused list whatever its
    weighted score (here, whenever [topK] cuts nothing off). *)
Theorem C3_gate_on_native_score env model query topK filters o w :
  exists r w' sv,
    search env model query topK filters o w = (Normal r, w')
    /\ view w' r = Some sv
    /\ (exists r0 w0 sv0,
          search (without_low_scores (minScore o) env) model query topK filters
            o w = (Normal r0, w0)
          /\ view w0 r0 = Some sv0
          /\ view_combined sv0 = view_combined sv)
    /\ (forall x,
          In x (view_vector sv) \/ In x (view_text sv) ->
          passes (minScore o) x = true ->
          (Z.of_nat (length (view_vector sv) + length (view_text sv)) <= topK)%Z ->
          exists c, In c (view_combined sv) /\ sr_id c = sr_id x).
Proof.
  destruct (search_values env model query topK filters o w)
    as (r & w' & E & Hview & _).
  destruct (search_values (without_low_scores (minScore o) env)
              model query topK filters o w) as (r0 & w0 & E0 & Hview0 & _).
  exists r, w', (search_view env model query topK filters o).
  split_and!; [done|done| |].
  - eexists r0, w0, _. split_and!; [done|exact Hview0|].
    apply search_view_without_low_scores.
  - cbn [search_view view_vector view_text view_combined].
    intros x Hin Hp Hk.
    destruct (fused_has_entry _ _ o x Hin Hp) as (c & Hc & Hid).
    exists c. split; [|done].
    rewrite slice0_all; [done|].
    pose proof (fused_length
                  (or_empty (vector_leg env model query topK filters))
                  (or_empty (text_leg env query topK filters)) o).
    lia.
Qed.

(** C3, witness: in the example "c" passes the gate with native score 0.7
    and is in the fused list with the weighted score 0.21, below
    [minScore]. *)
Lemma C3_gate_on_native_score_witness :
  exists r w' sv c,
    example_run_all = (Normal r, w')
    /\ view w' r = Some sv
    /\ In (plain "c" (7 # 10)) (view_text sv)
    /\ passes (minScore default_options) (plain "c" (7 # 10)) = true
    /\ In c (view_combined sv) /\ sr_id c = "c"
    /\ passes (minScore default_options) c = false.
Proof.
  destruct (C3_gate_on_native_score env_example embedding_model
              "database indexing" 10 None default_options empty_world)
    as (r & w' & sv & E & Hview & _ & Hin).
  pose proof (view_of_search _ _ _ _ _ _ _ _ _ _ E Hview) as Hsv.
  assert (In (plain "c" (7 # 10)) (view_text sv)) as Hc.
  { rewrite Hsv. right. left. reflexivity. }
  destruct (Hin (plain "c" (7 # 10))) as (c & Hcin & Hcid).
  - right. exact Hc.
  - reflexivity.
  - rewrite Hsv. vm_compute. discriminate.
  - exists r, w', sv, c. split; [exact E|]. split; [exact Hview|].
    split; [exact Hc|]. split; [reflexivity|].
    split; [exact Hcin|]. split; [exact Hcid|].
    rewrite Hsv in Hcin. vm_compute in Hcin.
    destruct Hcin as [<-|[<-|[<-|[]]]]; try discriminate Hcid.
    reflexivity.
Defined.

(** C4.  For [topK >= 1] (and any query), [combinedResults] has at most
    [topK] elements and is in descending order of combined score. *)
Theorem C4_topK_sorted env model query topK filters o w :
  (1 <= topK)%Z ->
  exists r w' sv,
    search env model query topK filters o w = (Normal r, w')
    /\ view w' r = Some sv
    /\ (Z.of_nat (length (combinedResults r)) <= topK)%Z
    /\ length (view_combined sv) = length (combinedResults r)
    /\ StronglySorted score_ge (view_combined sv).
Proof.
  intros Hk.
  destruct (search_steps env model query topK filters o w)
    as (vr & w1 & tr & w2 & out & w3 & E1 & E2 & E3 & E & Hh & Hv & Ht & Hp & Hc & Hio).
  destruct (search_values env model query topK filters o w)
    as (r & w' & Er & Hview & _).
  rewrite E in Er. injection Er as <- <-.
  eexists _, _, _. split; [exact E|]. split; [exact Hview|].
  cbn [combinedResults search_view view_combined].
  split_and!.
  - apply slice0_length. lia.
  - pose proof (refs_slice0 _ _ _ topK Hc) as Hc'.
    unfold refs in Hc'. by rewrite (Forall2_length _ _ _ Hc').
  - apply slice0_sorted, fused_sorted.
Qed.

(** C4, witness: the example with [topK = 2]. *)
Lemma C4_topK_sorted_witness :
  exists r w' sv,
    search env_example embedding_model "database indexing" 2 None
      default_options empty_world = (Normal r, w')
    /\ view w' r = Some sv
    /\ (Z.of_nat (length (combinedResults r)) <= 2)%Z
    /\ length (view_combined sv) = length (combinedResults r)
    /\ StronglySorted score_ge (view_combined sv).
Proof.
  apply (C4_topK_sorted env_example embedding_model "database indexing" 2 None
           default_options empty_world).
  lia.
Defined.

(** C5, as amended.  [search] validates neither [query] nor [topK]: for
    every query, the empty one included, and every [topK], the non-positive
    ones included, it returns normally, having dispatched the embedding
    request and the lexical search with these arguments, and the vector query
    when the embedding call succeeds. *)
Theorem C5_no_input_validation env model query topK filters o w :
  exists r w' calls,
    search env model query topK filters o w = (Normal r, w')
    /\ io w' = io w ++ calls
    /\ In (IoEmbeddingsCreate (embedding_request model query)) calls
    /\ In (IoSearchText query topK filters) calls
    /\ match query_embedding env model query with
       | Normal e => In (IoVectorQuery e topK filters) calls
       | Throw _ => True
       end.
Proof.
  destruct (search_values env model query topK filters o w)
    as (r & w' & E & _ & _ & Hio).
  exists r, w', (search_io env model query topK filters).
  split; [done|]. split; [done|].
  unfold search_io, vector_io. split_and!.
  - apply in_or_app. left. by left.
  - apply in_or_app. right. by left.
  - destruct (query_embedding env model query); [|done].
    apply in_or_app. left. right. by left.
Qed.

(** C5, counterexample to the claim as stated: with the empty query and
    [topK = 0] the call returns a result, and the embedding request, the
    vector query and the lexical search were dispatched. *)
Lemma C5_counterexample :
  exists r w',
    empty_query_run = (Normal r, w')
    /\ io empty_world = []
    /\ In (IoEmbeddingsCreate (embedding_request embedding_model "")) (io w')
    /\ In (IoVectorQuery [1%Q; 0%Q] 0 None) (io w')
    /\ In (IoSearchText "" 0 None) (io w').
Proof.
  eexists _, _. split; [vm_compute; reflexivity|].
  split; [reflexivity|]. cbn [io].
  split; [left; reflexivity|].
  split; [right; left; reflexivity|].
  right. right. left. reflexivity.
Qed.

(** C9.  The objects behind [vectorResults] and [textResults] are what the
    two legs produced, native scores included: [combineResults] returns
    normally and every object that exists when it is called is unchanged when
    it returns. *)
Theorem C9_legs_not_mutated env model query topK filters o w :
  exists vr w1 tr w2 out w3 sv,
    performVectorSearch env model query topK filters w = (Normal vr, w1)
    /\ performTextSearch env query topK filters w1 = (Normal tr, w2)
    /\ combineResults vr tr (vectorWeight o) (textWeight o) (minScore o) w2
       = (Normal out, w3)
    /\ search env model query topK filters o w
       = (Normal {| vectorResults := vr; textResults := tr;
                    combinedResults := slice0 out topK |}, w3)
    /\ (forall a obj, heap w2 !! a = Some obj -> heap w3 !! a = Some obj)
    /\ objects (heap w2) vr = Some (view_vector sv)
    /\ objects (heap w2) tr = Some (view_text sv)
    /\ view w3 {| vectorResults := vr; textResults := tr;
                  combinedResults := slice0 out topK |} = Some sv
    /\ view_vector sv = or_empty (vector_leg env model query topK filters)
    /\ view_text sv = or_empty (text_leg env query topK filters).
Proof.
  destruct (search_steps env model query topK filters o w)
    as (vr & w1 & tr & w2 & out & w3 & E1 & E2 & E3 & E & Hh & Hv & Ht & Hp & Hc & Hio).
  destruct (search_values env model query topK filters o w)
    as (r & w' & Er & Hview & _).
  rewrite E in Er. injection Er as <- <-.
  exists vr, w1, tr, w2, out, w3, (search_view env model query topK filters o).
  split_and!; try done.
  - intros a obj Ha. by eapply prefix_lookup_Some.
  - by apply objects_refs.
  - by apply objects_refs.
Qed.

(** C10.  When the id [k] passes the gate in both legs, the entry of
    [combinedResults] with that id has every field but [score] from a
    vector-leg result (the last one with that id that passes the gate); the
    text leg adds weighted score terms and nothing else. *)
Theorem C10_fields_from_vector_leg
    env model query topK filters o w r w' sv k v0 t0 c :
  search env model query topK filters o w = (Normal r, w') ->
  view w' r = Some sv ->
  In v0 (view_vector sv) -> sr_id v0 = k -> passes (minScore o) v0 = true ->
  In t0 (view_text sv) -> sr_id t0 = k -> passes (minScore o) t0 = true ->
  In c (view_combined sv) -> sr_id c = k ->
  exists v,
    last (gated (minScore o) k (view_vector sv)) = Some v
    /\ In v (view_vector sv) /\ passes (minScore o) v = true
    /\ same_fields_but_score c v
    /\ sr_score c
       = fold_left (fun s t => (s + sr_score t * textWeight o)%Q)
           (gated (minScore o) k (view_text sv))
           (sr_score v * vectorWeight o)%Q.
Proof.
  intros E Hview Hv0 Hv0k Hv0p Ht0 Ht0k Ht0p Hc Hk.
  rewrite (view_of_search _ _ _ _ _ _ _ _ _ _ E Hview) in *.
  cbn [search_view view_vector view_text view_combined] in *.
  set (vs := or_empty (vector_leg env model query topK filters)) in *.
  set (ts := or_empty (text_leg env query topK filters)) in *.
  apply slice0_In, fused_entry in Hc. rewrite Hk in Hc.
  rewrite fold_vector_entry_last in Hc.
  destruct (last (gated (minScore o) k vs)) as [v|] eqn:El.
  - rewrite fold_text_entry_score in Hc. injection Hc as <-.
    exists v. split; [done|].
    apply last_Some_elem_of, list_elem_of_In, gated_In in El as (Hin & _ & Hp).
    split_and!; done.
  - apply last_None in El.
    assert (In v0 (gated (minScore o) k vs)) as Hg by (by apply gated_In).
    rewrite El in Hg. destruct Hg.
Qed.

(** C10, witness: both legs return "a"; the fused entry carries the content
    and the video id of the vector-leg result. *)
Lemma C10_fields_from_vector_leg_witness :
  exists r w' sv c v,
    fields_run = (Normal r, w')
    /\ view w' r = Some sv
    /\ In c (view_combined sv) /\ sr_id c = "a"
    /\ sr_content c = JStr "from the vector index"
    /\ sr_videoId c = JStr "v1"
    /\ last (gated (minScore default_options) "a" (view_vector sv)) = Some v
    /\ same_fields_but_score c v.
Proof.
  destruct (search_values env_fields embedding_model "q" 10 None
              default_options empty_world) as (r & w' & E & Hview & _).
  pose (c := {| sr_id := "a"; sr_content := JStr "from the vector index";
                sr_score := 1 * (7 # 10) + 1 * (3 # 10);
                sr_videoId := JStr "v1";
                sr_videoTitle := JUndefined; sr_timestamp := JUndefined;
                sr_url := JUndefined; sr_playlistId := JUndefined;
                sr_publishedAt := JUndefined |}).
  assert (In c (view_combined
                  (search_view env_fields embedding_model "q" 10 None
                     default_options))) as Hc
    by (left; reflexivity).
  destruct (C10_fields_from_vector_leg env_fields embedding_model "q" 10 None
              default_options empty_world r w' _ "a"
              (of_query_result
                 {| qr_id := "a"; qr_score := 1;
                    qr_metadata := [("content", JStr "from the vector index");
                                    ("videoId", JStr "v1")] |})
              {| sr_id := "a"; sr_content := JStr "from the text index";
                 sr_score := 1; sr_videoId := JStr "v2";
                 sr_videoTitle := JUndefined; sr_timestamp := JUndefined;
                 sr_url := JUndefined; sr_playlistId := JUndefined;
                 sr_publishedAt := JUndefined |}
              c E Hview
              (or_introl eq_refl) eq_refl eq_refl
              (or_introl eq_refl) eq_refl eq_refl
              Hc eq_refl)
    as (v & Hlast & Hin & Hp & Hsame & Hscore).
  exists r, w',
    (search_view env_fields embedding_model "q" 10 None default_options), c, v.
  split; [exact E|]. split; [exact Hview|]. split; [exact Hc|].
  split; [reflexivity|]. split; [reflexivity|]. split; [reflexivity|].
  split; [exact Hlast|exact Hsame].
Defined.

(* ===================================================================== *)
(** * MongoDBVectorStore                                                  *)
(* ===================================================================== *)

(** ** [upsert] *)

Lemma find_replace_one docs d i :
  find_doc (fst (replace_one docs (to_operation d))) i
  = if String.eqb (doc_id d) i then Some (bson_document d) else find_doc docs i.
Proof.
  unfold find_doc. induction docs as [|x docs IH].
  - simpl. unfold has_id. simpl. by destruct (String.eqb (doc_id d) i).
  - cbn [replace_one to_operation op_filter_id op_replacement op_upsert find].
    unfold has_id in *. simpl in IH.
    case_eqb (doc_id x) (doc_id d).
    + cbn [fst find bson_document doc_id]. rewrite E.
      by destruct (String.eqb (doc_id d) i).
    + destruct (replace_one docs (to_operation d)) as [rest r] eqn:Er.
      cbn [fst find] in *.
      case_eqb (doc_id x) i.
      * subst i. apply eqb_eq_false in E.
        rewrite String.eqb_sym in E. by rewrite E.
      * exact IH.
Qed.

Lemma find_write_all docs batch i :
  find_doc (write_all docs batch) i
  = match last (List.filter (has_id i) batch) with
    | Some d => Some (bson_document d)
    | None => find_doc docs i
    end.
Proof.
  unfold write_all. revert docs.
  induction batch as [|d batch IH]; intros docs; simpl; [done|].
  rewrite IH, find_replace_one.
  change (String.eqb (doc_id d) i) with (has_id i d).
  destruct (has_id i d); [|done].
  destruct (List.filter (has_id i) batch) as [|d' l] eqn:El; [done|].
  change (last (d :: d' :: l)) with (last (d' :: l)).
  destruct (last (d' :: l)) eqn:E; [done|]. by apply last_None in E.
Qed.

Lemma bulkWrite_documents ops docs acc :
  fst (fold_left
         (fun acc op =>
            let '(docs', r') := replace_one (fst acc) op in
            (docs', add_counts (snd acc) r'))
         ops (docs, acc))
  = fold_left (fun ds op => fst (replace_one ds op)) ops docs.
Proof.
  revert docs acc. induction ops as [|op ops IH]; intros docs acc; simpl; [done|].
  destruct (replace_one docs op) as [docs' r'] eqn:E. by rewrite IH.
Qed.

Lemma write_all_operations batch docs :
  fold_left (fun ds op => fst (replace_one ds op)) (map to_operation batch) docs
  = write_all docs batch.
Proof.
  unfold write_all. revert docs.
  induction batch as [|d batch IH]; intros docs; simpl; [done|apply IH].
Qed.

Lemma ids_to_documents clock n vectors :
  map doc_id (to_documents clock n vectors) = map vd_id vectors.
Proof.
  revert n. induction vectors as [|v vectors IH]; intros n; simpl; [done|].
  by rewrite IH.
Qed.

(** The document at index [k] of the batch is built from the record at index
    [k], with the readings [2 k] and [2 k + 1] of the clock. *)
Lemma to_documents_lookup clock n vectors k d :
  to_documents clock n vectors !! k = Some d <->
  exists v, vectors !! k = Some v
            /\ d = to_document (clock (n + 2 * k)%nat)
                     (clock (n + 2 * k + 1)%nat) v.
Proof.
  revert n k. induction vectors as [|v vectors IH]; intros n k; simpl.
  - split; [done|]. by intros (v & Hv & _).
  - destruct k as [|k]; simpl.
    + rewrite Nat.add_0_r, Nat.add_1_r. split.
      * intros [= <-]. by exists v.
      * by intros (v' & [= <-] & ->).
    + rewrite IH.
      by replace (S (S n) + 2 * k)%nat with (n + 2 * S k)%nat by lia.
Qed.

(** The last element of a list that satisfies a test, by its index. *)
Lemma last_filter_lookup {A} (P : A -> bool) (l : list A) :
  match last (List.filter P l) with
  | Some d =>
      exists k, l !! k = Some d /\ P d = true
                /\ forall m d', l !! m = Some d' -> P d' = true -> (m <= k)%nat
  | None => forall x, In x l -> P x = false
  end.
Proof.
  induction l as [|x l IH] using rev_ind.
  - simpl. by intros x [].
  - rewrite List.filter_app. simpl. destruct (P x) eqn:Ex.
    + rewrite last_snoc. exists (length l). split_and!.
      * by apply list_lookup_middle.
      * done.
      * intros m d' Hm _. apply lookup_lt_Some in Hm.
        rewrite length_app in Hm. simpl in Hm. lia.
    + rewrite app_nil_r. destruct (last (List.filter P l)) as [d|].
      * destruct IH as (k & Hk & Hd & Hmax). exists k. split_and!.
        -- by apply lookup_app_l_Some.
        -- done.
        -- intros m d' Hm Hd'.
           destruct (decide (m < length l)%nat) as [Hlt|Hge].
           ++ rewrite lookup_app_l in Hm by done. by eapply Hmax.
           ++ rewrite lookup_app_r in Hm by lia.
              destruct (m - length l)%nat; simpl in Hm; [|done].
              injection Hm as <-. congruence.
      * intros y Hy. apply in_app_iff in Hy as [Hy|[<-|[]]]; [by apply IH|done].
Qed.

(** Looking up an id in the collection after a batch was written. *)
Lemma find_upserted clock vectors docs i :
  (exists k v,
     vectors !! k = Some v /\ vd_id v = i
     /\ (forall m v', vectors !! m = Some v' -> vd_id v' = i -> (m <= k)%nat)
     /\ find_doc (write_all docs (to_documents clock 0 vectors)) i
        = Some (bson_document
                  (to_document (clock (2 * k)%nat) (clock (2 * k + 1)%nat) v)))
  \/ ((forall v, In v vectors -> vd_id v <> i)
      /\ find_doc (write_all docs (to_documents clock 0 vectors)) i
         = find_doc docs i).
Proof.
  rewrite find_write_all.
  pose proof (last_filter_lookup (has_id i) (to_documents clock 0 vectors)) as H.
  destruct (last _) as [d|].
  - left. destruct H as (k & Hk & Hd & Hmax).
    apply to_documents_lookup in Hk as (v & Hv & ->).
    exists k, v. split_and!; try done.
    + unfold has_id in Hd. simpl in Hd. by apply eqb_eq_true in Hd.
    + intros m v' Hm Hid.
      apply (Hmax m (to_document (clock (0 + 2 * m)%nat)
                       (clock (0 + 2 * m + 1)%nat) v')).
      * apply to_documents_lookup. by exists v'.
      * unfold has_id. simpl. rewrite Hid. apply String.eqb_refl.
  - right. split; [|done]. intros v Hv Hid.
    apply list_elem_of_In, list_elem_of_lookup in Hv as [k Hk].
    assert (In (to_document (clock (0 + 2 * k)%nat) (clock (0 + 2 * k + 1)%nat) v)
              (to_documents clock 0 vectors)) as Hin.
    { apply list_elem_of_In, list_elem_of_lookup. exists k.
      apply to_documents_lookup. by exists v. }
    apply H in Hin. unfold has_id in Hin. simpl in Hin.
    rewrite Hid, String.eqb_refl in Hin. done.
Qed.

(** A batch that is not empty, on a deployment that takes the write. *)
Lemma upsert_accepted config clock vectors db :
  vectors <> [] -> reachable db = true -> write_fault db = None ->
  exists db',
    upsert config clock vectors db = (Normal tt, db')
    /\ reachable db' = true
    /\ documents db'
       = write_all (documents db) (to_documents clock 0 vectors).
Proof.
  intros Hne Hr Hf.
  unfold upsert, try_catch, bind, bulkWrite, store_log. cbv beta.
  rewrite Hr, Hf. cbn [negb].
  destruct vectors as [|v vectors]; [done|].
  cbn [to_documents map]. unfold apply_operations.
  destruct (fold_left _ _ _) as [docs r] eqn:E.
  eexists. split; [reflexivity|]. split; [exact Hr|]. simpl.
  pose proof (bulkWrite_documents
                (map to_operation (to_documents clock 0 (v :: vectors)))
                (documents db) (mkBulkWriteResult 0 0)) as H.
  cbn [to_documents map] in H. rewrite E in H. simpl in H. rewrite H.
  apply (write_all_operations
           (to_document (clock 0%nat) (clock 1%nat) v
            :: to_documents clock 2 vectors)).
Qed.

(** C6, as amended.  [upsert] does not look at the configured
    dimensionality.  A batch that is not empty, on a deployment that takes
    the write, is stored whatever the lengths of its vectors: the call
    returns normally, and the document found afterwards under a record's id
    holds the [values] of the last record of the batch with that id, as they
    were given. *)
Theorem C6_no_dimension_check config clock vectors db :
  vectors <> [] -> reachable db = true -> write_fault db = None ->
  exists db',
    upsert config clock vectors db = (Normal tt, db')
    /\ forall v, In v vectors ->
       exists d v',
         find_doc (documents db') (vd_id v) = Some d
         /\ last (List.filter (fun x => String.eqb (vd_id x) (vd_id v)) vectors)
            = Some v'
         /\ doc_id d = vd_id v
         /\ doc_embedding d = vd_values v'.
Proof.
  intros Hne Hr Hf.
  destruct (upsert_accepted config clock vectors db Hne Hr Hf)
    as (db' & E & _ & Hdocs).
  exists db'. split; [done|]. intros v Hv. rewrite Hdocs.
  pose proof (last_filter_lookup (fun x => String.eqb (vd_id x) (vd_id v))
                vectors) as Hlast.
  destruct (find_upserted clock vectors (documents db) (vd_id v))
    as [(k & v' & Hk & Hid & Hmax & Hfind)|[Hnone _]].
  - destruct (last _) as [v''|].
    + destruct Hlast as (k' & Hk' & Hid' & Hmax').
      apply eqb_eq_true in Hid'.
      assert (k' = k) as ->.
      { apply Nat.le_antisymm; [by eapply Hmax|].
        eapply Hmax'; [done|]. rewrite Hid. apply String.eqb_refl. }
      assert (v'' = v') as -> by congruence.
      eexists _, v'. split; [exact Hfind|]. split; [done|]. by split.
    + specialize (Hlast v Hv). by rewrite String.eqb_refl in Hlast.
  - by destruct (Hnone v Hv).
Qed.

(** C6, witness: a record of two values on an index of three dimensions. *)
Lemma C6_no_dimension_check_witness :
  exists db' d,
    upsert config3 (ticking 0) [short_record] empty_db = (Normal tt, db')
    /\ find_doc (documents db') "chunk-1" = Some d
    /\ doc_embedding d = vd_values short_record.
Proof.
  assert ([short_record] <> []) as Hne by done.
  destruct (C6_no_dimension_check config3 (ticking 0) [short_record] empty_db
              Hne eq_refl eq_refl) as (db' & E & Hall).
  destruct (Hall short_record (or_introl eq_refl))
    as (d & v' & Hfind & Hlast & _ & Hemb).
  exists db', d. split; [exact E|]. split; [exact Hfind|].
  rewrite Hemb. simpl in Hlast. by injection Hlast as <-.
Defined.

(** C6, counterexample to the claim as stated: the index is configured for
    three dimensions, the record has two values, and [upsert] returns
    normally with the two values stored. *)
Lemma C6_counterexample :
  cfg_dimensions config3 = 3%Z
  /\ length (vd_values short_record) = 2%nat
  /\ exists db' d,
       upsert config3 (ticking 0) [short_record] empty_db = (Normal tt, db')
       /\ find_doc (documents db') "chunk-1" = Some d
       /\ doc_embedding d = [1 # 2; 1 # 4].
Proof.
  split; [reflexivity|]. split; [reflexivity|].
  eexists _, _. split; [vm_compute; reflexivity|]. split; reflexivity.
Qed.

(** ** [delete] and [getStats] *)

Lemma filter_split_length {A} (f : A -> bool) (l : list A) :
  (length (List.filter f l) + length (List.filter (fun x => negb (f x)) l)
   = length l)%nat.
Proof.
  induction l as [|x l IH]; simpl; [done|].
  destruct (f x); simpl; lia.
Qed.

Lemma id_in_existsb ids d :
  id_in ids d = true <-> In (doc_id d) ids.
Proof.
  unfold id_in. rewrite existsb_exists. split.
  - intros (i & Hi & E). apply eqb_eq_true in E. by subst.
  - intros H. exists (doc_id d). split; [done|apply String.eqb_refl].
Qed.

Lemma filter_none {A} (f : A -> bool) (l : list A) :
  (forall x, In x l -> f x = true) -> List.filter f l = l.
Proof.
  induction l as [|x l IH]; simpl; intros H; [done|].
  rewrite (H x) by (by left). f_equal. apply IH. intros y Hy. apply H. by right.
Qed.

Lemma getStats_reachable config db :
  reachable db = true ->
  getStats config db
  = (Normal {| totalVectors := Z.of_nat (length (documents db));
               dimensions := cfg_dimensions config;
               indexSize := db_indexSize db |}, db).
Proof.
  intros Hr. unfold getStats, try_catch, bind, countDocuments, db_stats, ret.
  cbv beta. rewrite Hr. cbv beta iota. rewrite Hr. reflexivity.
Qed.

Lemma delete_reachable ids db :
  reachable db = true ->
  exists db',
    delete ids db = (Normal tt, db')
    /\ reachable db' = true
    /\ documents db'
       = List.filter (fun d => negb (id_in ids d)) (documents db).
Proof.
  intros Hr. unfold delete, try_catch, bind, deleteMany_id_in, store_log.
  cbv beta. rewrite Hr. simpl. eexists. split; [reflexivity|]. by simpl.
Qed.

Lemma count_one_more (k : string) (f : string -> bool) (l : list string) :
  NoDup l -> f k = false ->
  length (List.filter (fun i => String.eqb k i || f i) l)
  = ((if existsb (String.eqb k) l then 1 else 0)
     + length (List.filter f l))%nat.
Proof.
  intros Hl Hk. induction l as [|i l IH]; [done|].
  apply NoDup_cons in Hl as [Hil Hl]. specialize (IH Hl).
  cbn [List.filter existsb]. case_eqb k i.
  - subst i. cbn [orb]. rewrite Hk. cbn [length]. rewrite IH.
    assert (existsb (String.eqb k) l = false) as ->; [|done].
    apply not_true_iff_false. intros H.
    apply existsb_exists in H as (x & Hx & E). apply eqb_eq_true in E. subst x.
    apply Hil. by apply list_elem_of_In.
  - cbn [orb]. destruct (f i); cbn [length]; rewrite IH; lia.
Qed.

(** Among distinct ids and distinct documents, as many documents are selected
    as ids exist. *)
Lemma selected_count ids docs :
  NoDup ids -> NoDup (map doc_id docs) ->
  length (selected ids docs) = length (existing_ids ids docs).
Proof.
  unfold selected, existing_ids.
  intros Hi. induction docs as [|d docs IH]; intros Hd.
  - cbn [List.filter existsb length]. clear Hi Hd.
    induction ids as [|i ids IHi]; [done|exact IHi].
  - cbn [map] in Hd. apply NoDup_cons in Hd as [Hd1 Hd].
    cbn [List.filter existsb]. unfold has_id at 1.
    rewrite (count_one_more (doc_id d) (fun i => existsb (has_id i) docs)).
    + unfold id_in at 1.
      destruct (existsb (String.eqb (doc_id d)) ids); cbn [length];
        by rewrite IH.
    + done.
    + apply not_true_iff_false. intros H.
      apply existsb_exists in H as (x & Hx & E).
      unfold has_id in E. apply eqb_eq_true in E.
      apply Hd1. apply list_elem_of_In. rewrite <- E. by apply in_map.
Qed.

Lemma selected_remove_dups ids docs :
  selected (remove_dups ids) docs = selected ids docs.
Proof.
  unfold selected. apply filter_ext. intros d.
  apply eq_true_iff_eq. rewrite !id_in_existsb, <- !list_elem_of_In.
  apply elem_of_remove_dups.
Qed.

(** C8.  On a reachable deployment [delete] returns normally whether or
    not the ids exist; [totalVectors] goes down by the number of documents
    whose id is among [ids], which is the number of distinct ids that exist;
    when none exists the collection is as before. *)
Theorem C8_delete_missing_ids config ids db :
  reachable db = true ->
  exists db' before after,
    getStats config db = (Normal before, db)
    /\ delete ids db = (Normal tt, db')
    /\ getStats config db' = (Normal after, db')
    /\ totalVectors after
       = (totalVectors before
          - Z.of_nat (length (selected ids (documents db))))%Z
    /\ (NoDup (map doc_id (documents db)) ->
        totalVectors after
        = (totalVectors before
           - Z.of_nat (length (existing_ids (remove_dups ids) (documents db))))%Z)
    /\ (existing_ids ids (documents db) = [] ->
        documents db' = documents db
        /\ totalVectors after = totalVectors before).
Proof.
  intros Hr.
  destruct (delete_reachable ids db Hr) as (db' & E & Hr' & Hdocs).
  eexists db', _, _.
  split; [by apply getStats_reachable|].
  split; [exact E|].
  split; [by apply getStats_reachable|].
  cbn [totalVectors]. rewrite Hdocs.
  pose proof (filter_split_length (id_in ids) (documents db)) as Hsplit.
  split_and!.
  - unfold selected. lia.
  - intros Hd.
    rewrite <- (selected_count (remove_dups ids) (documents db)
                  (NoDup_remove_dups ids) Hd), selected_remove_dups.
    unfold selected. lia.
  - intros Hnone.
    assert (List.filter (fun d => negb (id_in ids d)) (documents db)
            = documents db) as Hsame.
    { apply filter_none. intros d Hd. apply negb_true_iff, not_true_iff_false.
      intros Hin. apply id_in_existsb in Hin.
      assert (In (doc_id d) (existing_ids ids (documents db))) as Hex.
      { unfold existing_ids. apply filter_In. split; [done|].
        apply existsb_exists. exists d. split; [done|].
        unfold has_id. apply String.eqb_refl. }
      rewrite Hnone in Hex. destruct Hex. }
    rewrite Hsame. done.
Qed.

(** C8, witness: deleting an id that is not there, and one that is. *)
Lemma C8_delete_missing_ids_witness :
  exists db' before after,
    getStats config3 one_doc_db = (Normal before, one_doc_db)
    /\ delete ["missing"; "chunk-1"] one_doc_db = (Normal tt, db')
    /\ getStats config3 db' = (Normal after, db')
    /\ totalVectors before = 1%Z /\ totalVectors after = 0%Z.
Proof.
  destruct (C8_delete_missing_ids config3 ["missing"; "chunk-1"] one_doc_db
              eq_refl) as (db' & before & after & E1 & E2 & E3 & Hn & _).
  exists db', before, after. split_and!; try done.
  - vm_compute in E1. by injection E1 as <-.
  - rewrite Hn. vm_compute in E1. by injection E1 as <-.
Defined.

(** ** [buildFilterQuery] *)

Lemma obj_set_fresh (o : JsObject) k v :
  ~ In k (keys o) -> obj_set o k v = o ++ [(k, v)].
Proof.
  unfold keys. induction o as [|[k' v'] o IH]; simpl; [done|].
  intros H. case_eqb k k'; [subst; tauto|]. rewrite IH; [done|tauto].
Qed.

Lemma obj_get_fresh (o : JsObject) k : ~ In k (keys o) -> obj_get o k = JUndefined.
Proof.
  unfold keys. induction o as [|[k' v'] o IH]; simpl; [done|].
  intros H. case_eqb k k'; [subst; tauto|]. apply IH. tauto.
Qed.

(** An object with the property [k]: the part before its first occurrence,
    its value, the part after. *)
Lemma obj_split (o : JsObject) k :
  In k (keys o) ->
  exists o1 v0 o2,
    o = o1 ++ (k, v0) :: o2 /\ ~ In k (keys o1)
    /\ obj_get o k = v0
    /\ forall v, obj_set o k v = o1 ++ (k, v) :: o2.
Proof.
  unfold keys. induction o as [|[k' v'] o IH]; simpl; [done|].
  case_eqb k k'.
  - intros _. subst k'. exists [], v', o. simpl. split_and!; try done. tauto.
  - intros [H|H]; [congruence|].
    destruct (IH H) as (o1 & v0 & o2 & -> & Hk & Hg & Hs).
    exists ((k', v') :: o1), v0, o2. simpl. split_and!; try done.
    + intros [?|?]; [congruence|tauto].
    + intros v. by rewrite Hs.
Qed.

Lemma query_predicates_app q1 q2 :
  query_predicates (q1 ++ q2) = query_predicates q1 ++ query_predicates q2.
Proof. unfold query_predicates. apply flat_map_app. Qed.

Lemma metadata_inj a b :
  ("metadata." ++ a)%string = ("metadata." ++ b)%string -> a = b.
Proof. simpl. intros H. by simplify_eq. Qed.

Lemma target_field_other key :
  key <> "publishedAfter" -> key <> "publishedBefore" ->
  key <> "startTimeRange" ->
  target_field key = ("metadata." ++ key)%string.
Proof.
  intros H1 H2 H3. apply eqb_eq_false in H1, H2, H3.
  unfold target_field. by rewrite H1, H2, H3.
Qed.

(** The keys written to one field. *)
Lemma target_field_cases key :
  (key = "publishedAfter" /\ target_field key = "metadata.publishedAt")
  \/ (key = "publishedBefore" /\ target_field key = "metadata.publishedAt")
  \/ (key = "startTimeRange" /\ target_field key = "metadata.startTime")
  \/ (key <> "publishedAfter" /\ key <> "publishedBefore"
      /\ key <> "startTimeRange"
      /\ target_field key = ("metadata." ++ key)%string).
Proof.
  case_eqb key "publishedAfter"; [left; by subst|].
  case_eqb key "publishedBefore"; [right; left; by subst|].
  case_eqb key "startTimeRange"; [right; right; left; by subst|].
  right. right. right. split_and!; try done. by apply target_field_other.
Qed.

(** What the specification promises for one entry: the field is the one the
    key is written to, and the operator tells the kind of key. *)
Lemma spec_entry_shape key value f op x :
  In (f, op, x) (spec_entry_predicates (key, value)) ->
  f = target_field key
  /\ ((op = "$gte" /\ (key = "publishedAfter" \/ key = "startTimeRange"))
      \/ (op = "$lte" /\ (key = "publishedBefore" \/ key = "startTimeRange"))
      \/ (op = "$eq" /\ key <> "publishedAfter" /\ key <> "publishedBefore"
          /\ key <> "startTimeRange")).
Proof.
  unfold spec_entry_predicates.
  case_eqb key "videoId".
  { subst. intros [[= <- <- <-]|[]]. split; [done|]. right. right. done. }
  case_eqb key "playlistId".
  { subst. intros [[= <- <- <-]|[]]. split; [done|]. right. right. done. }
  case_eqb key "publishedAfter".
  { subst. intros [[= <- <- <-]|[]]. split; [done|]. left. auto. }
  case_eqb key "publishedBefore".
  { subst. intros [[= <- <- <-]|[]]. split; [done|]. right. left. auto. }
  case_eqb key "startTimeRange".
  { subst. intros H. apply in_app_iff in H as [H|H].
    - destruct (is_undefined _); [done|].
      destruct H as [[= <- <- <-]|[]]. split; [done|]. left. auto.
    - destruct (is_undefined _); [done|].
      destruct H as [[= <- <- <-]|[]]. split; [done|]. right. left. auto. }
  intros [[= <- <- <-]|[]]. split.
  - by rewrite target_field_other.
  - right. right. done.
Qed.

Lemma keys_app (a b : JsObject) : keys (a ++ b) = keys a ++ keys b.
Proof. unfold keys. apply map_app. Qed.

Lemma matches_same {D} (holds : Predicate -> D -> bool) ps qs d :
  (forall p, In p ps <-> In p qs) -> matches holds ps d = matches holds qs d.
Proof.
  intros H. unfold matches.
  destruct (forallb (fun p => holds p d) qs) eqn:E.
  - apply forallb_forall. intros p Hp. rewrite forallb_forall in E.
    apply E. by apply H.
  - apply not_true_iff_false. intros E'. apply not_true_iff_false in E.
    apply E. apply forallb_forall. intros p Hp. rewrite forallb_forall in E'.
    apply E'. by apply H.
Qed.

Lemma obj_get_obj_set (o : JsObject) k v k' :
  obj_get (obj_set o k v) k' = if String.eqb k' k then v else obj_get o k'.
Proof.
  induction o as [|[k0 v0] o IH]; simpl; [done|].
  case_eqb k k0; simpl.
  - subst k0. by destruct (String.eqb k' k).
  - rewrite IH. case_eqb k' k0; [|done].
    subst k0. apply not_eq_sym, eqb_eq_false in E. by rewrite E.
Qed.

Lemma Forall_obj_set (P : string * JsValue -> Prop) (o : JsObject) k v :
  Forall P o -> P (k, v) -> Forall P (obj_set o k v).
Proof.
  intros Ho Hkv. induction Ho as [|[k0 v0] o H0 Ho IH]; simpl.
  - by constructor.
  - destruct (String.eqb k k0); by constructor.
Qed.

Lemma keys_obj_set_iff (o : JsObject) k v f :
  In f (keys (obj_set o k v)) <-> In f (keys o) \/ f = k.
Proof.
  unfold keys. induction o as [|[k0 v0] o IH]; simpl.
  - intuition.
  - case_eqb k k0; simpl.
    + subst k0. intuition.
    + rewrite IH. intuition.
Qed.

Lemma NoDup_obj_set (o : JsObject) k v :
  NoDup (keys o) -> NoDup (keys (obj_set o k v)).
Proof.
  induction o as [|[k0 v0] o IH]; simpl; intros Hnd.
  - apply NoDup_singleton.
  - cbn [keys map fst] in Hnd. apply NoDup_cons in Hnd as [Hk0 Hnd].
    case_eqb k k0.
    + subst k0. cbn [keys map fst]. by apply NoDup_cons.
    + change (keys ((k0, v0) :: obj_set o k v))
        with (k0 :: keys (obj_set o k v)).
      apply NoDup_cons. split; [|by apply IH].
      rewrite list_elem_of_In, keys_obj_set_iff. intros [H|H].
      * apply Hk0. by apply list_elem_of_In.
      * congruence.
Qed.

Lemma metadata_filter_get q f :
  metadata_filter q ->
  obj_get q f = JUndefined
  \/ exists ops, obj_get q f = JObj ops
                 /\ Forall (fun op => In (fst op) filter_operators) ops.
Proof.
  unfold metadata_filter. induction 1 as [|[k0 v0] q [_ (ops & Hv & Hops)] Hq IH];
    simpl; [by left|].
  destruct (String.eqb f k0); [|exact IH].
  right. exists ops. simpl in Hv. by subst.
Qed.

Lemma metadata_filter_set q f ops :
  metadata_filter q ->
  String.prefix "metadata." f = true ->
  Forall (fun op => In (fst op) filter_operators) ops ->
  metadata_filter (obj_set q f (JObj ops)).
Proof.
  intros Hq Hf Hops. apply Forall_obj_set; [exact Hq|].
  split; [exact Hf|]. by exists ops.
Qed.

Lemma metadata_prefix key :
  String.prefix "metadata." ("metadata." ++ key) = true.
Proof. simpl. by destruct key. Qed.

(** One turn of the loop keeps the shape of the filter document. *)
Lemma filter_entry_invariant q key value :
  metadata_filter q -> NoDup (keys q) ->
  match filter_entry q (key, value) with
  | Normal q' =>
      metadata_filter q' /\ NoDup (keys q')
      /\ (forall f, In f (keys q') <-> In f (keys q) \/ f = target_field key)
      /\ ~ (key = "startTimeRange" /\ (value = JUndefined \/ value = JNull))
  | Throw e =>
      e = destructure_error
      /\ key = "startTimeRange" /\ (value = JUndefined \/ value = JNull)
  end.
Proof.
  intros Hq Hnd.
  assert (forall f ops,
            String.prefix "metadata." f = true ->
            Forall (fun op : string * JsValue => In (fst op) filter_operators)
              ops ->
            f = target_field key ->
            ~ (key = "startTimeRange"
               /\ (value = JUndefined \/ value = JNull)) ->
            metadata_filter (obj_set q f (JObj ops))
            /\ NoDup (keys (obj_set q f (JObj ops)))
            /\ (forall g, In g (keys (obj_set q f (JObj ops)))
                          <-> In g (keys q) \/ g = target_field key)
            /\ ~ (key = "startTimeRange"
                  /\ (value = JUndefined \/ value = JNull))) as Hset.
  { intros f ops Hf Hops -> Hk. split_and!; try done.
    - by apply metadata_filter_set.
    - by apply NoDup_obj_set.
    - intros g. apply keys_obj_set_iff. }
  assert (forall op, In op filter_operators ->
            forall k, (k = "publishedAfter" \/ k = "publishedBefore") ->
            key = k ->
            match
              (let filterQuery :=
                 if negb (truthy (obj_get q "metadata.publishedAt"))
                 then obj_set q "metadata.publishedAt" (JObj [])
                 else q in
               match set_prop (obj_get filterQuery "metadata.publishedAt")
                       op value with
               | Normal range =>
                   Normal (obj_set filterQuery "metadata.publishedAt" range)
               | Throw e => Throw e
               end)
            with
            | Normal q' =>
                metadata_filter q' /\ NoDup (keys q')
                /\ (forall f, In f (keys q')
                              <-> In f (keys q) \/ f = target_field key)
                /\ ~ (key = "startTimeRange"
                      /\ (value = JUndefined \/ value = JNull))
            | Throw e =>
                e = destructure_error
                /\ key = "startTimeRange"
                /\ (value = JUndefined \/ value = JNull)
            end) as Hdate.
  { intros op Hop k Hk ->.
    assert (target_field k = "metadata.publishedAt") as Ht.
    { by destruct Hk as [->| ->]. }
    assert (~ (k = "startTimeRange" /\ (value = JUndefined \/ value = JNull)))
      as Hnot.
    { intros [-> _]. by destruct Hk. }
    destruct (metadata_filter_get q "metadata.publishedAt" Hq)
      as [E|(ops & E & Hops)]; rewrite E; cbn [truthy negb]; cbv zeta.
    - rewrite obj_get_obj_set, String.eqb_refl. cbn [set_prop obj_set].
      split_and!; try done.
      + apply metadata_filter_set; [|done|by constructor].
        apply metadata_filter_set; [done..|constructor].
      + by do 2 apply NoDup_obj_set.
      + intros f. rewrite !keys_obj_set_iff, Ht. tauto.
    - rewrite E. cbn [set_prop]. split_and!; try done.
      + apply metadata_filter_set; [done..|]. by apply Forall_obj_set.
      + by apply NoDup_obj_set.
      + intros f. rewrite keys_obj_set_iff, Ht. tauto. }
  assert (In "$eq" filter_operators) as Heq by (simpl; tauto).
  assert (In "$gte" filter_operators) as Hgte by (simpl; tauto).
  assert (In "$lte" filter_operators) as Hlte by (simpl; tauto).
  destruct (target_field_cases key)
    as [[-> Ht]|[[-> Ht]|[[-> Ht]|(H1 & H2 & H3 & Ht)]]].
  - apply (Hdate "$gte" Hgte "publishedAfter"); auto.
  - apply (Hdate "$lte" Hlte "publishedBefore"); auto.
  - unfold filter_entry. cbn [String.eqb Ascii.eqb Bool.eqb orb andb].
    destruct value as [| |b|n|s|o];
      try (split_and!; [reflexivity|reflexivity|tauto]);
      (apply Hset; [reflexivity| |by rewrite Ht|intros [_ [?|?]]; done]);
      repeat match goal with
             | |- context [if ?c then _ else _] => destruct c
             end;
      repeat apply Forall_obj_set; try done; by constructor.
  - apply eqb_eq_false in H1 as E1, H2 as E2, H3 as E3.
    assert (filter_entry q (key, value)
            = Normal (obj_set q ("metadata." ++ key) (JObj [("$eq", value)])))
      as ->.
    { unfold filter_entry. rewrite E1, E2, E3. cbn [orb].
      by destruct (String.eqb key "videoId" || String.eqb key "playlistId"). }
    apply Hset; [apply metadata_prefix|by repeat constructor|by rewrite Ht|].
    intros [? _]. done.
Qed.

Lemma range_missing_cons key value rest :
  range_missing ((key, value) :: rest)
  <-> (key = "startTimeRange" /\ (value = JUndefined \/ value = JNull))
      \/ range_missing rest.
Proof.
  unfold range_missing. split.
  - intros (v & [H|H] & Hv).
    + simplify_eq. by left.
    + right. by exists v.
  - intros [[-> Hv]|(v & H & Hv)].
    + exists value. split; [by left|done].
    + exists v. split; [by right|done].
Qed.

Lemma filter_entries_invariant entries q :
  metadata_filter q -> NoDup (keys q) ->
  match filter_entries entries q with
  | Normal q' =>
      metadata_filter q' /\ NoDup (keys q')
      /\ (forall f, In f (keys q') <->
                    In f (keys q)
                    \/ exists key, In key (keys entries) /\ target_field key = f)
      /\ ~ range_missing entries
  | Throw e => e = destructure_error /\ range_missing entries
  end.
Proof.
  revert q. induction entries as [|[key value] rest IH]; intros q Hq Hnd.
  - simpl. split_and!; try done.
    + intros f. split; [by left|]. intros [?|(k & Hk & _)]; [done|destruct Hk].
    + intros (v & Hv & _). destruct Hv.
  - cbn [filter_entries].
    pose proof (filter_entry_invariant q key value Hq Hnd) as Hstep.
    destruct (filter_entry q (key, value)) as [q1|e].
    + destruct Hstep as (Hq1 & Hnd1 & Hk1 & Hv1).
      specialize (IH q1 Hq1 Hnd1).
      destruct (filter_entries rest q1) as [q'|e].
      * destruct IH as (Hq' & Hnd' & Hk' & Hv').
        split_and!; try done.
        -- intros f. rewrite Hk', Hk1. cbn [keys map fst]. split.
           ++ intros [[?| ->]|(k & Hk & <-)]; [by left| |].
              ** right. exists key. split; [by left|done].
              ** right. exists k. split; [by right|done].
           ++ intros [?|(k & [<-|Hk] & <-)]; [by left; left|by left; right|].
              right. by exists k.
        -- rewrite range_missing_cons. tauto.
      * destruct IH as [-> Hv']. split; [done|].
        rewrite range_missing_cons. tauto.
    + destruct Hstep as (-> & Hk & Hv). split; [done|].
      rewrite range_missing_cons. tauto.
Qed.

(** *** Reading a filter document *)

Lemma is_operator_filter_operators op :
  In op filter_operators -> is_operator op = true.
Proof. intros [<-|[<-|[<-|[]]]]; reflexivity. Qed.

Lemma field_predicates_ops f ops :
  Forall (fun op : string * JsValue => In (fst op) filter_operators) ops ->
  field_predicates (f, JObj ops)
  = map (fun op => (f, fst op, snd op)) (readings ops).
Proof.
  intros Hops. unfold field_predicates. cbn [snd fst].
  destruct ops as [|[k x] ops]; [reflexivity|].
  apply Forall_cons in Hops as [Hk _].
  by rewrite (is_operator_filter_operators k Hk).
Qed.

Lemma field_predicates_field f v p :
  In p (field_predicates (f, v)) -> fst (fst p) = f.
Proof.
  unfold field_predicates. cbn [snd fst].
  assert (In p [(f, "$eq", v)] -> fst (fst p) = f) as Heq.
  { by intros [<-|[]]. }
  destruct v as [| |b|n|s|[|[k x] ops]]; try exact Heq.
  destruct (is_operator k); [|exact Heq].
  intros Hin. by apply in_map_iff in Hin as (op & <- & _).
Qed.

Lemma query_predicates_field q p :
  In p (query_predicates q) -> In (fst (fst p)) (keys q).
Proof.
  unfold query_predicates. intros Hin.
  apply in_flat_map in Hin as ([f v] & Hf & Hp).
  apply field_predicates_field in Hp. rewrite Hp.
  change f with (fst (f, v)). by apply in_map.
Qed.

Lemma query_predicates_split q1 f v q2 p :
  In p (query_predicates (q1 ++ (f, v) :: q2)) <->
  In p (query_predicates q1) \/ In p (field_predicates (f, v))
  \/ In p (query_predicates q2).
Proof.
  rewrite query_predicates_app, in_app_iff.
  unfold query_predicates at 2. cbn [flat_map]. by rewrite in_app_iff.
Qed.

(** Assigning a field replaces the predicates of that field. *)
Lemma preds_obj_set q g v p :
  NoDup (keys q) ->
  In p (query_predicates (obj_set q g v)) <->
  (In p (query_predicates q) /\ fst (fst p) <> g)
  \/ In p (field_predicates (g, v)).
Proof.
  intros Hnd.
  destruct (in_dec String.string_dec g (keys q)) as [Hin|Hout].
  - destruct (obj_split q g Hin) as (q1 & v0 & q2 & Hq & Hk1 & _ & Hset).
    rewrite Hset, Hq, !query_predicates_split.
    rewrite Hq, keys_app in Hnd. cbn [keys map fst] in Hnd.
    apply NoDup_app in Hnd as (_ & Hdis & Hnd2).
    apply NoDup_cons in Hnd2 as [Hk2 _].
    rewrite list_elem_of_In in Hk2.
    assert (forall l, ~ In g (keys l) -> In p (query_predicates l) ->
                      fst (fst p) <> g) as Hother.
    { intros l Hl Hp Heq. apply Hl. rewrite <- Heq.
      by apply query_predicates_field. }
    split.
    + intros [H|[H|H]]; [left|by right|left].
      * split; [by left|by apply (Hother q1)].
      * split; [right; by right|by apply (Hother q2)].
    + intros [[[H|[H|H]] Hne]|H]; [by left| |right; by right|right; by left].
      by apply field_predicates_field in H.
  - rewrite obj_set_fresh by done.
    rewrite query_predicates_app, in_app_iff.
    unfold query_predicates at 2. cbn [flat_map]. rewrite app_nil_r.
    split.
    + intros [H|H]; [left|by right]. split; [done|].
      intros Heq. apply Hout. rewrite <- Heq. by apply query_predicates_field.
    + intros [[H _]|H]; [by left|by right].
Qed.

Lemma obj_get_present (q : JsObject) f :
  In f (keys q) -> In (f, obj_get q f) q.
Proof.
  unfold keys. induction q as [|[k0 v0] q IH]; simpl; [done|].
  case_eqb f k0; [subst; by left|].
  intros [?|?]; [congruence|right; by apply IH].
Qed.

(** The predicates on one field of a filter document. *)
Lemma preds_at q f ops o x :
  NoDup (keys q) -> In (f, JObj ops) q ->
  Forall (fun op : string * JsValue => In (fst op) filter_operators) ops ->
  In (f, o, x) (query_predicates q) <-> In (o, x) (readings ops).
Proof.
  intros Hnd Hin Hops.
  apply in_split in Hin as (q1 & q2 & ->).
  rewrite query_predicates_split.
  rewrite keys_app in Hnd. cbn [keys map fst] in Hnd.
  apply NoDup_app in Hnd as (_ & Hdis & Hnd2).
  apply NoDup_cons in Hnd2 as [Hk2 _].
  rewrite list_elem_of_In in Hk2.
  rewrite field_predicates_ops by done.
  split.
  - intros [H|[H|H]].
    + apply query_predicates_field in H. simpl in H. exfalso.
      apply (Hdis f); [by apply list_elem_of_In|]. by left.
    + apply in_map_iff in H as ([o' x'] & [= <- <-] & H). exact H.
    + apply query_predicates_field in H. simpl in H. tauto.
  - intros H. right. left.
    apply in_map_iff. exists (o, x). by split.
Qed.

Lemma obj_set_In (ops : JsObject) op value o x :
  NoDup (keys ops) ->
  In (o, x) (obj_set ops op value) <->
  (In (o, x) ops /\ o <> op) \/ (o = op /\ x = value).
Proof.
  unfold keys. induction ops as [|[k0 v0] ops IH]; simpl; intros Hnd.
  - split; [intros [[= <- <-]|[]]; by right|].
    intros [[[] _]|[-> ->]]. by left.
  - apply NoDup_cons in Hnd as [Hk Hnd]. rewrite list_elem_of_In in Hk.
    case_eqb op k0.
    + subst k0. simpl. split.
      * intros [[= <- <-]|H]; [by right|left].
        split; [by right|]. intros ->. apply Hk.
        change op with (fst (op, x)). by apply in_map.
      * intros [[[[= <- <-]|H] Hne]|[-> ->]]; [done|by right|by left].
    + simpl. rewrite IH by done. split.
      * intros [[= <- <-]|[[H Hne]|H]]; [|left; split; [by right|done]|by right].
        left. split; [by left|]. congruence.
      * intros [[[[= <- <-]|H] Hne]|H]; [by left| |right; by right].
        right. left. done.
Qed.

Lemma obj_set_twice (q : JsObject) f v v' :
  obj_set (obj_set q f v) f v' = obj_set q f v'.
Proof.
  induction q as [|[k0 v0] q IH]; simpl.
  - by rewrite String.eqb_refl.
  - case_eqb f k0; simpl.
    + by rewrite String.eqb_refl.
    + apply eqb_eq_false in E. rewrite E. by rewrite IH.
Qed.

Lemma readings_nonempty (ops : JsObject) : ops <> [] -> readings ops = ops.
Proof. by destruct ops. Qed.

Lemma obj_set_nonempty (ops : JsObject) k v : obj_set ops k v <> [].
Proof. destruct ops as [|[k0 v0] ops]; simpl; [done|]. by destruct (String.eqb k k0). Qed.

(** *** One pass of the loop *)

Lemma filter_document_set q f ops :
  filter_document q ->
  NoDup (keys ops) ->
  Forall (fun op : string * JsValue => In (fst op) filter_operators) ops ->
  (ops = [] -> f = "metadata.startTime") ->
  filter_document (obj_set q f (JObj ops)).
Proof.
  intros [Hnd Hq] Hn Hops He. split.
  - by apply NoDup_obj_set.
  - apply Forall_obj_set; [done|]. exists ops. by split_and!.
Qed.

Lemma filter_document_get q f :
  filter_document q ->
  (~ In f (keys q) /\ obj_get q f = JUndefined)
  \/ exists ops,
       In (f, JObj ops) q /\ obj_get q f = JObj ops
       /\ NoDup (keys ops)
       /\ Forall (fun op : string * JsValue => In (fst op) filter_operators) ops
       /\ (ops = [] -> f = "metadata.startTime").
Proof.
  intros [Hnd Hq].
  destruct (in_dec String.string_dec f (keys q)) as [Hin|Hout].
  - right. apply obj_get_present in Hin.
    rewrite Forall_forall in Hq.
    destruct (Hq _ (proj2 (list_elem_of_In _ _) Hin))
      as (ops & Hv & Hn & Hops & He).
    simpl in Hv, He. rewrite Hv in Hin. exists ops. by split_and!.
  - left. split; [done|]. by apply obj_get_fresh.
Qed.

(** A key that is written as an equality, or as a range, replaces its
    field. *)
Lemma assign_effect q key value ops :
  filter_document q ->
  key <> "publishedAfter" -> key <> "publishedBefore" ->
  NoDup (keys ops) ->
  Forall (fun op : string * JsValue => In (fst op) filter_operators) ops ->
  (ops = [] -> target_field key = "metadata.startTime") ->
  field_predicates (target_field key, JObj ops)
  = code_entry_predicates (key, value) ->
  filter_document (obj_set q (target_field key) (JObj ops))
  /\ forall p,
       In p (query_predicates (obj_set q (target_field key) (JObj ops))) <->
       (In p (query_predicates q) /\ ~ overwrites key p)
       \/ In p (code_entry_predicates (key, value)).
Proof.
  intros Hq H1 H2 Hn Hops He Hcode. split.
  - by apply filter_document_set.
  - intros p. rewrite preds_obj_set by apply Hq. rewrite Hcode.
    unfold overwrites. apply eqb_eq_false in H1, H2. by rewrite H1, H2.
Qed.

(** A date bound is added to the object on [metadata.publishedAt]. *)
Lemma date_effect q key op value :
  (key = "publishedAfter" /\ op = "$gte")
  \/ (key = "publishedBefore" /\ op = "$lte") ->
  filter_document q ->
  exists q',
    filter_entry q (key, value) = Normal q'
    /\ filter_document q'
    /\ forall p,
         In p (query_predicates q') <->
         (In p (query_predicates q) /\ ~ overwrites key p)
         \/ In p (code_entry_predicates (key, value)).
Proof.
  intros Hkey Hq.
  assert (In op filter_operators) as Hop.
  { destruct Hkey as [[_ ->]|[_ ->]]; simpl; tauto. }
  assert (code_entry_predicates (key, value)
          = [("metadata.publishedAt", op, value)]) as ->.
  { by destruct Hkey as [[-> ->]|[-> ->]]. }
  assert (forall p, overwrites key p <->
                    fst (fst p) = "metadata.publishedAt" /\ snd (fst p) = op)
    as Hover.
  { intros p. by destruct Hkey as [[-> ->]|[-> ->]]. }
  assert (filter_entry q (key, value)
          = let q0 := if negb (truthy (obj_get q "metadata.publishedAt"))
                      then obj_set q "metadata.publishedAt" (JObj [])
                      else q in
            match set_prop (obj_get q0 "metadata.publishedAt") op value with
            | Normal range => Normal (obj_set q0 "metadata.publishedAt" range)
            | Throw e => Throw e
            end) as ->.
  { by destruct Hkey as [[-> ->]|[-> ->]]. }
  clear Hkey. cbv zeta.
  assert (forall ops0,
            NoDup (keys ops0) ->
            Forall (fun op : string * JsValue => In (fst op) filter_operators)
              ops0 ->
            (forall o x, In ("metadata.publishedAt", o, x) (query_predicates q)
                         <-> In (o, x) ops0) ->
            filter_document
              (obj_set q "metadata.publishedAt" (JObj (obj_set ops0 op value)))
            /\ forall p,
                 In p (query_predicates
                         (obj_set q "metadata.publishedAt"
                            (JObj (obj_set ops0 op value)))) <->
                 (In p (query_predicates q) /\ ~ overwrites key p)
                 \/ In p [("metadata.publishedAt", op, value)]) as Hadd.
  { intros ops0 Hn0 Hops0 Hat. split.
    - apply filter_document_set; [done| | |].
      + by apply NoDup_obj_set.
      + by apply Forall_obj_set.
      + intros He. by apply obj_set_nonempty in He.
    - intros [[f o] x]. rewrite preds_obj_set by apply Hq.
      rewrite field_predicates_ops by (by apply Forall_obj_set).
      rewrite readings_nonempty by apply obj_set_nonempty.
      rewrite Hover. cbn [fst snd]. split.
      + intros [[Hp Hne]|Hp].
        * left. split; [done|]. tauto.
        * apply in_map_iff in Hp as ([o' x'] & [= <- <- <-] & Hp).
          apply obj_set_In in Hp as [[Hp Hne]|[-> ->]]; [|right; by left|done].
          left. split; [by apply Hat|]. tauto.
      + intros [[Hp Hne]|[[= <- <- <-]|[]]].
        * destruct (String.string_dec f "metadata.publishedAt") as [->|Hf];
            [|by left].
          right. apply in_map_iff. exists (o, x). split; [done|].
          apply obj_set_In; [done|]. left. split; [by apply Hat|]. tauto.
        * right. apply in_map_iff. exists (op, value). split; [done|].
          apply obj_set_In; [done|]. by right. }
  destruct (filter_document_get q "metadata.publishedAt" Hq)
    as [[Hout Hget]|(ops & Hin & Hget & Hn & Hops & He)].
  - rewrite Hget. cbn [truthy negb].
    rewrite obj_get_obj_set, String.eqb_refl. cbn [set_prop].
    rewrite obj_set_twice.
    eexists. split; [reflexivity|].
    apply (Hadd []); [constructor|constructor|].
    intros o x. split; [|done]. intros Hp.
    apply query_predicates_field in Hp. simpl in Hp. tauto.
  - rewrite Hget. cbn [truthy negb]. rewrite Hget. cbn [set_prop].
    eexists. split; [reflexivity|].
    apply (Hadd ops); [done|done|].
    intros o x. rewrite (preds_at q _ ops) by (done || apply Hq).
    rewrite readings_nonempty; [done|]. intros ->. by specialize (He eq_refl).
Qed.

(** The operators written for [startTimeRange]. *)
Lemma range_effect value :
  value <> JUndefined -> value <> JNull ->
  exists range,
    (forall q,
       filter_entry q ("startTimeRange", value)
       = Normal (obj_set q "metadata.startTime" (JObj range)))
    /\ NoDup (keys range)
    /\ Forall (fun op : string * JsValue => In (fst op) filter_operators) range
    /\ field_predicates ("metadata.startTime", JObj range)
       = code_entry_predicates ("startTimeRange", value).
Proof.
  intros Hu Hn.
  exists (if negb (is_undefined (get_prop value "max"))
          then obj_set
                 (if negb (is_undefined (get_prop value "min"))
                  then [("$gte", get_prop value "min")] else [])
                 "$lte" (get_prop value "max")
          else if negb (is_undefined (get_prop value "min"))
               then [("$gte", get_prop value "min")] else []).
  split_and!.
  - intros q. unfold filter_entry. simpl. by destruct value.
  - destruct (is_undefined (get_prop value "min"));
      destruct (is_undefined (get_prop value "max")); simpl;
      apply (bool_decide_unpack _); vm_compute; reflexivity.
  - destruct (is_undefined (get_prop value "min"));
      destruct (is_undefined (get_prop value "max")); simpl;
      repeat constructor; simpl; tauto.
  - unfold code_entry_predicates, has_bound, spec_entry_predicates.
    cbn [fst snd String.eqb Ascii.eqb Bool.eqb andb].
    destruct (is_undefined (get_prop value "min"));
      destruct (is_undefined (get_prop value "max")); reflexivity.
Qed.

(** One pass of the loop: the predicates it removes and the ones it
    writes. *)
Lemma filter_entry_effect q key value :
  filter_document q ->
  (key = "startTimeRange" -> value <> JUndefined /\ value <> JNull) ->
  exists q',
    filter_entry q (key, value) = Normal q'
    /\ filter_document q'
    /\ forall p,
         In p (query_predicates q') <->
         (In p (query_predicates q) /\ ~ overwrites key p)
         \/ In p (code_entry_predicates (key, value)).
Proof.
  intros Hq Hrange.
  destruct (target_field_cases key)
    as [[-> Ht]|[[-> Ht]|[[-> Ht]|(H1 & H2 & H3 & Ht)]]].
  - apply (date_effect q "publishedAfter" "$gte"); auto.
  - apply (date_effect q "publishedBefore" "$lte"); auto.
  - destruct (Hrange eq_refl) as [Hu Hn].
    destruct (range_effect value Hu Hn) as (range & E & Hnd & Hops & Hcode).
    exists (obj_set q "metadata.startTime" (JObj range)).
    split; [apply E|]. rewrite <- Ht.
    apply assign_effect; done.
  - assert (filter_entry q (key, value)
            = Normal (obj_set q (target_field key) (JObj [("$eq", value)])))
      as ->.
    { apply eqb_eq_false in H1 as E1, H2 as E2, H3 as E3.
      unfold filter_entry. rewrite E1, E2, E3, Ht. cbn [orb].
      by destruct (String.eqb key "videoId" || String.eqb key "playlistId"). }
    eexists. split; [reflexivity|].
    apply assign_effect; try done.
    + apply NoDup_singleton.
    + constructor; [simpl; tauto|constructor].
    + apply eqb_eq_false in H1 as E1, H2 as E2, H3 as E3.
      unfold code_entry_predicates, spec_entry_predicates.
      cbn [fst snd]. rewrite E1, E2, E3, Ht. cbn [andb].
      case_eqb key "videoId"; [by subst|].
      case_eqb key "playlistId"; [by subst|]. reflexivity.
Qed.

(** *** The loop *)

(** What the filter document holds in the end: a predicate written by some
    pass and removed by no later one. *)
Lemma filter_entries_effect filters q :
  filter_document q ->
  (forall v, In ("startTimeRange", v) filters -> v <> JUndefined /\ v <> JNull) ->
  exists q',
    filter_entries filters q = Normal q'
    /\ filter_document q'
    /\ forall p,
         In p (query_predicates q') <->
         (In p (query_predicates q)
          /\ forall key, In key (keys filters) -> ~ overwrites key p)
         \/ exists l1 e l2,
              filters = l1 ++ e :: l2
              /\ In p (code_entry_predicates e)
              /\ forall key, In key (keys l2) -> ~ overwrites key p.
Proof.
  revert q. induction filters as [|[key value] rest IH]; intros q Hq Hrange.
  - exists q. split; [done|]. split; [done|]. intros p. split.
    + intros Hp. left. split; [done|]. by intros key [].
    + intros [[Hp _]|(l1 & e & l2 & Heq & _)]; [done|].
      by destruct l1.
  - destruct (filter_entry_effect q key value Hq) as (q1 & E1 & Hq1 & Hp1).
    { intros ->. apply Hrange. by left. }
    destruct (IH q1 Hq1) as (q' & E' & Hq' & Hp').
    { intros v Hv. apply Hrange. by right. }
    exists q'. cbn [filter_entries]. rewrite E1. split; [exact E'|].
    split; [exact Hq'|]. intros p. rewrite Hp', Hp1. cbn [keys map fst].
    split.
    + intros [[[[Hp Hk]|Hp] Hrest]|(l1 & e & l2 & -> & Hp & Hl2)].
      * left. split; [done|]. intros k [<-|Hk']; [done|by apply Hrest].
      * right. exists [], (key, value), rest. by split_and!.
      * right. exists ((key, value) :: l1), e, l2. by split_and!.
    + intros [[Hp Hall]|(l1 & e & l2 & Heq & Hp & Hl2)].
      * left. split.
        -- left. split; [done|]. apply Hall. by left.
        -- intros k Hk. apply Hall. by right.
      * destruct l1 as [|e1 l1]; simpl in Heq.
        -- injection Heq as <- <-. left. split; [by right|done].
        -- injection Heq as <- ->. right. by exists l1, e, l2.
Qed.

(** *** Which pass removes what another has written *)

Lemma code_entry_shape key value f op x :
  In (f, op, x) (code_entry_predicates (key, value)) ->
  f = target_field key
  /\ ((op = "$gte" /\ (key = "publishedAfter" \/ key = "startTimeRange"))
      \/ (op = "$lte" /\ (key = "publishedBefore" \/ key = "startTimeRange"))
      \/ (op = "$eq" /\ key <> "publishedAfter" /\ key <> "publishedBefore"
          /\ (key = "startTimeRange" -> has_bound value = false))).
Proof.
  unfold code_entry_predicates. cbn [fst snd].
  case_eqb key "startTimeRange".
  - subst key. destruct (has_bound value) eqn:Hb; cbn [negb andb].
    + intros H. apply spec_entry_shape in H as [Hf Hop].
      split; [done|]. destruct Hop as [?|[?|(_ & _ & _ & ?)]]; tauto.
    + intros [[= <- <- <-]|[]]. split; [done|]. right. right. by split_and!.
  - cbn [andb]. intros H. apply spec_entry_shape in H as [Hf Hop].
    split; [done|]. destruct Hop as [?|[?|(? & ? & ? & ?)]]; [tauto|tauto|].
    right. right. by split_and!.
Qed.

(** A pass removes what the pass of another key has written only where two
    keys are written to one field: [publishedAt] over a date bound,
    [startTime] over [startTimeRange], [startTimeRange] over [startTime]. *)
Lemma overwrites_clash key value k' p :
  In p (code_entry_predicates (key, value)) -> overwrites k' p -> k' <> key ->
  (k' = "publishedAt" /\ (key = "publishedAfter" \/ key = "publishedBefore"))
  \/ (k' = "startTime" /\ key = "startTimeRange")
  \/ (k' = "startTimeRange" /\ key = "startTime").
Proof.
  destruct p as [[f op] x]. intros Hp Hov Hne.
  apply code_entry_shape in Hp as [Hf Hop].
  unfold overwrites in Hov. cbn [fst snd] in Hov.
  case_eqb k' "publishedAfter".
  { subst k'. destruct Hov as [-> ->]. exfalso.
    destruct Hop as [[_ [->| ->]]|[[? _]|[? _]]]; try done. }
  case_eqb k' "publishedBefore".
  { subst k'. destruct Hov as [-> ->]. exfalso.
    destruct Hop as [[? _]|[[_ [->| ->]]|[? _]]]; try done. }
  subst f.
  destruct (target_field_cases k')
    as [[-> _]|[[-> _]|[[-> Ht']|(_ & _ & H3' & Ht')]]]; try done;
    destruct (target_field_cases key)
      as [[-> Ht]|[[-> Ht]|[[-> Ht]|(_ & _ & H3 & Ht)]]];
    rewrite ?Ht, ?Ht' in Hov; try discriminate Hov; try done.
  - apply (metadata_inj key "startTime") in Hov. subst key. tauto.
  - apply (metadata_inj "publishedAt" k') in Hov. subst k'. tauto.
  - apply (metadata_inj "publishedAt" k') in Hov. subst k'. tauto.
  - apply (metadata_inj "startTime" k') in Hov. subst k'. tauto.
  - apply metadata_inj in Hov. congruence.
Qed.

Lemma overwrites_target key f op x :
  key <> "publishedAfter" -> key <> "publishedBefore" ->
  f = target_field key -> overwrites key (f, op, x).
Proof.
  intros H1 H2 ->. apply eqb_eq_false in H1, H2.
  unfold overwrites. by rewrite H1, H2.
Qed.

(** Only [startTime] and [startTimeRange] remove a predicate on
    [metadata.startTime]. *)
Lemma overwrites_start_time key op x :
  overwrites key ("metadata.startTime", op, x) ->
  key = "startTime" \/ key = "startTimeRange".
Proof.
  unfold overwrites. cbn [fst snd].
  case_eqb key "publishedAfter"; [by intros [? _]|].
  case_eqb key "publishedBefore"; [by intros [? _]|].
  destruct (target_field_cases key)
    as [[-> _]|[[-> _]|[[-> Ht]|(_ & _ & _ & Ht)]]]; try done; rewrite Ht.
  - by right.
  - intros H. apply (metadata_inj "startTime" key) in H. by left.
Qed.

Lemma overwrites_dec key p : overwrites key p \/ ~ overwrites key p.
Proof.
  unfold overwrites.
  destruct (String.eqb key "publishedAfter");
    [|destruct (String.eqb key "publishedBefore")].
  - destruct (String.string_dec (fst (fst p)) "metadata.publishedAt");
      destruct (String.string_dec (snd (fst p)) "$gte"); tauto.
  - destruct (String.string_dec (fst (fst p)) "metadata.publishedAt");
      destruct (String.string_dec (snd (fst p)) "$lte"); tauto.
  - destruct (String.string_dec (fst (fst p)) (target_field key)); tauto.
Qed.

(** A predicate is removed by a later pass, or by none. *)
Lemma later_overwrite (l : Filters) p :
  (forall key, In key (keys l) -> ~ overwrites key p)
  \/ (exists key, In key (keys l) /\ overwrites key p).
Proof.
  induction l as [|[k v] l IH]; [left; by intros key []|].
  destruct (overwrites_dec k p) as [Hk|Hk].
  - right. exists k. split; [by left|done].
  - destruct IH as [IH|(key & Hin & Hov)].
    + left. intros key [<-|Hin]; [done|by apply IH].
    + right. exists key. split; [by right|done].
Qed.

(** *** Positions of keys *)

Lemma keys_split (l1 l2 : Filters) key value :
  NoDup (keys (l1 ++ (key, value) :: l2)) ->
  ~ In key (keys l1) /\ ~ In key (keys l2) /\ NoDup (keys l1) /\ NoDup (keys l2)
  /\ forall k, In k (keys l1) -> ~ In k (keys l2).
Proof.
  rewrite keys_app. cbn [keys map fst]. intros Hnd.
  apply NoDup_app in Hnd as (Hn1 & Hdis & Hnd).
  apply NoDup_cons in Hnd as [Hk Hn2].
  rewrite list_elem_of_In in Hk. split_and!; try done.
  - intros Hin. apply (Hdis key); [by apply list_elem_of_In|]. by left.
  - intros k Hk1 Hk2. apply (Hdis k); [by apply list_elem_of_In|].
    right. by apply list_elem_of_In.
Qed.

(** A key stands at one place. *)
Lemma key_position (l1 l2 m1 m2 : Filters) key v v' :
  NoDup (keys (l1 ++ (key, v) :: l2)) ->
  l1 ++ (key, v) :: l2 = m1 ++ (key, v') :: m2 ->
  l1 = m1 /\ v = v' /\ l2 = m2.
Proof.
  revert m1. induction l1 as [|[k0 v0] l1 IH]; intros m1 Hnd Heq.
  - destruct m1 as [|[k1 v1] m1]; simpl in Heq.
    + by injection Heq as <- <-.
    + injection Heq as <- <- ->. exfalso.
      apply (keys_split [] _ key v) in Hnd as (_ & Hout & _).
      apply Hout. rewrite keys_app. apply in_or_app. right. by left.
  - destruct m1 as [|[k1 v1] m1]; simpl in Heq.
    + injection Heq as -> -> <-. exfalso.
      cbn [app keys map fst] in Hnd. apply NoDup_cons in Hnd as [Hk _].
      apply Hk, list_elem_of_In.
      change (In key (keys (l1 ++ (key, v) :: l2))).
      rewrite keys_app. apply in_or_app. right. by left.
    + injection Heq as <- <- Heq.
      cbn [app keys map fst] in Hnd. apply NoDup_cons in Hnd as [_ Hnd].
      destruct (IH m1 Hnd Heq) as (-> & -> & ->). done.
Qed.

Lemma key_value (l : Filters) key v v' :
  NoDup (keys l) -> In (key, v) l -> In (key, v') l -> v = v'.
Proof.
  intros Hnd H1 H2.
  apply in_split in H1 as (l1 & l2 & ->).
  apply in_split in H2 as (m1 & m2 & Heq).
  by destruct (key_position _ _ _ _ _ _ _ Hnd Heq) as (_ & ? & _).
Qed.

Lemma listed_before_split (l1 l2 : Filters) a va b :
  NoDup (keys (l1 ++ (a, va) :: l2)) ->
  listed_before a b (l1 ++ (a, va) :: l2) <-> In b (keys l2).
Proof.
  intros Hnd. split.
  - intros (m1 & v' & m2 & Heq & Hb).
    by destruct (key_position _ _ _ _ _ _ _ Hnd Heq) as (_ & _ & ->).
  - intros Hb. by exists l1, va, l2.
Qed.

(** *** The translation *)

Lemma not_range_missing filters :
  ~ range_missing filters ->
  forall v, In ("startTimeRange", v) filters -> v <> JUndefined /\ v <> JNull.
Proof.
  intros Hno v Hv. split; intros ->; apply Hno; eexists; eauto.
Qed.

(** The predicates of the filter document built for filters that can be
    destructured. *)
Lemma buildFilterQuery_predicates filters :
  (forall v, In ("startTimeRange", v) filters -> v <> JUndefined /\ v <> JNull) ->
  exists q,
    buildFilterQuery filters = Normal q
    /\ NoDup (keys q)
    /\ forall p,
         In p (query_predicates q) <->
         exists l1 e l2,
           filters = l1 ++ e :: l2
           /\ In p (code_entry_predicates e)
           /\ forall key, In key (keys l2) -> ~ overwrites key p.
Proof.
  intros Hrange.
  destruct (filter_entries_effect filters []) as (q & E & [Hnd _] & Hp).
  { split; constructor. }
  { exact Hrange. }
  exists q. split; [exact E|]. split; [exact Hnd|].
  intros p. rewrite Hp. split; [|by right]. by intros [[[] _]|H].
Qed.

Lemma spec_predicates_In filters p :
  In p (spec_predicates filters)
  <-> exists entry, In entry filters /\ In p (spec_entry_predicates entry).
Proof. unfold spec_predicates. apply in_flat_map. Qed.

Lemma code_is_spec key value :
  ~ (key = "startTimeRange" /\ has_bound value = false) ->
  code_entry_predicates (key, value) = spec_entry_predicates (key, value).
Proof.
  intros H. unfold code_entry_predicates. cbn [fst snd].
  case_eqb key "startTimeRange"; [|done].
  destruct (has_bound value); [done|tauto].
Qed.

Lemma spec_unbounded value :
  has_bound value = false ->
  spec_entry_predicates ("startTimeRange", value) = [].
Proof.
  unfold has_bound, spec_entry_predicates.
  cbn [String.eqb Ascii.eqb Bool.eqb].
  destruct (is_undefined (get_prop value "min"));
    destruct (is_undefined (get_prop value "max")); done.
Qed.

Lemma spec_bounded value :
  has_bound value = true ->
  exists op x,
    In ("metadata.startTime", op, x)
      (spec_entry_predicates ("startTimeRange", value))
    /\ (op = "$gte" \/ op = "$lte").
Proof.
  unfold has_bound, spec_entry_predicates.
  cbn [String.eqb Ascii.eqb Bool.eqb].
  destruct (is_undefined (get_prop value "min")).
  - destruct (is_undefined (get_prop value "max")); [done|].
    intros _. eexists _, _. split; [by left|by right].
  - intros _. eexists _, _. split; [by left|by left].
Qed.

Lemma spec_equality key value :
  key <> "publishedAfter" -> key <> "publishedBefore" ->
  key <> "startTimeRange" ->
  spec_entry_predicates (key, value) = [(target_field key, "$eq", value)].
Proof.
  intros H1 H2 H3. rewrite target_field_other by done.
  apply eqb_eq_false in H1, H2, H3.
  unfold spec_entry_predicates. rewrite H1, H2, H3.
  case_eqb key "videoId"; [by subst|].
  case_eqb key "playlistId"; [by subst|]. done.
Qed.

(** Filters that are translatable are translated. *)
Lemma translatable_translated filters :
  NoDup (keys filters) -> translatable filters ->
  exists q,
    buildFilterQuery filters = Normal q
    /\ NoDup (keys q)
    /\ forall p, In p (query_predicates q) <-> In p (spec_predicates filters).
Proof.
  intros Hnd [[HdA HdB] Hstart].
  destruct (buildFilterQuery_predicates filters) as (q & E & Hn & Hp).
  { intros v Hv. destruct (Hstart v Hv) as (? & ? & _). done. }
  exists q. split; [exact E|]. split; [exact Hn|].
  intros p. rewrite Hp, spec_predicates_In. split.
  - intros (l1 & [key value] & l2 & -> & Hcode & Hlater).
    destruct (String.string_dec key "startTimeRange") as [->|Hkey].
    + destruct (has_bound value) eqn:Hb.
      * exists ("startTimeRange", value). split.
        -- apply in_or_app. right. by left.
        -- rewrite <- code_is_spec; [done|]. intros [_ ?]. congruence.
      * destruct (Hstart value) as (_ & _ & Hs).
        { apply in_or_app. right. by left. }
        rewrite Hb in Hs.
        unfold code_entry_predicates in Hcode. cbn [fst snd] in Hcode.
        rewrite Hb in Hcode. cbn in Hcode. destruct Hcode as [<-|[]].
        destruct Hs as [Hs|Hs].
        -- apply listed_before_split in Hs; [|done]. exfalso.
           apply (Hlater "startTime" Hs). by apply overwrites_target.
        -- exists ("startTime", JObj []). split; [done|]. by left.
    + exists (key, value). split.
      * apply in_or_app. right. by left.
      * rewrite <- code_is_spec; [done|]. by intros [? _].
  - intros ([key value] & Hin & Hspec).
    apply in_split in Hin as (l1 & l2 & ->).
    destruct (keys_split _ _ _ _ Hnd) as (Hk1 & Hk2 & _ & _ & Hdis).
    destruct (String.string_dec key "startTimeRange") as [->|Hkey].
    + destruct (has_bound value) eqn:Hb;
        [|by rewrite spec_unbounded in Hspec].
      exists l1, ("startTimeRange", value), l2. split; [done|].
      split; [rewrite code_is_spec; [done|]; intros [_ ?]; congruence|].
      intros k' Hk' Hov.
      assert (In p (code_entry_predicates ("startTimeRange", value))) as Hcode.
      { rewrite code_is_spec; [done|]. intros [_ ?]. congruence. }
      destruct (overwrites_clash _ _ k' p Hcode Hov)
        as [[_ [?|?]]|[[-> _]|[_ ?]]]; try done.
      * intros ->. done.
      * destruct (Hstart value) as (_ & _ & Hs).
        { apply in_or_app. right. by left. }
        rewrite Hb in Hs. apply Hs. rewrite keys_app. apply in_or_app.
        right. by right.
    + assert (In p (code_entry_predicates (key, value))) as Hcode.
      { rewrite code_is_spec; [done|]. by intros [? _]. }
      destruct (later_overwrite l2 p) as [Hfree|(k' & Hk' & Hov)].
      { exists l1, (key, value), l2. done. }
      destruct (overwrites_clash _ _ k' p Hcode Hov)
        as [[-> [->| ->]]|[[_ ->]|[-> ->]]]; try done.
      * intros ->. done.
      * exfalso. apply HdA. by exists l1, value, l2.
      * exfalso. apply HdB. by exists l1, value, l2.
      * (* [startTime] before [startTimeRange] *)
        apply in_map_iff in Hk' as ([k r] & Hk & Hr). simpl in Hk. subst k.
        apply in_split in Hr as (l2a & l2b & ->).
        destruct (Hstart r) as (_ & _ & Hs).
        { apply in_or_app. right. right. apply in_or_app. right. by left. }
        assert (NoDup (keys ((l1 ++ ("startTime", value) :: l2a)
                             ++ ("startTimeRange", r) :: l2b))) as Hnd'.
        { by rewrite <- app_assoc. }
        destruct (keys_split _ _ _ _ Hnd') as (_ & Hr2 & _ & _ & Hdis').
        destruct (has_bound r) eqn:Hb.
        { exfalso. apply Hs. rewrite keys_app. apply in_or_app. right. by left. }
        destruct Hs as [Hs|Hs].
        { exfalso.
          replace (l1 ++ ("startTime", value) :: l2a ++ ("startTimeRange", r) :: l2b)
            with ((l1 ++ ("startTime", value) :: l2a)
                  ++ ("startTimeRange", r) :: l2b) in Hs
            by (by rewrite <- app_assoc).
          apply listed_before_split in Hs; [|done].
          apply (Hdis' "startTime"); [|done].
          rewrite keys_app. apply in_or_app. right. by left. }
        assert (value = JObj []) as ->.
        { apply (key_value _ "startTime" _ _ Hnd); [|done].
          apply in_or_app. right. by left. }
        rewrite spec_equality in Hspec by done.
        destruct Hspec as [<-|[]].
        exists (l1 ++ ("startTime", JObj []) :: l2a), ("startTimeRange", r), l2b.
        split; [by rewrite <- app_assoc|]. split.
        -- unfold code_entry_predicates. cbn [fst snd]. rewrite Hb. by left.
        -- intros k Hk Hovk. apply overwrites_start_time in Hovk as [->| ->].
           ++ apply (Hdis' "startTime"); [|done].
              rewrite keys_app. apply in_or_app. right. by left.
           ++ done.
Qed.

Lemma destructured filters q :
  buildFilterQuery filters = Normal q ->
  forall v, In ("startTimeRange", v) filters -> v <> JUndefined /\ v <> JNull.
Proof.
  intros E. apply not_range_missing.
  pose proof (filter_entries_invariant filters []) as H.
  unfold buildFilterQuery in E. rewrite E in H.
  destruct H as (_ & _ & _ & H); [constructor|constructor|]. exact H.
Qed.

Lemma target_start_time key :
  target_field key = "metadata.startTime" ->
  key = "startTime" \/ key = "startTimeRange".
Proof.
  destruct (target_field_cases key)
    as [[-> Ht]|[[-> Ht]|[[-> Ht]|(_ & _ & _ & Ht)]]]; rewrite Ht; try done.
  - by right.
  - intros H. apply (metadata_inj key "startTime") in H. by left.
Qed.

(** Filters that are translated are translatable. *)
Lemma translated_translatable filters :
  NoDup (keys filters) -> translated filters -> translatable filters.
Proof.
  intros Hnd (q & E & Hq).
  pose proof (destructured filters q E) as Hrange.
  destruct (buildFilterQuery_predicates filters Hrange) as (q' & E' & _ & Hp).
  rewrite E in E'. injection E' as <-.
  assert (forall l1 l2 key value op,
            filters = l1 ++ (key, value) :: l2 ->
            (key = "publishedAfter" /\ op = "$gte")
            \/ (key = "publishedBefore" /\ op = "$lte") ->
            ~ In "publishedAt" (keys l2)) as Hdate.
  { intros l1 l2 key value op Heq Hkey HP.
    assert (In ("metadata.publishedAt", op, value) (spec_predicates filters))
      as Hspec.
    { apply spec_predicates_In. exists (key, value). split.
      - rewrite Heq. apply in_or_app. right. by left.
      - destruct Hkey as [[-> ->]|[-> ->]]; by left. }
    apply Hq, Hp in Hspec as (m1 & [k v] & m2 & Hm & Hcode & Hlater).
    apply code_entry_shape in Hcode as [Hf Hop].
    assert (k = key) as ->.
    { destruct Hkey as [[-> ->]|[-> ->]].
      - destruct Hop as [[_ [->| ->]]|[[? _]|[? _]]]; done.
      - destruct Hop as [[? _]|[[_ [->| ->]]|[? _]]]; done. }
    rewrite Heq in Hnd, Hm.
    destruct (key_position _ _ _ _ _ _ _ Hnd Hm) as (_ & _ & ->).
    apply (Hlater "publishedAt" HP). by apply overwrites_target. }
  split.
  - split; intros (l1 & va & l2 & Heq & HP).
    + apply (Hdate l1 l2 "publishedAfter" va "$gte" Heq); [by left|done].
    + apply (Hdate l1 l2 "publishedBefore" va "$lte" Heq); [by right|done].
  - intros r Hr. destruct (Hrange r Hr) as [Hu Hn].
    split; [done|]. split; [done|].
    apply in_split in Hr as (l1 & l2 & Heq). rewrite Heq in Hnd.
    destruct (keys_split _ _ _ _ Hnd) as (Hr1 & Hr2 & _ & _ & Hdis).
    destruct (has_bound r) eqn:Hb.
    + intros HS. rewrite Heq, keys_app in HS.
      apply in_app_iff in HS as [HS|[HS|HS]]; [|done|].
      * (* [startTime] stands before the range *)
        apply in_map_iff in HS as ([k x] & Hk & Hx). simpl in Hk. subst k.
        apply in_split in Hx as (a & b & ->).
        assert (In ("metadata.startTime", "$eq", x) (spec_predicates filters))
          as Hspec.
        { apply spec_predicates_In. exists ("startTime", x). split.
          - rewrite Heq. apply in_or_app. left. apply in_or_app. right.
            by left.
          - by left. }
        apply Hq, Hp in Hspec as (m1 & [k v] & m2 & Hm & Hcode & Hlater).
        apply code_entry_shape in Hcode as [Hf Hop].
        symmetry in Hf. apply target_start_time in Hf as [->| ->].
        -- rewrite Heq, <- app_assoc in Hm. cbn [app] in Hm.
           rewrite <- app_assoc in Hnd. cbn [app] in Hnd.
           destruct (key_position _ _ _ _ _ _ _ Hnd Hm) as (_ & _ & <-).
           apply (Hlater "startTimeRange").
           ++ rewrite keys_app. apply in_or_app. right. by left.
           ++ by apply overwrites_target.
        -- destruct Hop as [[? _]|[[? _]|(_ & _ & _ & Hv)]]; try done.
           specialize (Hv eq_refl).
           assert (v = r) as ->; [|congruence].
           rewrite Heq in Hm.
           apply (key_value _ "startTimeRange" _ _ Hnd).
           ++ rewrite Hm. apply in_or_app. right. by left.
           ++ apply in_or_app. right. by left.
      * (* [startTime] stands after the range *)
        destruct (spec_bounded r Hb) as (op & x & Hin & Hop').
        assert (In ("metadata.startTime", op, x) (spec_predicates filters))
          as Hspec.
        { apply spec_predicates_In. exists ("startTimeRange", r). split.
          - rewrite Heq. apply in_or_app. right. by left.
          - done. }
        apply Hq, Hp in Hspec as (m1 & [k v] & m2 & Hm & Hcode & Hlater).
        apply code_entry_shape in Hcode as [Hf Hop].
        symmetry in Hf. apply target_start_time in Hf as [->| ->].
        -- destruct Hop' as [->| ->];
             destruct Hop as [[_ [?|?]]|[[_ [?|?]]|[? _]]]; done.
        -- rewrite Heq in Hm.
           destruct (key_position _ _ _ _ _ _ _ Hnd Hm) as (_ & _ & <-).
           apply (Hlater "startTime" HS). by apply overwrites_target.
    + destruct (in_dec String.string_dec "startTime" (keys l2)) as [HS|HS].
      * left. by exists l1, r, l2.
      * right.
        assert (In ("metadata.startTime", "$eq", JObj []) (query_predicates q))
          as Hcode.
        { apply Hp. exists l1, ("startTimeRange", r), l2. split; [done|]. split.
          - unfold code_entry_predicates. cbn [fst snd]. rewrite Hb. by left.
          - intros k Hk Hov. by apply overwrites_start_time in Hov as [->| ->]. }
        apply Hq, spec_predicates_In in Hcode as ([k v] & Hin & Hspec).
        apply spec_entry_shape in Hspec as Hshape.
        destruct Hshape as [Hf Hop]. symmetry in Hf.
        destruct Hop as [[? _]|[[? _]|(_ & H1 & H2 & H3)]]; try done.
        apply target_start_time in Hf as [->| ->]; [|done].
        rewrite spec_equality in Hspec by done.
        destruct Hspec as [[= <-]|[]]. done.
Qed.

(** C7, as amended.  For a filter object (its keys are distinct),
    [buildFilterQuery] returns a filter document whose predicates are those
    of the specification (equality on [metadata.videoId] and
    [metadata.playlistId], inclusive bounds on [metadata.publishedAt] and on
    [metadata.startTime], a bound only when defined, equality on
    [metadata.<key>] for every other key, all of them conjoined) exactly
    when the filters are translatable: [publishedAt] is not listed after
    [publishedAfter] or [publishedBefore], and [startTimeRange], if given, is
    neither [undefined] nor [null] and either has a bound and comes without
    [startTime], or has no bound and is followed by [startTime] or comes with
    [startTime: {}]. *)
Theorem C7_filter_translation (filters : Filters) :
  NoDup (keys filters) ->
  (translatable filters ->
   exists q,
     buildFilterQuery filters = Normal q
     /\ NoDup (keys q)
     /\ (forall p, In p (query_predicates q) <-> In p (spec_predicates filters))
     /\ (forall D (holds : Predicate -> D -> bool) d,
           matches holds (query_predicates q) d
           = matches holds (spec_predicates filters) d))
  /\ (translated filters -> translatable filters).
Proof.
  intros Hnd. split.
  - intros Ht.
    destruct (translatable_translated filters Hnd Ht) as (q & E & Hn & Hp).
    exists q. split_and!; try done.
    intros D holds d. by apply matches_same.
  - by apply translated_translatable.
Qed.

(** C7, witness: the filters of the retrieval layer and one more key; and
    [publishedAt] listed before [publishedAfter]. *)
Lemma C7_filter_translation_witness :
  (exists q,
     buildFilterQuery all_filters = Normal q
     /\ query_predicates q
        = [("metadata.videoId", "$eq", JStr "v1");
           ("metadata.publishedAt", "$gte", JStr "2024-01-01");
           ("metadata.publishedAt", "$lte", JStr "2024-12-31");
           ("metadata.startTime", "$gte", JNum 10);
           ("metadata.channel", "$eq", JStr "c1")]
     /\ (forall p, In p (query_predicates q)
                   <-> In p (spec_predicates all_filters)))
  /\ (exists q,
        buildFilterQuery equality_then_bound = Normal q
        /\ query_predicates q
           = [("metadata.publishedAt", "$eq", JStr "2024-06-01");
              ("metadata.publishedAt", "$gte", JStr "2024-01-01")]
        /\ (forall p, In p (query_predicates q)
                      <-> In p (spec_predicates equality_then_bound))).
Proof.
  split.
  - assert (NoDup (keys all_filters)) as Hnd.
    { apply (bool_decide_unpack _). vm_compute. reflexivity. }
    assert (translatable all_filters) as Ht.
    { split; [split|].
      - intros (l1 & va & l2 & Heq & HP).
        assert (In "publishedAt" (keys all_filters)) as Hin.
        { rewrite Heq, keys_app. apply in_or_app. right. by right. }
        vm_compute in Hin. intuition discriminate.
      - intros (l1 & va & l2 & Heq & HP).
        assert (In "publishedAt" (keys all_filters)) as Hin.
        { rewrite Heq, keys_app. apply in_or_app. right. by right. }
        vm_compute in Hin. intuition discriminate.
      - intros r Hr. vm_compute in Hr.
        destruct Hr as [Hr|[Hr|[Hr|[Hr|[Hr|[]]]]]]; try discriminate Hr.
        injection Hr as <-. split; [done|]. split; [done|].
        vm_compute. intuition discriminate. }
    destruct (C7_filter_translation all_filters Hnd) as [Hok _].
    destruct (Hok Ht) as (q & E & _ & Hp & _).
    exists q. split; [exact E|]. split; [|exact Hp].
    vm_compute in E. injection E as <-. reflexivity.
  - assert (NoDup (keys equality_then_bound)) as Hnd.
    { apply (bool_decide_unpack _). vm_compute. reflexivity. }
    assert (translatable equality_then_bound) as Ht.
    { split; [split|].
      - intros H.
        apply (listed_before_split [("publishedAt", JStr "2024-06-01")] [])
          in H; [destruct H|exact Hnd].
      - intros (l1 & va & l2 & Heq & HP).
        assert (In "publishedBefore" (keys equality_then_bound)) as Hin.
        { rewrite Heq, keys_app. apply in_or_app. right. by left. }
        vm_compute in Hin. intuition discriminate.
      - intros r Hr. vm_compute in Hr.
        destruct Hr as [Hr|[Hr|[]]]; discriminate Hr. }
    destruct (C7_filter_translation equality_then_bound Hnd) as [Hok _].
    destruct (Hok Ht) as (q & E & _ & Hp & _).
    exists q. split; [exact E|]. split; [|exact Hp].
    vm_compute in E. injection E as <-. reflexivity.
Defined.

(** C7, counterexamples to the claim as stated.  [publishedAfter] followed
    by the key [publishedAt]: the equality written for [publishedAt] replaces
    the date range, and the lower bound is not among the predicates of the
    filter document.  A [startTimeRange] with neither [min] nor [max]: the
    filter document asks for [metadata.startTime] to equal the empty object,
    which is no predicate of the specification.  A [startTimeRange] that is
    [null]: no filter document is built. *)
Lemma C7_counterexample :
  (NoDup (keys clashing_filters)
   /\ exists q,
        buildFilterQuery clashing_filters = Normal q
        /\ query_predicates q
           = [("metadata.publishedAt", "$eq", JStr "2024-06-01")]
        /\ In ("metadata.publishedAt", "$gte", JStr "2024-01-01")
             (spec_predicates clashing_filters)
        /\ ~ In ("metadata.publishedAt", "$gte", JStr "2024-01-01")
               (query_predicates q))
  /\ (exists q,
        buildFilterQuery [("startTimeRange", JObj [])] = Normal q
        /\ q = [("metadata.startTime", JObj [])]
        /\ query_predicates q = [("metadata.startTime", "$eq", JObj [])]
        /\ spec_predicates [("startTimeRange", JObj [])] = [])
  /\ (exists e, buildFilterQuery [("startTimeRange", JNull)] = Throw e).
Proof.
  split; [|split].
  - split.
    { apply (bool_decide_unpack _). vm_compute. reflexivity. }
    eexists. split; [vm_compute; reflexivity|].
    split; [reflexivity|]. split.
    + left. reflexivity.
    + intros [H|[]]. discriminate H.
  - eexists. split; [vm_compute; reflexivity|]. by split_and!.
  - eexists. vm_compute. reflexivity.
Qed.

(* ===================================================================== *)
(** * Further properties of the fusion                                    *)
(* ===================================================================== *)

Lemma map_set_absent {V} (m : JsMap V) k v :
  map_get m k = None -> map_set m k v = m ++ [(k, v)].
Proof.
  induction m as [|[k' v'] m IH]; simpl; [done|].
  case_eqb k k'; [done|]. intros H. by rewrite IH.
Qed.

Lemma map_get_app_absent {V} (m : JsMap V) k k' v :
  map_get m k' = None -> k' <> k -> map_get (m ++ [(k, v)]) k' = None.
Proof.
  intros Hm Hne. induction m as [|[k0 v0] m IH]; simpl in *.
  - apply eqb_eq_false in Hne. by rewrite Hne.
  - destruct (String.eqb k' k0); [done|by apply IH].
Qed.

Lemma NoDup_map_filter {A B} (f : A -> B) (P : A -> bool) (l : list A) :
  NoDup (map f l) -> NoDup (map f (List.filter P l)).
Proof.
  induction l as [|x l IH]; simpl; [done|].
  intros H. apply NoDup_cons in H as [Hx H].
  destruct (P x); simpl; [|by apply IH].
  apply NoDup_cons. split; [|by apply IH].
  intros Hin. apply Hx. apply list_elem_of_In in Hin.
  apply list_elem_of_In. apply in_map_iff in Hin as (y & Hy & Hin).
  apply filter_In in Hin as [Hin _]. rewrite <- Hy. by apply in_map.
Qed.

Section DisjointLegs.

Context (vw tw ms : Q).

(** Results with fresh, distinct ids are appended to the fusion map one
    after the other. *)
Lemma fold_vector_fresh vs (m : JsMap SearchResult) :
  NoDup (map sr_id (List.filter (passes ms) vs)) ->
  (forall v, In v (List.filter (passes ms) vs) -> map_get m (sr_id v) = None) ->
  fold_left (fuse_vector vw ms) vs m
  = m ++ map (fun v => (sr_id v, weighted vw v)) (List.filter (passes ms) vs).
Proof.
  revert m. induction vs as [|v vs IH]; intros m Hnd Hfresh; simpl.
  - by rewrite app_nil_r.
  - unfold fuse_vector at 2. simpl in Hnd, Hfresh.
    destruct (passes ms v) eqn:E.
    + simpl in Hnd. apply NoDup_cons in Hnd as [Hv Hnd].
      rewrite map_set_absent by (apply Hfresh; by left).
      rewrite IH; [by rewrite <- app_assoc|done|].
      intros v' Hv'. apply map_get_app_absent; [apply Hfresh; by right|].
      intros Heq. apply Hv. apply list_elem_of_In. rewrite <- Heq.
      by apply in_map.
    + by apply IH.
Qed.

Lemma fold_text_fresh ts (m : JsMap SearchResult) :
  NoDup (map sr_id (List.filter (passes ms) ts)) ->
  (forall t, In t (List.filter (passes ms) ts) -> map_get m (sr_id t) = None) ->
  fold_left (fuse_text tw ms) ts m
  = m ++ map (fun t => (sr_id t, weighted tw t)) (List.filter (passes ms) ts).
Proof.
  revert m. induction ts as [|t ts IH]; intros m Hnd Hfresh; simpl.
  - by rewrite app_nil_r.
  - unfold fuse_text at 2. simpl in Hnd, Hfresh.
    destruct (passes ms t) eqn:E.
    + simpl in Hnd. apply NoDup_cons in Hnd as [Ht Hnd].
      rewrite (Hfresh t) by (by left).
      rewrite map_set_absent by (apply Hfresh; by left).
      rewrite IH; [by rewrite <- app_assoc|done|].
      intros t' Ht'. apply map_get_app_absent; [apply Hfresh; by right|].
      intros Heq. apply Ht. apply list_elem_of_In. rewrite <- Heq.
      by apply in_map.
    + by apply IH.
Qed.

End DisjointLegs.

Lemma fused_disjoint vs ts o :
  NoDup (map sr_id (vs ++ ts)) ->
  map_values (fused_map vs ts o)
  = map (weighted (vectorWeight o)) (List.filter (passes (minScore o)) vs)
    ++ map (weighted (textWeight o)) (List.filter (passes (minScore o)) ts).
Proof.
  intros Hnd. rewrite map_app in Hnd.
  apply NoDup_app in Hnd as (Hv & Hdis & Ht).
  unfold fused_map.
  rewrite fold_vector_fresh; [|by apply NoDup_map_filter|done].
  rewrite fold_text_fresh; [|by apply NoDup_map_filter|].
  - unfold map_values. simpl. rewrite map_app, !map_map. reflexivity.
  - intros t Hin. apply map_get_None. simpl. rewrite map_map. simpl.
    intros Hin'. apply in_map_iff in Hin' as (v & Hid & Hv').
    apply filter_In in Hin as [Hin _]. apply filter_In in Hv' as [Hv' _].
    apply (Hdis (sr_id t)).
    + apply list_elem_of_In. rewrite <- Hid. by apply in_map.
    + apply list_elem_of_In. by apply in_map.
Qed.

(** X1.  When no id occurs twice among the results of the two legs,
    [combinedResults] is the results that pass the gate, each with its native
    score times the weight of its leg, vector leg first, sorted by the
    comparator and cut to [topK]. *)
Theorem disjoint_legs_union env model query topK filters o w r w' sv :
  search env model query topK filters o w = (Normal r, w') ->
  view w' r = Some sv ->
  NoDup (map sr_id (view_vector sv ++ view_text sv)) ->
  view_combined sv
  = slice0
      (sort_by by_score_desc
         (map (weighted (vectorWeight o))
            (List.filter (passes (minScore o)) (view_vector sv))
          ++ map (weighted (textWeight o))
               (List.filter (passes (minScore o)) (view_text sv))))
      topK.
Proof.
  intros E Hview Hnd.
  rewrite (view_of_search _ _ _ _ _ _ _ _ _ _ E Hview) in *.
  cbn [search_view view_vector view_text view_combined] in *.
  unfold fused. by rewrite fused_disjoint.
Qed.

Lemma disjoint_legs_union_witness :
  exists r w' sv,
    search env_ties embedding_model "q" 10 None default_options empty_world
    = (Normal r, w')
    /\ view w' r = Some sv
    /\ NoDup (map sr_id (view_vector sv ++ view_text sv))
    /\ map sr_id (view_combined sv) = ["a"; "b"; "c"].
Proof.
  destruct (search_values env_ties embedding_model "q" 10 None
              default_options empty_world) as (r & w' & E & Hview & _).
  assert (NoDup (map sr_id
                   (view_vector
                      (search_view env_ties embedding_model "q" 10 None
                         default_options)
                    ++ view_text
                         (search_view env_ties embedding_model "q" 10 None
                            default_options)))) as Hnd.
  { apply (bool_decide_unpack _). vm_compute. reflexivity. }
  eexists r, w', _. split; [exact E|]. split; [exact Hview|].
  split; [exact Hnd|].
  rewrite (disjoint_legs_union _ _ _ _ _ _ _ _ _ _ E Hview Hnd).
  vm_compute. reflexivity.
Defined.

Lemma fused_ids_unique vs ts o topK :
  NoDup (map sr_id (slice0 (fused vs ts o) topK)).
Proof.
  destruct (slice0_take (fused vs ts o) topK) as [n ->].
  change (take n ?l) with (firstn n l). rewrite <- firstn_map.
  eapply sublist_NoDup; [|apply sublist_take].
  unfold fused.
  rewrite (Permutation_map sr_id (sort_by_Permutation by_score_desc _)).
  destruct (fused_map_inv vs ts o) as [Hk Hn].
  unfold map_values. rewrite map_map.
  replace (map (fun x => sr_id (snd x)) (fused_map vs ts o))
    with (map fst (fused_map vs ts o)); [done|].
  apply map_ext_Forall. exact (Forall_impl _ _ _ Hk (fun x H => eq_sym H)).
Qed.

(** X2.  No id occurs twice in [combinedResults]. *)
Theorem combined_ids_unique env model query topK filters o w :
  exists r w' sv,
    search env model query topK filters o w = (Normal r, w')
    /\ view w' r = Some sv
    /\ NoDup (map sr_id (view_combined sv)).
Proof.
  destruct (search_values env model query topK filters o w)
    as (r & w' & E & Hview & _).
  eexists r, w', _. split; [exact E|]. split; [exact Hview|].
  apply fused_ids_unique.
Qed.

Lemma with_score_fields r s : same_fields_but_score (with_score r s) r.
Proof. by repeat split. Qed.

Lemma same_fields_trans a b c :
  same_fields_but_score a b -> same_fields_but_score b c ->
  same_fields_but_score a c.
Proof.
  unfold same_fields_but_score.
  intros (?&?&?&?&?&?&?&?) (?&?&?&?&?&?&?&?). split_and!; congruence.
Qed.

(** X3.  Every entry of [combinedResults] is, up to its score, a result of
    one of the two legs: one with the same id whose native score passes the
    gate. *)
Theorem combined_from_legs env model query topK filters o w r w' sv c :
  search env model query topK filters o w = (Normal r, w') ->
  view w' r = Some sv ->
  In c (view_combined sv) ->
  exists x,
    (In x (view_vector sv) \/ In x (view_text sv))
    /\ passes (minScore o) x = true
    /\ same_fields_but_score c x.
Proof.
  intros E Hview Hc.
  rewrite (view_of_search _ _ _ _ _ _ _ _ _ _ E Hview) in *.
  cbn [search_view view_vector view_text view_combined] in *.
  set (vs := or_empty (vector_leg env model query topK filters)) in *.
  set (ts := or_empty (text_leg env query topK filters)) in *.
  apply slice0_In, fused_entry in Hc. rewrite fold_vector_entry_last in Hc.
  destruct (last (gated (minScore o) (sr_id c) vs)) as [v|] eqn:El.
  - rewrite fold_text_entry_score in Hc. injection Hc as Hc.
    apply last_Some_elem_of, list_elem_of_In, gated_In in El as (Hin & _ & Hp).
    exists v. split_and!; [by left|done|]. rewrite <- Hc.
    eapply same_fields_trans; apply with_score_fields.
  - destruct (gated (minScore o) (sr_id c) ts) as [|t rest] eqn:Et; [done|].
    cbn [fold_left text_entry] in Hc.
    rewrite fold_text_entry_score in Hc. injection Hc as Hc.
    assert (In t (gated (minScore o) (sr_id c) ts)) as Hin
      by (rewrite Et; by left).
    apply gated_In in Hin as (Hin & _ & Hp).
    exists t. split_and!; [by right|done|]. rewrite <- Hc.
    eapply same_fields_trans; apply with_score_fields.
Qed.

Lemma combined_from_legs_witness :
  exists x,
    (In x (view_vector example_view) \/ In x (view_text example_view))
    /\ passes (minScore default_options) x = true
    /\ same_fields_but_score
         (plain "b" ((6 # 10) * (7 # 10) + (8 # 10) * (3 # 10))) x.
Proof.
  assert (example_run = (Normal example_result, snd example_run)) as Hrun
    by (vm_compute; reflexivity).
  assert (view (snd example_run) example_result = Some example_view) as Hview
    by (vm_compute; reflexivity).
  apply (combined_from_legs env_example embedding_model "database indexing"
           2 None default_options empty_world example_result (snd example_run)
           example_view _ Hrun Hview).
  left. reflexivity.
Defined.

(** X4.  An id that passes the gate in one leg only.  In the vector leg
    only: its entry is the last such vector result with the score
    [score * vectorWeight].  In the text leg only: its entry has the fields
    of the first such text result and the sum of [score * textWeight] over
    all of them. *)
Theorem single_leg_entry env model query topK filters o w r w' sv c :
  search env model query topK filters o w = (Normal r, w') ->
  view w' r = Some sv ->
  In c (view_combined sv) ->
  (gated (minScore o) (sr_id c) (view_text sv) = [] ->
   exists v,
     last (gated (minScore o) (sr_id c) (view_vector sv)) = Some v
     /\ c = weighted (vectorWeight o) v)
  /\ (gated (minScore o) (sr_id c) (view_vector sv) = [] ->
      exists t rest,
        gated (minScore o) (sr_id c) (view_text sv) = t :: rest
        /\ same_fields_but_score c t
        /\ sr_score c
           = fold_left (fun s x => (s + sr_score x * textWeight o)%Q) rest
               (sr_score t * textWeight o)%Q).
Proof.
  intros E Hview Hc.
  rewrite (view_of_search _ _ _ _ _ _ _ _ _ _ E Hview) in *.
  cbn [search_view view_vector view_text view_combined] in *.
  set (vs := or_empty (vector_leg env model query topK filters)) in *.
  set (ts := or_empty (text_leg env query topK filters)) in *.
  apply slice0_In, fused_entry in Hc. split.
  - intros Ht. rewrite Ht, fold_vector_entry_last in Hc. simpl in Hc.
    destruct (last (gated (minScore o) (sr_id c) vs)) as [v|]; [|done].
    injection Hc as <-. by exists v.
  - intros Hv. rewrite Hv in Hc. cbn [fold_left] in Hc.
    destruct (gated (minScore o) (sr_id c) ts) as [|t rest]; [done|].
    cbn [fold_left text_entry] in Hc.
    rewrite fold_text_entry_score in Hc. injection Hc as <-.
    exists t, rest. split_and!; [done| |done].
    eapply same_fields_trans; apply with_score_fields.
Qed.

Lemma single_leg_entry_witness :
  exists r w' sv,
    example_run_all = (Normal r, w')
    /\ view w' r = Some sv
    /\ In (plain "a" ((9 # 10) * (7 # 10))) (view_combined sv)
    /\ In (plain "c" ((7 # 10) * (3 # 10))) (view_combined sv)
    /\ (exists v,
          last (gated (minScore default_options) "a" (view_vector sv)) = Some v
          /\ plain "a" ((9 # 10) * (7 # 10))
             = weighted (vectorWeight default_options) v)
    /\ (exists t rest,
          gated (minScore default_options) "c" (view_text sv) = t :: rest
          /\ same_fields_but_score (plain "c" ((7 # 10) * (3 # 10))) t
          /\ sr_score (plain "c" ((7 # 10) * (3 # 10)))
             = fold_left
                 (fun s x => (s + sr_score x * textWeight default_options)%Q)
                 rest (sr_score t * textWeight default_options)%Q).
Proof.
  destruct (search_values env_example embedding_model "database indexing" 10
              None default_options empty_world) as (r & w' & E & Hview & _).
  set (sv := search_view env_example embedding_model "database indexing" 10
               None default_options) in *.
  assert (In (plain "a" ((9 # 10) * (7 # 10))) (view_combined sv)) as Ha
    by (right; left; reflexivity).
  assert (In (plain "c" ((7 # 10) * (3 # 10))) (view_combined sv)) as Hc
    by (right; right; left; reflexivity).
  exists r, w', sv. split; [exact E|]. split; [exact Hview|].
  split; [exact Ha|]. split; [exact Hc|]. split.
  - destruct (single_leg_entry env_example embedding_model "database indexing"
                10 None default_options empty_world r w' sv
                (plain "a" ((9 # 10) * (7 # 10))) E Hview Ha) as [Hvec _].
    apply Hvec. reflexivity.
  - destruct (single_leg_entry env_example embedding_model "database indexing"
                10 None default_options empty_world r w' sv
                (plain "c" ((7 # 10) * (3 # 10))) E Hview Hc) as [_ Htext].
    apply Htext. reflexivity.
Defined.

(** [Array.prototype.sort] with [by_score_desc] keeps the order of results
    whose scores are equal. *)
Lemma insert_by_score_stable s x l :
  with_score_of s (insert_by by_score_desc x l)
  = if Qeq_bool (sr_score x) s then x :: with_score_of s l
    else with_score_of s l.
Proof.
  unfold with_score_of. induction l as [|y l IH]; simpl.
  - by destruct (Qeq_bool (sr_score x) s).
  - destruct (positive (by_score_desc x y)) eqn:Ep; simpl.
    + rewrite IH. apply by_score_desc_positive in Ep.
      destruct (Qeq_bool (sr_score x) s) eqn:Ex; [|done].
      destruct (Qeq_bool (sr_score y) s) eqn:Ey; [|done].
      apply Qeq_bool_iff in Ex, Ey. exfalso.
      apply (Qlt_not_eq _ _ Ep). by rewrite Ex, Ey.
    + by destruct (Qeq_bool (sr_score x) s).
Qed.

Lemma sort_by_score_stable s l :
  with_score_of s (sort_by by_score_desc l) = with_score_of s l.
Proof.
  induction l as [|x l IH]; simpl; [done|].
  rewrite insert_by_score_stable, IH. unfold with_score_of. simpl.
  by destruct (Qeq_bool (sr_score x) s).
Qed.

(** X5.  Ties.  When no id occurs twice among the results of the two legs
    and [topK] cuts nothing off, the results with equal combined scores stand
    in [combinedResults] in the order in which the fusion met them: those of
    the vector leg in the order of that leg, then those of the text leg in
    the order of that leg. *)
Theorem ties_keep_leg_order env model query topK filters o w r w' sv s :
  search env model query topK filters o w = (Normal r, w') ->
  view w' r = Some sv ->
  NoDup (map sr_id (view_vector sv ++ view_text sv)) ->
  (Z.of_nat (length (view_vector sv) + length (view_text sv)) <= topK)%Z ->
  with_score_of s (view_combined sv)
  = with_score_of s
      (map (weighted (vectorWeight o))
         (List.filter (passes (minScore o)) (view_vector sv)))
    ++ with_score_of s
         (map (weighted (textWeight o))
            (List.filter (passes (minScore o)) (view_text sv))).
Proof.
  intros E Hview Hnd Hk.
  rewrite (view_of_search _ _ _ _ _ _ _ _ _ _ E Hview) in *.
  cbn [search_view view_vector view_text view_combined] in *.
  rewrite slice0_all.
  - unfold fused. rewrite sort_by_score_stable, fused_disjoint by done.
    unfold with_score_of. apply List.filter_app.
  - pose proof (fused_length
                  (or_empty (vector_leg env model query topK filters))
                  (or_empty (text_leg env query topK filters)) o).
    lia.
Qed.

Lemma ties_keep_leg_order_witness :
  exists r w' sv,
    search env_ties embedding_model "q" 10 None default_options empty_world
    = (Normal r, w')
    /\ view w' r = Some sv
    /\ map sr_id (with_score_of ((6 # 10) * (7 # 10)) (view_combined sv))
       = ["a"; "b"; "c"].
Proof.
  destruct (search_values env_ties embedding_model "q" 10 None
              default_options empty_world) as (r & w' & E & Hview & _).
  eexists r, w', _. split; [exact E|]. split; [exact Hview|].
  rewrite (ties_keep_leg_order _ _ _ _ _ _ _ _ _ _ _ E Hview).
  - vm_compute. reflexivity.
  - apply (bool_decide_unpack _). vm_compute. reflexivity.
  - vm_compute. discriminate.
Defined.

(** X6.  [topK] at the edges.  [combinedResults] is always a prefix of the
    sorted fusion; it is empty for [topK = 0], it lacks the last [-topK]
    entries for a negative [topK], and it is the whole fusion once [topK]
    reaches its length. *)
Theorem topK_edges env model query topK filters o w :
  exists vr w1 tr w2 out w3 r,
    performVectorSearch env model query topK filters w = (Normal vr, w1)
    /\ performTextSearch env query topK filters w1 = (Normal tr, w2)
    /\ combineResults vr tr (vectorWeight o) (textWeight o) (minScore o) w2
       = (Normal out, w3)
    /\ search env model query topK filters o w = (Normal r, w3)
    /\ combinedResults r `prefix_of` out
    /\ (topK = 0%Z -> combinedResults r = [])
    /\ ((topK < 0)%Z ->
        length (combinedResults r) = (length out - Z.to_nat (- topK))%nat)
    /\ ((Z.of_nat (length out) <= topK)%Z -> combinedResults r = out).
Proof.
  destruct (search_steps env model query topK filters o w)
    as (vr & w1 & tr & w2 & out & w3 & E1 & E2 & E3 & E & _).
  eexists vr, w1, tr, w2, out, w3, _.
  split; [exact E1|]. split; [exact E2|]. split; [exact E3|].
  split; [exact E|]. cbn [combinedResults]. split_and!.
  - destruct (slice0_take out topK) as [n ->]. apply prefix_take.
  - intros ->. unfold slice0. simpl. by rewrite Z.min_l by lia.
  - intros Hneg. unfold slice0.
    assert ((topK <? 0)%Z = true) as -> by lia.
    rewrite length_take. lia.
  - apply slice0_all.
Qed.

Lemma topK_edges_witness :
  exists r w',
    search env_example embedding_model "database indexing" (-1) None
      default_options empty_world = (Normal r, w')
    /\ length (combinedResults r) = 2%nat.
Proof.
  destruct (topK_edges env_example embedding_model "database indexing" (-1)
              None default_options empty_world)
    as (vr & w1 & tr & w2 & out & w3 & r & E1 & E2 & E3 & E & _ & _ & Hneg & _).
  exists r, w3. split; [exact E|].
  rewrite Hneg by lia.
  vm_compute in E1. injection E1 as <- <-.
  vm_compute in E2. injection E2 as <- <-.
  vm_compute in E3. injection E3 as <- <-.
  reflexivity.
Defined.

(* ===================================================================== *)
(** * Further properties of the two services                              *)
(* ===================================================================== *)

Lemma performVectorSearch_console env model query topK filters w :
  console (snd (performVectorSearch env model query topK filters w))
  = console w ++ vector_log env model query topK filters.
Proof.
  unfold performVectorSearch, generateEmbedding, vector_log,
    query_embedding, embedding_request, try_catch, bind, dispatch, lift,
    console_error, throw, ret.
  cbv beta. simpl.
  destruct (embeddings_create env _) as [data|e]; simpl.
  - destruct data as [|emb data]; simpl.
    + by rewrite <- app_assoc.
    + destruct (vectorStore_query env emb topK filters) as [results|e]; simpl.
      * rewrite mapM_alloc. simpl. by rewrite app_nil_r.
      * done.
  - by rewrite <- app_assoc.
Qed.

Lemma performTextSearch_console env query topK filters w :
  console (snd (performTextSearch env query topK filters w))
  = console w ++ text_log env query topK filters.
Proof.
  unfold performTextSearch, text_log, try_catch, bind, dispatch, lift,
    console_error, ret.
  cbv beta. simpl.
  destruct (textSearch_searchText env query topK filters) as [results|e];
    simpl; [|done].
  rewrite (mapM_alloc (fun x => x)). simpl. by rewrite app_nil_r.
Qed.

(** X7.  A failed embedding.  When the embedding call fails (the client
    raises, or answers with an empty [data]), the vector leg yields no
    results, the vector store is never queried, and the error is written to
    the console twice: by [generateEmbedding] and by
    [performVectorSearch]. *)
Theorem embedding_failure_skips_query env model query topK filters w e :
  query_embedding env model query = Throw e ->
  exists w',
    performVectorSearch env model query topK filters w = (Normal [], w')
    /\ heap w' = heap w
    /\ io w' = io w ++ [IoEmbeddingsCreate (embedding_request model query)]
    /\ console w'
       = console w ++ [mkLogLine "Error generating embedding:" e;
                       mkLogLine "Error performing vector search:" e].
Proof.
  intros He.
  destruct (performVectorSearch_values env model query topK filters w)
    as (vr & w' & E & Hh & Hr & Hio).
  pose proof (performVectorSearch_console env model query topK filters w) as Hc.
  rewrite E in Hc. simpl in Hc.
  unfold vector_leg in Hh, Hr. unfold vector_io in Hio. unfold vector_log in Hc.
  rewrite He in Hh, Hr, Hio, Hc. simpl in Hh, Hr.
  apply refs_nil_inv in Hr. subst vr.
  exists w'. split; [done|]. rewrite app_nil_r in Hh. done.
Qed.

Lemma embedding_failure_skips_query_witness :
  exists w',
    performVectorSearch env_embedding_down embedding_model "q" 5 None
      empty_world = (Normal [], w')
    /\ io w' = [IoEmbeddingsCreate (embedding_request embedding_model "q")]
    /\ length (console w') = 2%nat.
Proof.
  destruct (embedding_failure_skips_query env_embedding_down embedding_model
              "q" 5 None empty_world (BackendError "openai") eq_refl)
    as (w' & E & _ & Hio & Hc).
  exists w'. split; [exact E|]. split; [exact Hio|]. by rewrite Hc.
Defined.

(** X8.  What [search] writes to the console: the lines of the vector leg
    and the line of the text leg, each leg's lines in the order that leg
    writes them, and nothing else; nothing at all when no collaborator
    raises.  How the lines of the two legs follow each other is left open. *)
Theorem search_console env model query topK filters o w :
  exists r w' added,
    search env model query topK filters o w = (Normal r, w')
    /\ console w' = console w ++ added
    /\ Permutation added
         (vector_log env model query topK filters
          ++ text_log env query topK filters)
    /\ vector_log env model query topK filters `sublist_of` added
    /\ text_log env query topK filters `sublist_of` added
    /\ match vector_leg env model query topK filters,
             text_leg env query topK filters with
       | Normal _, Normal _ => added = []
       | _, _ => added <> []
       end.
Proof.
  destruct (search_steps env model query topK filters o w)
    as (vr & w1 & tr & w2 & out & w3 & E1 & E2 & E3 & E & _).
  pose proof (performVectorSearch_console env model query topK filters w) as H1.
  pose proof (performTextSearch_console env query topK filters w1) as H2.
  rewrite E1 in H1. rewrite E2 in H2. simpl in H1, H2.
  destruct (combineResults_values vr tr (or_empty (vector_leg env model query topK filters))
              (or_empty (text_leg env query topK filters))
              (vectorWeight o) (textWeight o) (minScore o) w2)
    as (out' & w3' & E3' & _ & [_ Hc3] & _).
  { destruct (search_steps env model query topK filters o w)
      as (vr0 & w10 & tr0 & w20 & out0 & w30 & F1 & F2 & _ & _ & _ & Hv & _).
    rewrite E1 in F1. injection F1 as <- <-.
    rewrite E2 in F2. by injection F2 as <- <-. }
  { destruct (search_steps env model query topK filters o w)
      as (vr0 & w10 & tr0 & w20 & out0 & w30 & F1 & F2 & _ & _ & _ & _ & Ht & _).
    rewrite E1 in F1. injection F1 as <- <-.
    rewrite E2 in F2. by injection F2 as <- <-. }
  rewrite E3 in E3'. injection E3' as <- <-.
  eexists _, w3, (vector_log env model query topK filters
                  ++ text_log env query topK filters).
  split; [exact E|]. split_and!.
  - by rewrite Hc3, H2, H1, app_assoc.
  - reflexivity.
  - by apply sublist_inserts_r.
  - by apply sublist_inserts_l.
  - unfold vector_leg, vector_log, text_leg, text_log.
    destruct (query_embedding env model query) as [emb|e]; [|done].
    destruct (vectorStore_query env emb topK filters) as [rs|e]; [|done].
    by destruct (textSearch_searchText env query topK filters) as [ts|e].
Qed.


(* ===================================================================== *)
(** * Further properties of the vector store                              *)
(* ===================================================================== *)

(** ** [upsert] *)

Lemma ids_replace_one docs d :
  map doc_id (fst (replace_one docs (to_operation d)))
  = if existsb (String.eqb (doc_id d)) (map doc_id docs)
    then map doc_id docs
    else map doc_id docs ++ [doc_id d].
Proof.
  induction docs as [|x docs IH].
  - reflexivity.
  - cbn [replace_one to_operation op_filter_id op_replacement op_upsert
         map existsb].
    unfold has_id. rewrite (String.eqb_sym (doc_id d) (doc_id x)).
    case_eqb (doc_id x) (doc_id d).
    + cbn [fst map orb]. by rewrite E.
    + destruct (replace_one docs (to_operation d)) as [rest r] eqn:Er.
      cbn [fst map orb] in *. rewrite IH.
      by destruct (existsb (String.eqb (doc_id d)) (map doc_id docs)).
Qed.

Lemma new_ids_ext ids s1 s2 :
  (forall x, In x s1 <-> In x s2) -> new_ids s1 ids = new_ids s2 ids.
Proof.
  revert s1 s2. induction ids as [|i ids IH]; intros s1 s2 H; simpl; [done|].
  assert (existsb (String.eqb i) s1 = existsb (String.eqb i) s2) as ->.
  { apply eq_true_iff_eq. rewrite !existsb_exists.
    split; intros (x & Hx & E); exists x; (split; [by apply H|done]). }
  destruct (existsb (String.eqb i) s2); [by apply IH|].
  f_equal. apply IH. intros x. simpl. by rewrite H.
Qed.

Lemma ids_write_all docs batch :
  map doc_id (write_all docs batch)
  = map doc_id docs ++ new_ids (map doc_id docs) (map doc_id batch).
Proof.
  unfold write_all. revert docs.
  induction batch as [|d batch IH]; intros docs; simpl.
  - by rewrite app_nil_r.
  - rewrite IH, ids_replace_one.
    destruct (existsb (String.eqb (doc_id d)) (map doc_id docs)); [done|].
    rewrite <- app_assoc. simpl. do 2 f_equal.
    apply new_ids_ext. intros x. rewrite in_app_iff. simpl. tauto.
Qed.

Lemma new_ids_NoDup stored ids :
  NoDup stored -> NoDup (stored ++ new_ids stored ids).
Proof.
  revert stored. induction ids as [|i ids IH]; intros stored H; simpl.
  - by rewrite app_nil_r.
  - destruct (existsb (String.eqb i) stored) eqn:E; [by apply IH|].
    rewrite <- Permutation_middle.
    apply (IH (i :: stored)). apply NoDup_cons. split; [|done].
    intros Hin. apply not_true_iff_false in E. apply E.
    apply existsb_exists. exists i. split; [by apply list_elem_of_In|].
    apply String.eqb_refl.
Qed.

Lemma new_ids_In stored ids i :
  In i (new_ids stored ids) <-> In i ids /\ ~ In i stored.
Proof.
  revert stored. induction ids as [|x ids IH]; intros stored; simpl.
  - tauto.
  - destruct (existsb (String.eqb x) stored) eqn:E.
    + rewrite IH. apply existsb_exists in E as (y & Hy & E).
      apply eqb_eq_true in E. subst y. split; [tauto|].
      intros [[->|H] Hn]; [done|tauto].
    + assert (~ In x stored) as Hx.
      { intros Hin. apply not_true_iff_false in E. apply E.
        apply existsb_exists. exists x. split; [done|apply String.eqb_refl]. }
      simpl. rewrite IH. simpl. split.
      * intros [->|[H Hn]]; [tauto|]. split; [tauto|]. tauto.
      * intros [[->|H] Hn]; [by left|].
        destruct (String.string_dec x i) as [->|Hne]; [by left|right].
        split; [done|]. intros [?|?]; tauto.
Qed.

Lemma new_ids_fresh stored ids : NoDup (new_ids stored ids).
Proof.
  revert stored. induction ids as [|x ids IH]; intros stored; simpl.
  - constructor.
  - destruct (existsb (String.eqb x) stored); [apply IH|].
    apply NoDup_cons. split; [|apply IH].
    rewrite list_elem_of_In, new_ids_In. simpl. tauto.
Qed.

(** X10.  After [upsert] the ids stored are the ids stored before together
    with the ids of the batch, and the number of documents has grown by the
    number of distinct ids of the batch that were not stored. *)
Theorem upsert_adds_new_ids config clock vectors db :
  vectors <> [] -> reachable db = true -> write_fault db = None ->
  exists db' added,
    upsert config clock vectors db = (Normal tt, db')
    /\ (forall i, In i (map doc_id (documents db')) <->
                  In i (map doc_id (documents db)) \/ In i (map vd_id vectors))
    /\ NoDup added
    /\ (forall i, In i added <->
                  In i (map vd_id vectors)
                  /\ ~ In i (map doc_id (documents db)))
    /\ length (documents db') = (length (documents db) + length added)%nat.
Proof.
  intros Hne Hr Hf.
  destruct (upsert_accepted config clock vectors db Hne Hr Hf)
    as (db' & E & _ & Hdocs).
  exists db', (new_ids (map doc_id (documents db)) (map vd_id vectors)).
  assert (map doc_id (documents db')
          = map doc_id (documents db)
            ++ new_ids (map doc_id (documents db)) (map vd_id vectors)) as Hids.
  { by rewrite Hdocs, ids_write_all, ids_to_documents. }
  split_and!.
  - exact E.
  - intros i. rewrite Hids, in_app_iff, new_ids_In.
    destruct (in_dec String.string_dec i (map doc_id (documents db))); tauto.
  - apply new_ids_fresh.
  - apply new_ids_In.
  - rewrite <- (length_map doc_id (documents db')), Hids, length_app, length_map.
    done.
Qed.

Lemma upsert_adds_new_ids_witness :
  exists db',
    upsert config3 (ticking 0) [other_record; replacing_record; other_record]
      one_doc_db = (Normal tt, db')
    /\ length (documents db') = 2%nat
    /\ In "chunk-2" (map doc_id (documents db')).
Proof.
  assert ([other_record; replacing_record; other_record] <> []) as Hne by done.
  destruct (upsert_adds_new_ids config3 (ticking 0)
              [other_record; replacing_record; other_record] one_doc_db
              Hne eq_refl eq_refl)
    as (db' & added & E & Hids & Hnd & Hadded & Hlen).
  exists db'. split; [exact E|]. split.
  - rewrite Hlen.
    assert (added = ["chunk-2"]) as ->; [|reflexivity].
    assert (In "chunk-2" added) as Hin.
    { apply Hadded. split; [by left|]. intros [H|[]]. discriminate H. }
    assert (forall i, In i added -> i = "chunk-2") as Hall.
    { intros i Hi. apply Hadded in Hi as [Hi Hn].
      destruct Hi as [<-|[<-|[<-|[]]]]; try done.
      exfalso. apply Hn. by left. }
    destruct added as [|a [|b added]].
    + destruct Hin.
    + by destruct Hin as [->|[]].
    + exfalso. apply NoDup_cons in Hnd as [Hab Hnd].
      apply Hab. rewrite (Hall a) by (by left).
      rewrite <- (Hall b) by (right; by left). by left.
  - apply Hids. right. by left.
Defined.

(** X11.  [upsert] keeps [_id] unique: if no two stored documents share an
    id, none do afterwards, whatever ids the batch repeats. *)
Theorem upsert_keeps_ids_unique config clock vectors db :
  vectors <> [] -> reachable db = true -> write_fault db = None ->
  NoDup (map doc_id (documents db)) ->
  exists db',
    upsert config clock vectors db = (Normal tt, db')
    /\ NoDup (map doc_id (documents db')).
Proof.
  intros Hne Hr Hf Hnd.
  destruct (upsert_accepted config clock vectors db Hne Hr Hf)
    as (db' & E & _ & Hdocs).
  exists db'. split; [exact E|].
  rewrite Hdocs, ids_write_all. by apply new_ids_NoDup.
Qed.

Lemma upsert_keeps_ids_unique_witness :
  exists db',
    upsert config3 (ticking 0) [other_record; replacing_record; other_record]
      one_doc_db = (Normal tt, db')
    /\ NoDup (map doc_id (documents db')).
Proof.
  apply (upsert_keeps_ids_unique config3 (ticking 0)
           [other_record; replacing_record; other_record] one_doc_db).
  - done.
  - reflexivity.
  - reflexivity.
  - apply (bool_decide_unpack _). vm_compute. reflexivity.
Defined.

(** X12.  Looking up by id after [upsert].  For an id of the batch: the
    document the driver writes for the last record of the batch with that
    id, whole, with the two clock readings that record made (nothing of the
    document it replaces is kept, [createdAt] included).  For any other id:
    what was found before. *)
Theorem upsert_lookup config clock vectors db i :
  vectors <> [] -> reachable db = true -> write_fault db = None ->
  exists db',
    upsert config clock vectors db = (Normal tt, db')
    /\ ((exists k v,
           vectors !! k = Some v /\ vd_id v = i
           /\ (forall m v', vectors !! m = Some v' -> vd_id v' = i ->
                            (m <= k)%nat)
           /\ find_doc (documents db') i
              = Some (bson_document
                        (to_document (clock (2 * k)%nat)
                           (clock (2 * k + 1)%nat) v)))
        \/ ((forall v, In v vectors -> vd_id v <> i)
            /\ find_doc (documents db') i = find_doc (documents db) i)).
Proof.
  intros Hne Hr Hf.
  destruct (upsert_accepted config clock vectors db Hne Hr Hf)
    as (db' & E & _ & Hdocs).
  exists db'. split; [exact E|]. rewrite Hdocs. apply find_upserted.
Qed.

Lemma upsert_lookup_witness :
  exists db',
    upsert config3 (ticking 7) [other_record; replacing_record] one_doc_db
    = (Normal tt, db')
    /\ find_doc (documents db') "chunk-1"
       = Some (bson_document (to_document 9 10 replacing_record))
    /\ find_doc (documents db') "chunk-3" = None.
Proof.
  assert ([other_record; replacing_record] <> []) as Hne by done.
  destruct (upsert_lookup config3 (ticking 7) [other_record; replacing_record]
              one_doc_db "chunk-1" Hne eq_refl eq_refl) as (db' & E & H1).
  destruct (upsert_lookup config3 (ticking 7) [other_record; replacing_record]
              one_doc_db "chunk-3" Hne eq_refl eq_refl) as (db2 & E2 & H3).
  rewrite E in E2. injection E2 as <-.
  exists db'. split; [exact E|]. split.
  - destruct H1 as [(k & v & Hk & Hid & _ & Hfind)|[Hnone _]].
    + destruct k as [|[|k]]; simpl in Hk.
      * injection Hk as <-. discriminate Hid.
      * injection Hk as <-. exact Hfind.
      * discriminate Hk.
    + exfalso. apply (Hnone replacing_record); [right; by left|reflexivity].
  - destruct H3 as [(k & v & Hk & Hid & _)|[_ ->]]; [|reflexivity].
    destruct k as [|[|k]]; simpl in Hk; try discriminate Hk;
      injection Hk as <-; discriminate Hid.
Defined.

(** ** [delete] *)

Lemma find_filter_ids ids docs i :
  find_doc (List.filter (fun d => negb (id_in ids d)) docs) i
  = if existsb (String.eqb i) ids then None else find_doc docs i.
Proof.
  unfold find_doc. induction docs as [|d docs IH]; simpl.
  - by destruct (existsb (String.eqb i) ids).
  - destruct (id_in ids d) eqn:Ein; simpl.
    + rewrite IH. unfold has_id at 2. case_eqb (doc_id d) i; [|done].
      subst i. unfold id_in in Ein. by rewrite Ein.
    + rewrite IH. unfold has_id at 1 3. case_eqb (doc_id d) i; [|done].
      subst i. unfold id_in in Ein. by rewrite Ein.
Qed.

(** X13.  Looking up by id after [delete]: nothing for an id of the list,
    and for any other id what was found before; deleting the same ids again
    changes nothing. *)
Theorem delete_lookup ids db i :
  reachable db = true ->
  exists db' db'',
    delete ids db = (Normal tt, db')
    /\ find_doc (documents db') i
       = (if existsb (String.eqb i) ids then None
          else find_doc (documents db) i)
    /\ delete ids db' = (Normal tt, db'')
    /\ documents db'' = documents db'.
Proof.
  intros Hr.
  destruct (delete_reachable ids db Hr) as (db' & E & Hr' & Hdocs).
  destruct (delete_reachable ids db' Hr') as (db'' & E' & _ & Hdocs').
  exists db', db''. split; [exact E|]. split.
  { rewrite Hdocs. apply find_filter_ids. }
  split; [exact E'|].
  rewrite Hdocs'. apply filter_none. intros d Hd.
  rewrite Hdocs in Hd. by apply filter_In in Hd as [_ ?].
Qed.

Lemma delete_lookup_witness :
  exists db' db'',
    delete ["chunk-1"] one_doc_db = (Normal tt, db')
    /\ find_doc (documents db') "chunk-1" = None
    /\ delete ["chunk-1"] db' = (Normal tt, db'')
    /\ documents db'' = documents db'.
Proof.
  destruct (delete_lookup ["chunk-1"] one_doc_db "chunk-1" eq_refl)
    as (db' & db'' & E & Hf & E' & Hd).
  exists db', db''. split; [exact E|]. split; [exact Hf|]. by split.
Defined.

(** ** [upsert] followed by [delete] *)

Lemma replace_one_app docs l d :
  ~ In (doc_id d) (map doc_id docs) ->
  fst (replace_one (docs ++ l) (to_operation d))
  = docs ++ fst (replace_one l (to_operation d)).
Proof.
  induction docs as [|x docs IH]; intros Hd; [done|].
  cbn [app replace_one to_operation op_filter_id]. unfold has_id.
  simpl in Hd. case_eqb (doc_id x) (doc_id d); [tauto|].
  change (to_operation d) with
    {| op_filter_id := doc_id d; op_replacement := d; op_upsert := true |} in IH.
  destruct (replace_one (docs ++ l) _) as [rest r] eqn:Er.
  simpl in *. f_equal. apply IH. tauto.
Qed.

Lemma write_all_app docs l batch :
  (forall d, In d batch -> ~ In (doc_id d) (map doc_id docs)) ->
  write_all (docs ++ l) batch = docs ++ write_all l batch.
Proof.
  unfold write_all. revert l.
  induction batch as [|d batch IH]; intros l Hfresh; simpl; [done|].
  rewrite replace_one_app by (apply Hfresh; by left).
  apply IH. intros d' Hd'. apply Hfresh. by right.
Qed.

Lemma replace_one_In l d x :
  In x (fst (replace_one l (to_operation d))) -> In x l \/ x = bson_document d.
Proof.
  induction l as [|y l IH]; simpl.
  - intros [<-|[]]. by right.
  - destruct (has_id (doc_id d) y).
    + simpl. intros [<-|H]; [by right|left; by right].
    + destruct (replace_one l (to_operation d)) as [rest r]. simpl in *.
      intros [<-|H]; [left; by left|].
      destruct (IH H) as [?|?]; [left; by right|by right].
Qed.

Lemma write_all_In l batch x :
  In x (write_all l batch) -> In x l \/ In x (map bson_document batch).
Proof.
  unfold write_all. revert l.
  induction batch as [|d batch IH]; intros l; simpl; [by left|].
  intros H. apply IH in H as [H|H]; [|right; by right].
  apply replace_one_In in H as [H| ->]; [by left|right; by left].
Qed.

Lemma filter_all_false {A} (f : A -> bool) (l : list A) :
  (forall x, In x l -> f x = false) -> List.filter f l = [].
Proof.
  induction l as [|x l IH]; simpl; intros H; [done|].
  rewrite (H x) by (by left). apply IH. intros y Hy. apply H. by right.
Qed.

(** Writing a batch of ids that are not stored and deleting these ids again
    leaves the collection as it was. *)
Lemma write_then_delete clock vectors docs :
  (forall v, In v vectors -> find_doc docs (vd_id v) = None) ->
  List.filter (fun d => negb (id_in (map vd_id vectors) d))
    (write_all docs (to_documents clock 0 vectors))
  = docs.
Proof.
  intros Hfresh.
  assert (forall d, In d (to_documents clock 0 vectors) ->
                    In (doc_id d) (map vd_id vectors)) as Hbatch.
  { intros d Hd. rewrite <- (ids_to_documents clock 0). by apply in_map. }
  rewrite <- (app_nil_r docs) at 1.
  rewrite write_all_app.
  - rewrite List.filter_app.
    rewrite (filter_none _ docs).
    + rewrite filter_all_false; [by rewrite app_nil_r|].
      intros x Hx. apply write_all_In in Hx as [[]|Hx].
      apply in_map_iff in Hx as (d & <- & Hd).
      apply negb_false_iff, id_in_existsb. simpl. by apply Hbatch.
    + intros d Hd. apply negb_true_iff, not_true_iff_false. intros Hin.
      apply id_in_existsb, in_map_iff in Hin as (v & Hid & Hv).
      specialize (Hfresh v Hv). rewrite Hid in Hfresh. unfold find_doc in Hfresh.
      apply (find_none _ _ Hfresh) in Hd. unfold has_id in Hd.
      by rewrite String.eqb_refl in Hd.
  - intros d Hd Hin. apply Hbatch, in_map_iff in Hd as (v & Hvid & Hv).
    apply in_map_iff in Hin as (x & Hid & Hx).
    specialize (Hfresh v Hv). unfold find_doc in Hfresh.
    apply (find_none _ _ Hfresh) in Hx. unfold has_id in Hx.
    apply eqb_eq_false in Hx. congruence.
Qed.

(** X14.  Upserting records whose ids are not stored and then deleting
    these ids gives the collection back as it was: every lookup by id finds
    what it found before, and there are as many documents as before. *)
Theorem upsert_then_delete config clock vectors db :
  vectors <> [] -> reachable db = true -> write_fault db = None ->
  (forall v, In v vectors -> find_doc (documents db) (vd_id v) = None) ->
  exists db1 db2,
    upsert config clock vectors db = (Normal tt, db1)
    /\ delete (map vd_id vectors) db1 = (Normal tt, db2)
    /\ (forall i, find_doc (documents db2) i = find_doc (documents db) i)
    /\ length (documents db2) = length (documents db).
Proof.
  intros Hne Hr Hf Hfresh.
  destruct (upsert_accepted config clock vectors db Hne Hr Hf)
    as (db1 & E1 & Hr1 & Hd1).
  destruct (delete_reachable (map vd_id vectors) db1 Hr1)
    as (db2 & E2 & _ & Hd2).
  exists db1, db2. split; [exact E1|]. split; [exact E2|].
  rewrite Hd2, Hd1, write_then_delete by done. done.
Qed.

Lemma upsert_then_delete_witness :
  exists db1 db2,
    upsert config3 (ticking 0) [other_record] one_doc_db = (Normal tt, db1)
    /\ delete ["chunk-2"] db1 = (Normal tt, db2)
    /\ find_doc (documents db2) "chunk-1"
       = Some (bson_document (to_document 0 0 short_record))
    /\ find_doc (documents db2) "chunk-2" = None
    /\ length (documents db2) = 1%nat.
Proof.
  assert ([other_record] <> []) as Hne by done.
  destruct (upsert_then_delete config3 (ticking 0) [other_record] one_doc_db
              Hne eq_refl eq_refl) as (db1 & db2 & E1 & E2 & Hfind & Hlen).
  { intros v [<-|[]]. reflexivity. }
  exists db1, db2. split; [exact E1|]. split; [exact E2|].
  rewrite !Hfind, Hlen. by split_and!.
Defined.

(** ** Metadata on its way through the store *)

Lemma obj_get_spread (a b : JsObject) k :
  NoDup (keys b) ->
  obj_get (obj_spread a b) k
  = if existsb (String.eqb k) (keys b) then obj_get b k else obj_get a k.
Proof.
  unfold obj_spread, keys. revert a.
  induction b as [|[k1 v1] b IH]; intros a Hnd; simpl; [done|].
  apply NoDup_cons in Hnd as [Hk1 Hnd]. rewrite IH by done.
  rewrite obj_get_obj_set. case_eqb k k1; simpl; [|done].
  subst k1.
  assert (existsb (String.eqb k) (map fst b) = false) as ->; [|done].
  apply not_true_iff_false. intros H.
  apply existsb_exists in H as (x & Hx & E). apply eqb_eq_true in E. subst x.
  apply Hk1. by apply list_elem_of_In.
Qed.

Lemma obj_get_missing (o : JsObject) k :
  existsb (String.eqb k) (keys o) = false -> obj_get o k = JUndefined.
Proof.
  intros H. apply obj_get_fresh. intros Hin.
  apply not_true_iff_false in H. apply H. apply existsb_exists.
  exists k. split; [done|apply String.eqb_refl].
Qed.

Lemma keys_obj_set (o : JsObject) k v k' :
  In k' (keys o) -> In k' (keys (obj_set o k v)).
Proof.
  unfold keys. induction o as [|[k0 v0] o IH]; simpl; [done|].
  case_eqb k k0; simpl; [by subst|]. intros [?|?]; [by left|right; by apply IH].
Qed.

Lemma keys_obj_spread (a b : JsObject) k' :
  In k' (keys a) -> In k' (keys (obj_spread a b)).
Proof.
  unfold obj_spread. revert a.
  induction b as [|[k1 v1] b IH]; intros a H; simpl; [done|].
  apply IH. by apply keys_obj_set.
Qed.

Lemma to_document_get created updated v k :
  NoDup (keys (vd_metadata v)) ->
  obj_get (doc_metadata (to_document created updated v)) k
  = obj_get (vd_metadata v) k.
Proof.
  intros Hnd. cbn [to_document doc_metadata]. rewrite obj_get_spread by done.
  destruct (existsb (String.eqb k) (keys (vd_metadata v))) eqn:E; [done|].
  rewrite (obj_get_missing _ _ E). cbn [obj_get].
  repeat match goal with
         | |- context [String.eqb k ?s] =>
             let E' := fresh in
             destruct (String.eqb k s) eqn:E';
             [apply eqb_eq_true in E'; subst k; by rewrite obj_get_missing|]
         end.
  done.
Qed.

(** X15.  The metadata object [upsert] builds for a record reads, key for
    key, as the metadata of the record; the six well-known fields are always
    properties of it, [undefined] where the record has none. *)
Theorem stored_metadata_reads_as_given created updated v :
  NoDup (keys (vd_metadata v)) ->
  (forall k,
     obj_get (doc_metadata (to_document created updated v)) k
     = obj_get (vd_metadata v) k)
  /\ (forall k, In k well_known_fields ->
                In k (keys (doc_metadata (to_document created updated v)))).
Proof.
  intros Hnd. split.
  - intros k. by apply to_document_get.
  - intros k Hk. cbn [to_document doc_metadata]. apply keys_obj_spread.
    exact Hk.
Qed.

Lemma stored_metadata_reads_as_given_witness :
  obj_get (doc_metadata (to_document 0 1 other_record)) "speaker" = JStr "ann"
  /\ obj_get (doc_metadata (to_document 0 1 other_record)) "title" = JUndefined
  /\ In "title" (keys (doc_metadata (to_document 0 1 other_record))).
Proof.
  assert (NoDup (keys (vd_metadata other_record))) as Hnd.
  { apply (bool_decide_unpack _). vm_compute. reflexivity. }
  destruct (stored_metadata_reads_as_given 0 1 other_record Hnd)
    as [Hget Hkeys].
  split; [by rewrite Hget|]. split; [by rewrite Hget|].
  apply Hkeys. right. right. left. reflexivity.
Defined.

Lemma stored_keys created updated v k :
  In k well_known_fields ->
  In k (keys (doc_metadata (to_document created updated v))).
Proof.
  intros Hk. cbn [to_document doc_metadata]. apply keys_obj_spread. exact Hk.
Qed.

Lemma truthy_bson v : truthy (bson_value v) = truthy v.
Proof. by destruct v. Qed.

Lemma js_or_bson a :
  js_or (bson_value (js_or a (JStr ""))) (JStr "")
  = js_or (bson_value a) (JStr "").
Proof.
  unfold js_or. destruct (truthy a) eqn:E.
  - done.
  - simpl. by rewrite truthy_bson, E.
Qed.

Lemma obj_get_bson (o : JsObject) k :
  In k (keys o) -> obj_get (bson_object o) k = bson_value (obj_get o k).
Proof.
  unfold keys, bson_object. induction o as [|[k0 v0] o IH]; simpl; [done|].
  case_eqb k k0; [done|]. intros [?|?]; [congruence|by apply IH].
Qed.

(** X16.  From [upsert] to [search].  The document the driver writes for a
    record, handed back by the [$project] stage of [query] and mapped by
    [performVectorSearch], is the [SearchResult] with the record's id, the
    score of the search, the record's [content] (or the empty string) and
    the record's [videoId], [title], [startTime], [url], [playlistId] and
    [publishedAt] as the driver writes them: [null] where the record has
    none. *)
Theorem record_round_trip created updated v score :
  NoDup (keys (vd_metadata v)) ->
  of_query_result
    (to_query_result
       (project (bson_document (to_document created updated v)) score))
  = result_of_record v score.
Proof.
  intros Hnd.
  pose proof (stored_keys created updated v) as Hkeys.
  unfold of_query_result, to_query_result, project, result_of_record.
  cbn [qr_id qr_score qr_metadata pr_id pr_content pr_metadata pr_score
       bson_document doc_id doc_content doc_metadata].
  rewrite !obj_get_obj_set. cbn [String.eqb Ascii.eqb Bool.eqb].
  rewrite !obj_get_bson by (apply Hkeys; simpl; tauto).
  rewrite !to_document_get by done.
  cbn [to_document doc_id doc_content]. by rewrite js_or_bson.
Qed.

Lemma record_round_trip_witness :
  of_query_result
    (to_query_result
       (project (bson_document (to_document 0 1 other_record)) 1))
  = {| sr_id := "chunk-2"; sr_content := JStr "hello"; sr_score := 1;
       sr_videoId := JStr "v2"; sr_videoTitle := JNull;
       sr_timestamp := JNull; sr_url := JNull;
       sr_playlistId := JNull; sr_publishedAt := JNull |}.
Proof.
  rewrite record_round_trip.
  - reflexivity.
  - apply (bool_decide_unpack _). vm_compute. reflexivity.
Defined.

(** ** [query] *)



(** X18.  [query] on a reachable deployment.  The results of the search come
    back in order with their ids and scores, each with the document's
    [content] as [metadata.content]; the collection and the console are
    untouched.  When the search fails, the error is written to the console
    once and raised again.  When the filters cannot be translated, the error
    is raised before the search is run and nothing is written. *)
Theorem query_outcomes engine config vector k filters db :
  reachable db = true ->
  match vectorSearchStage config vector k filters with
  | Throw e => query engine config vector k filters db = (Throw e, db)
  | Normal stage =>
      match engine stage (documents db) with
      | Normal results =>
          exists out,
            query engine config vector k filters db = (Normal out, db)
            /\ map qr_id out = map pr_id results
            /\ map qr_score out = map pr_score results
            /\ map (fun r => obj_get (qr_metadata r) "content") out
               = map pr_content results
      | Throw e =>
          exists db',
            query engine config vector k filters db = (Throw e, db')
            /\ documents db' = documents db
            /\ store_console db'
               = store_console db ++ [LogError "Error querying vectors:" e]
      end
  end.
Proof.
  intros Hr. unfold query, bind, lift, try_catch, aggregate, store_log, throw,
    ret.
  cbv beta.
  destruct (vectorSearchStage config vector k filters) as [stage|e]; [|done].
  rewrite Hr. destruct (engine stage (documents db)) as [results|e].
  - eexists. split; [reflexivity|]. rewrite !map_map. cbn [qr_id qr_score].
    split_and!; try done.
    apply map_ext. intros r. cbn [to_query_result qr_metadata].
    rewrite obj_get_obj_set. by rewrite String.eqb_refl.
  - eexists. split; [reflexivity|]. by split.
Qed.

Lemma query_outcomes_witness :
  (exists out,
     query scan_engine config3 [1%Q; 0%Q; 0%Q] 5 None one_doc_db
     = (Normal out, one_doc_db)
     /\ map qr_id out = ["chunk-1"])
  /\ (exists db',
        query failing_engine config3 [1%Q; 0%Q; 0%Q] 5 None one_doc_db
        = (Throw (BackendError "vectorSearch"), db')
        /\ length (store_console db') = 1%nat).
Proof.
  split.
  - pose proof (query_outcomes scan_engine config3 [1%Q; 0%Q; 0%Q] 5 None
                  one_doc_db eq_refl) as H.
    cbn in H. destruct H as (out & E & Hid & _).
    exists out. split; [exact E|exact Hid].
  - pose proof (query_outcomes failing_engine config3 [1%Q; 0%Q; 0%Q] 5 None
                  one_doc_db eq_refl) as H.
    cbn in H. destruct H as (db' & E & _ & Hc).
    exists db'. split; [exact E|]. by rewrite Hc.
Defined.

(** ** The filter document, for any filters *)

(** X19.  [buildFilterQuery] on any filters.  It raises exactly when a
    [startTimeRange] is [undefined] or [null], and then a [TypeError].
    Otherwise the filter document has one field for each field the keys are
    written to and no other, each a path under [metadata] holding an object
    whose operators are among [$eq], [$gte] and [$lte]. *)
Theorem filter_document_shape (filters : Filters) :
  match buildFilterQuery filters with
  | Normal q =>
      ~ range_missing filters
      /\ metadata_filter q
      /\ NoDup (keys q)
      /\ (forall f, In f (keys q) <->
                    exists key, In key (keys filters) /\ target_field key = f)
  | Throw e =>
      range_missing filters /\ e = destructure_error
  end.
Proof.
  unfold buildFilterQuery.
  pose proof (filter_entries_invariant filters []) as H.
  destruct (filter_entries filters []) as [q|e].
  - destruct H as (Hq & Hnd & Hk & Hv); [constructor|constructor|].
    split_and!; try done.
    intros f. rewrite Hk. simpl. tauto.
  - destruct H as [-> Hv]; [constructor|constructor|]. done.
Qed.

Lemma filter_document_shape_witness :
  (exists q, buildFilterQuery clashing_filters = Normal q
             /\ metadata_filter q /\ NoDup (keys q))
  /\ exists e, buildFilterQuery [("startTimeRange", JNull)] = Throw e
               /\ e = destructure_error.
Proof.
  split.
  - pose proof (filter_document_shape clashing_filters) as H.
    destruct (buildFilterQuery clashing_filters) as [q|e] eqn:E.
    + destruct H as (_ & Hq & Hnd & _). by exists q.
    + discriminate E.
  - pose proof (filter_document_shape [("startTimeRange", JNull)]) as H.
    destruct (buildFilterQuery [("startTimeRange", JNull)]) as [q|e] eqn:E.
    + discriminate E.
    + destruct H as [_ He]. by exists e.
Defined.

(** ** Order of the filter keys *)

(** Without a clash no pass removes what another has written: the filter
    document holds what each pass writes. *)
Lemma no_clash_predicates (filters : Filters) :
  NoDup (keys filters) -> no_field_clash filters ->
  range_destructurable filters ->
  exists q,
    buildFilterQuery filters = Normal q
    /\ forall p,
         In p (query_predicates q) <->
         exists e, In e filters /\ In p (code_entry_predicates e).
Proof.
  intros Hnd [Hc1 Hc2] Hrange.
  destruct (buildFilterQuery_predicates filters Hrange) as (q & E & _ & Hp).
  exists q. split; [exact E|]. intros p. rewrite Hp. split.
  - intros (l1 & e & l2 & -> & Hcode & _). exists e. split; [|done].
    apply in_or_app. right. by left.
  - intros ([key value] & Hin & Hcode).
    apply in_split in Hin as (l1 & l2 & Heq). rewrite Heq in Hnd.
    destruct (keys_split _ _ _ _ Hnd) as (_ & Hk2 & _).
    exists l1, (key, value), l2. split; [done|]. split; [done|].
    intros k' Hk' Hov.
    assert (In k' (keys filters)) as Hin'.
    { rewrite Heq, keys_app. apply in_or_app. right. by right. }
    assert (In key (keys filters)) as Hin.
    { rewrite Heq, keys_app. apply in_or_app. right. by left. }
    destruct (overwrites_clash key value k' p Hcode Hov)
      as [[-> [->| ->]]|[[-> ->]|[-> ->]]].
    + intros ->. done.
    + apply Hc1. split; [done|by left].
    + apply Hc1. split; [done|by right].
    + apply Hc2. split; done.
    + apply Hc2. split; done.
Qed.

(** X20.  Filters without a field clash mean the same in any order of their
    keys: the filter documents built from two orders of the same properties
    have the same predicates and match the same documents. *)
Theorem filter_key_order_irrelevant (filters filters' : Filters) :
  Permutation filters filters' ->
  NoDup (keys filters) -> no_field_clash filters ->
  range_destructurable filters ->
  exists q q',
    buildFilterQuery filters = Normal q
    /\ buildFilterQuery filters' = Normal q'
    /\ (forall p, In p (query_predicates q) <-> In p (query_predicates q'))
    /\ (forall D (holds : Predicate -> D -> bool) d,
          matches holds (query_predicates q) d
          = matches holds (query_predicates q') d).
Proof.
  intros Hp Hnd Hclash Hrange.
  assert (Permutation (keys filters) (keys filters')) as Hpk.
  { unfold keys. by apply Permutation_map. }
  assert (forall k, In k (keys filters) <-> In k (keys filters')) as Hin.
  { intros k. split; apply Permutation_in; [done|by symmetry]. }
  assert (NoDup (keys filters')) as Hnd'.
  { by rewrite <- Hpk. }
  assert (no_field_clash filters') as Hclash'.
  { unfold no_field_clash in *. rewrite <- !Hin. exact Hclash. }
  assert (range_destructurable filters') as Hrange'.
  { intros v Hv. apply Hrange. eapply Permutation_in; [symmetry; exact Hp|done]. }
  destruct (no_clash_predicates filters Hnd Hclash Hrange) as (q & E & Hq).
  destruct (no_clash_predicates filters' Hnd' Hclash' Hrange')
    as (q' & E' & Hq').
  assert (forall p, In p (query_predicates q) <-> In p (query_predicates q'))
    as Hsame.
  { intros p. rewrite Hq, Hq'.
    split; intros (entry & He & Hpe); exists entry; (split; [|done]).
    - by eapply Permutation_in.
    - eapply Permutation_in; [symmetry; exact Hp|done]. }
  exists q, q'. split_and!; try done.
  intros D holds d. by apply matches_same.
Qed.

Lemma filter_key_order_irrelevant_witness :
  exists q q',
    buildFilterQuery [("startTimeRange", JObj []); ("videoId", JStr "v1");
                      ("publishedAfter", JStr "2024")] = Normal q
    /\ buildFilterQuery [("publishedAfter", JStr "2024");
                         ("startTimeRange", JObj []); ("videoId", JStr "v1")]
       = Normal q'
    /\ In ("metadata.startTime", "$eq", JObj []) (query_predicates q')
    /\ (forall p, In p (query_predicates q) <-> In p (query_predicates q')).
Proof.
  destruct (filter_key_order_irrelevant
              [("startTimeRange", JObj []); ("videoId", JStr "v1");
               ("publishedAfter", JStr "2024")]
              [("publishedAfter", JStr "2024");
               ("startTimeRange", JObj []); ("videoId", JStr "v1")])
    as (q & q' & E & E' & Hp & _).
  - etransitivity; [apply perm_skip, perm_swap|apply perm_swap].
  - apply (bool_decide_unpack _). vm_compute. reflexivity.
  - split; simpl; intros [H1 H2]; intuition discriminate.
  - intros v [H|[H|[H|[]]]]; try discriminate H.
    injection H as <-. split; discriminate.
  - exists q, q'. split; [exact E|]. split; [exact E'|]. split; [|exact Hp].
    vm_compute in E'. injection E' as <-. right. left. reflexivity.
Defined.
